(** * CNPJ generator: checksum engine, formatter, sampling strategies, chunked writer

    A shallow embedding of [gerador_cnpj.py], and of the retrying
    download of [checker_cnpj_biz.py].  Python integers are [Z], Python
    [str] values are lists of characters, exceptions are an explicit error
    monad, the [random] module is an abstract generator interface and the
    files written by [ChunkWriter] live in a finite map from paths to
    contents. *)

From stdpp Require Import base numbers list strings gmap.
From Stdlib Require Import ZArith Ascii Lia.

Local Open Scope Z_scope.

(** ** Exceptions *)

(** The exceptions the program can raise: [ValueError] (from [int], from
    [random.randrange] on an empty range, from [Path.with_suffix] and from
    [parse_cnpj_like]), [SystemExit] (the configuration checks of [main]) and
    [AttributeError] (a method call on [None]). *)
Inductive exn : Type :=
  | ValueError
  | SystemExit
  | AttributeError.

(** The outcome of a computation: a value, an exception, or [OutOfFuel] when
    a loop of the model was cut before the program's loop ended. *)
Inductive result (A : Type) : Type :=
  | Ok (a : A)
  | Raise (e : exn)
  | OutOfFuel.
Arguments Ok {A} a.
Arguments Raise {A} e.
Arguments OutOfFuel {A}.

#[global] Instance exn_eq_dec : EqDecision exn.
Proof. solve_decision. Defined.

#[global] Instance result_ret : MRet result := fun _ a => Ok a.
#[global] Instance result_bind : MBind result := fun _ _ f m =>
  match m with
  | Ok a => f a
  | Raise e => Raise e
  | OutOfFuel => OutOfFuel
  end.

(** ** Strings and decimal numerals *)

(** The strings the program builds and the paths it is given, as lists of
    8-bit characters: the program builds its strings from digits, signs and
    separators, and looks at the characters of a path only for equality.
    The one text whose characters the program classifies, the input of
    [parse_cnpj_like], is over any character type (see [Decimal] below). *)
Abbreviation str := (list ascii).

Definition chr_zero : ascii := "0"%char.

(** A string literal as a [str]. *)
Definition lit (s : string) : str := String.list_ascii_of_string s.

Definition is_digit (c : ascii) : bool :=
  (48 <=? nat_of_ascii c)%nat && (nat_of_ascii c <=? 57)%nat.

(** [str(d)] for a single digit [d]. *)
Definition digit_chr (d : Z) : ascii := ascii_of_nat (48 + Z.to_nat d).

(** The value of a digit character. *)
Definition digit_val (c : ascii) : Z := Z.of_nat (nat_of_ascii c) - 48.

(** What Python reads in the characters of a text: whether a character is a
    decimal digit (Unicode category [Nd]: what the regular expression class
    [\d] matches and what [int] accepts as a digit) and the value of the
    digit.  Python's code points with the Unicode database are one such
    character type; the 8-bit characters, whose only decimal digits are
    ['0'..'9'], are another. *)
Class Decimal (C : Type) : Type := {
  is_decimal_char : C -> bool;
  decimal_char_val : C -> Z;
  decimal_char_range :
    forall c, is_decimal_char c = true -> 0 <= decimal_char_val c <= 9;
}.

#[global] Instance ascii_decimal : Decimal ascii.
Proof.
  refine {| is_decimal_char := is_digit; decimal_char_val := digit_val;
            decimal_char_range := _ |}.
  intros c Hc. unfold is_digit in Hc. unfold digit_val.
  apply andb_true_iff in Hc as [H1 H2].
  apply Nat.leb_le in H1. apply Nat.leb_le in H2. lia.
Defined.

(** The zero of the script a code point is a digit of.  Unicode encodes the
    ten decimal digits of a script at consecutive code points, in
    ascending order; [zeros] lists the code points of the zeros. *)
Fixpoint script_zero (zeros : list Z) (c : Z) : option Z :=
  match zeros with
  | [] => None
  | z :: zs => if decide (z <= c <= z + 9) then Some z else script_zero zs c
  end.

(** Code points, with the decimal digits of the scripts whose zeros are
    listed. *)
Definition codepoint_decimal (zeros : list Z) : Decimal Z.
Proof.
  refine {| is_decimal_char := fun c =>
              match script_zero zeros c with Some _ => true | None => false end;
            decimal_char_val := fun c =>
              match script_zero zeros c with Some z => c - z | None => 0 end;
            decimal_char_range := _ |}.
  intros c _. induction zeros as [|z zs IH]; cbn [script_zero]; [lia|].
  case_decide; [lia | exact IH].
Defined.

(** Least significant digit first; [fuel] bounds the number of digits. *)
Fixpoint to_digits_rev (fuel : nat) (n : Z) : list Z :=
  match fuel with
  | O => []
  | S fuel' =>
      if decide (n < 10) then [n]
      else (n `mod` 10) :: to_digits_rev fuel' (n `div` 10)
  end.

(** The decimal digits of a non-negative integer, most significant first.
    A number has no more decimal digits than binary ones. *)
Definition decimal_digits (n : Z) : list Z :=
  reverse (to_digits_rev (S (Z.to_nat (Z.log2 n))) n).

(** [str(n)] for an integer. *)
Definition str_of_Z (n : Z) : str :=
  if decide (n < 0) then "-"%char :: (digit_chr <$> decimal_digits (- n))
  else digit_chr <$> decimal_digits n.

(** [f"{n:0{w}d}"]: sign first, then zeros up to the minimum width [w]. *)
Definition format_0d (w : nat) (n : Z) : str :=
  if decide (n < 0) then
    let ds := digit_chr <$> decimal_digits (- n) in
    "-"%char :: replicate (w - 1 - length ds) chr_zero ++ ds
  else
    let ds := digit_chr <$> decimal_digits n in
    replicate (w - length ds) chr_zero ++ ds.

(** Horner evaluation of a digit sequence. *)
Definition horner (ds : list Z) : Z := foldl (fun acc d => 10 * acc + d) 0 ds.

(** [int(s)].  The program applies [int] only to strings of decimal digits
    and to the single character ['-']; on both this is what Python computes
    (a string of decimal digits, of any script, evaluates in base ten,
    everything else here raises). *)
Definition int_of_str {C : Type} `{Decimal C} (s : list C) : result Z :=
  match s with
  | [] => Raise ValueError
  | _ => if forallb is_decimal_char s then Ok (horner (decimal_char_val <$> s))
         else Raise ValueError
  end.

(** [s[a:b]] for [0 <= a <= b]. *)
Definition slice {C : Type} (a b : nat) (s : list C) : list C :=
  take (b - a) (drop a s).

(** ** Checksum engine *)

Definition PESOS_DV1 : list Z := [5;4;3;2;9;8;7;6;5;4;3;2].
Definition PESOS_DV2 : list Z := [6;5;4;3;2;9;8;7;6;5;4;3;2].

Definition sumZ (l : list Z) : Z := foldr Z.add 0 l.

Definition dv_mod11 (numeros pesos : list Z) : Z :=
  let s := sumZ (zip_with Z.mul numeros pesos) in
  let r := s `mod` 11 in
  if decide (r < 2) then 0 else 11 - r.

Definition calc_dvs (base12_digits : list Z) : Z * Z :=
  let d1 := dv_mod11 base12_digits PESOS_DV1 in
  let d2 := dv_mod11 (base12_digits ++ [d1]) PESOS_DV2 in
  (d1, d2).

(** The check digit as the specification words it: the sum runs over the
    positions of [digits], each digit multiplied by the weight at the same
    position. *)
Definition weighted_sum_spec (digits weights : list Z) : Z :=
  sumZ ((fun i => (digits !!! i) * (weights !!! i)) <$> seq 0 (length digits)).

Definition mod11_spec (digits weights : list Z) : Z :=
  let s := weighted_sum_spec digits weights in
  let r := s `mod` 11 in
  if decide (r < 2) then 0 else 11 - r.

Definition is_decimal (d : Z) : Prop := 0 <= d <= 9.

(** ** Identifier formatter *)

Definition mascarar (cnpj : str) : str :=
  slice 0 2 cnpj ++ ["."%char] ++ slice 2 5 cnpj ++ ["."%char] ++
  slice 5 8 cnpj ++ ["/"%char] ++ slice 8 12 cnpj ++ ["-"%char] ++
  slice 12 14 cnpj.

(** [len(set(cnpj14str)) == 1] *)
Definition is_sequencia_invalida (cnpj14str : str) : bool :=
  bool_decide (length (remove_dups cnpj14str) = 1%nat).

(** [re.sub(r"\D", "", s)]: the characters that are decimal digits stay. *)
Definition strip_non_digits {C : Type} `{Decimal C} (s : list C) : list C :=
  List.filter is_decimal_char s.

Definition parse_cnpj_like {C : Type} `{Decimal C} (s : list C) : result (Z * Z) :=
  let nums := strip_non_digits s in
  if decide (length nums < 12)%nat then Raise ValueError
  else
    raiz ← int_of_str (slice 0 8 nums);
    filial ← int_of_str (slice 8 12 nums);
    mret (raiz, filial).

(** [[int(x) for x in s]] *)
Definition ints_of_chars (s : str) : result (list Z) :=
  mapM (fun x => int_of_str [x]) s.

(** ["".join(str(x) for x in xs)] *)
Definition join_strs (xs : list Z) : str := concat (str_of_Z <$> xs).

(** The 14 characters built from a list of base digits: the digits followed
    by the two check digits (lines 90-91 and 217-218). *)
Definition cnpj14_of_digits (base12 : list Z) : str :=
  let '(d1, d2) := calc_dvs base12 in
  join_strs (base12 ++ [d1; d2]).

(** The local [cnpj14] of [montar_cnpj] (lines 89-91). *)
Definition montar_cnpj14 (raiz8 filial4 : Z) : result str :=
  base12 ← ints_of_chars (format_0d 8 raiz8 ++ format_0d 4 filial4);
  mret (cnpj14_of_digits base12).

Definition montar_cnpj (raiz8 filial4 : Z) (com_mascara : bool)
  : result (option str) :=
  cnpj14 ← montar_cnpj14 raiz8 filial4;
  if is_sequencia_invalida cnpj14 then mret None
  else mret (Some (if com_mascara then mascarar cnpj14 else cnpj14)).

(** ** The [random] module *)

(** The generator is abstract: a state, seeding, a draw from a non-empty
    range [lo, hi) that stays inside it, and the integer part of a
    triangular draw (floating point, left uninterpreted). *)
Class RandomSource : Type := {
  rng : Type;
  rng_seed : Z -> rng;
  randrange_draw : Z -> Z -> rng -> Z * rng;
  randrange_draw_range :
    forall lo hi g, lo < hi -> lo <= (randrange_draw lo hi g).1 < hi;
  triangular_int : Z -> Z -> Z -> rng -> Z * rng;
}.

Section Random.
Context {RS : RandomSource}.

(** [random.randrange(start, stop)]: an empty range raises. *)
Definition randrange (start stop : Z) (g : rng) : result Z * rng :=
  if decide (start < stop) then
    let '(v, g') := randrange_draw start stop g in (Ok v, g')
  else (Raise ValueError, g).

(** [random.randint(a, b)] is [randrange(a, b + 1)]. *)
Definition randint (a b : Z) (g : rng) : result Z * rng := randrange a (b + 1) g.

Definition gerar_random_uma_linha (filial_aleatoria : bool) (filial_fixa : option Z)
    (com_mascara : bool) (raiz_min raiz_max : Z) (bias_newer : bool) (g : rng)
  : result (option str) * rng :=
  let '(rval, g1) :=
    if bias_newer then
      let '(v, g') := triangular_int raiz_min (raiz_max + 1) raiz_max g in (Ok v, g')
    else randint raiz_min raiz_max g in
  match rval with
  | Ok val =>
      let '(rfilial, g2) :=
        if filial_aleatoria then randint 1 9999 g1
        else (Ok (match filial_fixa with None => 1 | Some f => f end), g1) in
      match rfilial with
      | Ok filial => (montar_cnpj val filial com_mascara, g2)
      | Raise e => (Raise e, g2)
      | OutOfFuel => (OutOfFuel, g2)
      end
  | Raise e => (Raise e, g1)
  | OutOfFuel => (OutOfFuel, g1)
  end.

Definition permute_index (i N a b : Z) : Z := (a * i + b) `mod` N.

(** [while True:] draws until a value coprime to [N] comes up. *)
Fixpoint coprime_to (fuel : nat) (N : Z) (g : rng) : result Z * rng :=
  match fuel with
  | O => (OutOfFuel, g)
  | S fuel' =>
      match randrange 2 (N - 1) g with
      | (Ok a, g') =>
          if decide (Z.gcd a N = 1) then (Ok a, g') else coprime_to fuel' N g'
      | (Raise e, g') => (Raise e, g')
      | (OutOfFuel, g') => (OutOfFuel, g')
      end
  end.

End Random.

(** ** Paths and the file system *)

(** A [pathlib.Path], as far as the writer looks at it: the directory it
    lies in and its final component. *)
Record Path : Type := { parent : str; name : str }.

#[global] Instance Path_eq_dec : EqDecision Path.
Proof. solve_decision. Defined.

#[global] Instance Path_countable : Countable Path.
Proof.
  refine (inj_countable' (fun p => (parent p, name p))
            (fun q => {| parent := q.1; name := q.2 |}) _).
  intros []; reflexivity.
Defined.

(** The position of the last ['.'] of a name ([name.rfind('.')]). *)
Fixpoint rfind_dot (s : str) : option nat :=
  match s with
  | [] => None
  | c :: s' =>
      match rfind_dot s' with
      | Some i => Some (S i)
      | None => if decide (c = "."%char) then Some O else None
      end
  end.

(** [PurePath.suffix]: the last dotted part of the name, unless the dot is
    the first or the last character. *)
Definition path_suffix (nm : str) : str :=
  match rfind_dot nm with
  | Some i => if decide (0 < i < length nm - 1)%nat then drop i nm else []
  | None => []
  end.

(** [p.with_suffix(suffix)] for a suffix that starts with a dot: an existing
    suffix is replaced, a name without one is extended, an empty name
    raises. *)
Definition with_suffix (p : Path) (suffix : str) : result Path :=
  match name p with
  | [] => Raise ValueError
  | nm =>
      let old_suffix := path_suffix nm in
      Ok {| parent := parent p;
            name := take (length nm - length old_suffix) nm ++ suffix |}
  end.

Definition txt_suffix : str := [("."%char); "t"%char; "x"%char; "t"%char].
Definition newline : ascii := ascii_of_nat 10.

(** What the program prints: the notice of a newly opened chunk (standard
    output) and the progress notice (standard error). *)
Inductive notice : Type :=
  | ChunkNotice (p : Path)
  | ProgressNotice (total : Z).

(** The world outside the process: file contents by path, the directories
    that exist, and the notices printed, oldest first.  The file system
    grants what the program asks of it: creating a directory, opening a
    file for writing and writing to it raise no [OSError] here. *)
Record World : Type := {
  files : gmap Path str;
  dirs : gset str;
  console : list notice;
}.

Definition open_w (p : Path) (σ : World) : World :=
  {| files := <[p := []]> (files σ); dirs := dirs σ; console := console σ |}.

Definition fh_write (p : Path) (data : str) (σ : World) : World :=
  {| files := alter (fun old => old ++ data) p (files σ);
     dirs := dirs σ; console := console σ |}.

Definition print (n : notice) (σ : World) : World :=
  {| files := files σ; dirs := dirs σ; console := console σ ++ [n] |}.

(** The directories above [d]: what [d] reads before each of its ['/']
    past the first character ([PurePath.parents], without the root and the
    current directory). *)
Definition ancestors (d : str) : list str :=
  omap (fun i => if decide (d !! i = Some "/"%char) then Some (take i d) else None)
       (seq 1 (length d - 1)).

(** [d.mkdir(parents=True, exist_ok=True)]: afterwards [d] and every
    directory above it exist, and what existed still does. *)
Definition mkdir (d : str) (σ : World) : World :=
  {| files := files σ;
     dirs := {[d]} ∪ list_to_set (ancestors d) ∪ dirs σ;
     console := console σ |}.

(** ** The chunked writer *)

Record ChunkWriter : Type := {
  base_prefix : Path;
  chunk_size : Z;
  progress_every : Z;
  _count_total : Z;
  _count_chunk : Z;
  _chunk_idx : Z;
  _fh : option Path;
}.

Definition ChunkWriter_init (base_prefix : Path) (chunk_size progress_every : Z)
    (σ : World) : ChunkWriter * World :=
  ({| base_prefix := base_prefix;
      chunk_size := Z.max 0 chunk_size;
      progress_every := Z.max 0 progress_every;
      _count_total := 0;
      _count_chunk := 0;
      _chunk_idx := 0;
      _fh := None |},
   mkdir (parent base_prefix) σ).

(** [f"{name}_{idx:05d}.txt"] in the directory of the prefix. *)
Definition chunk_path (base_prefix : Path) (idx : Z) : Path :=
  {| parent := parent base_prefix;
     name := name base_prefix ++ ["_"%char] ++ format_0d 5 idx ++ txt_suffix |}.

(** Closing the previous handle leaves the file contents as they are; the
    counter is already advanced when [with_suffix] raises. *)
Definition _open_next (w : ChunkWriter) (σ : World)
  : result unit * (ChunkWriter * World) :=
  let idx := _chunk_idx w + 1 in
  let w1 := {| base_prefix := base_prefix w; chunk_size := chunk_size w;
               progress_every := progress_every w;
               _count_total := _count_total w; _count_chunk := _count_chunk w;
               _chunk_idx := idx; _fh := _fh w |} in
  let rpath :=
    if decide (chunk_size w > 0) then Ok (chunk_path (base_prefix w) idx)
    else with_suffix (base_prefix w) txt_suffix in
  match rpath with
  | Ok path =>
      let σ1 := open_w path σ in
      let w2 := {| base_prefix := base_prefix w; chunk_size := chunk_size w;
                   progress_every := progress_every w;
                   _count_total := _count_total w; _count_chunk := 0;
                   _chunk_idx := idx; _fh := Some path |} in
      (Ok (), (w2, if decide (chunk_size w > 0) then print (ChunkNotice path) σ1 else σ1))
  | Raise e => (Raise e, (w1, σ))
  | OutOfFuel => (OutOfFuel, (w1, σ))
  end.

Definition write_line (line : str) (w : ChunkWriter) (σ : World)
  : result unit * (ChunkWriter * World) :=
  let '(r1, (w1, σ1)) :=
    match _fh w with
    | None => _open_next w σ
    | Some _ => (Ok (), (w, σ))
    end in
  match r1 with
  | Ok _ =>
      let '(r2, (w2, σ2)) :=
        if decide (chunk_size w1 > 0 /\ _count_chunk w1 >= chunk_size w1)
        then _open_next w1 σ1 else (Ok (), (w1, σ1)) in
      match r2 with
      | Ok _ =>
          match _fh w2 with
          | Some fh =>
              let σ3 := fh_write fh [newline] (fh_write fh line σ2) in
              let total := _count_total w2 + 1 in
              let w3 := {| base_prefix := base_prefix w2; chunk_size := chunk_size w2;
                           progress_every := progress_every w2;
                           _count_total := total;
                           _count_chunk := _count_chunk w2 + 1;
                           _chunk_idx := _chunk_idx w2; _fh := _fh w2 |} in
              (Ok (),
               (w3, if decide (progress_every w2 <> 0 /\
                               total `mod` progress_every w2 = 0)
                    then print (ProgressNotice total) σ3 else σ3))
          | None => (Raise AttributeError, (w2, σ2))
          end
      | _ => (r2, (w2, σ2))
      end
  | _ => (r1, (w1, σ1))
  end.

Definition close (w : ChunkWriter) : ChunkWriter :=
  match _fh w with
  | Some _ =>
      {| base_prefix := base_prefix w; chunk_size := chunk_size w;
         progress_every := progress_every w;
         _count_total := _count_total w; _count_chunk := _count_chunk w;
         _chunk_idx := _chunk_idx w; _fh := None |}
  | None => w
  end.

(** ** Command line arguments *)

Record CommonArgs : Type := {
  output : Path;
  mascara : bool;
  arg_chunk_size : Z;
  arg_progress_every : Z;
}.

Record RandomArgs : Type := {
  r_quantidade : Z;
  r_filial_aleatoria : bool;
  r_filial_fixa : option Z;
  r_seed : option Z;
  r_raiz_min : Z;
  r_raiz_max : Z;
  r_bias_newer : bool;
}.

Record SeqArgs : Type := {
  s_quantidade : option Z;
  s_inicio_base12 : option Z;
  s_fim_base12 : option Z;
  s_passo : Z;
  s_shards_total : Z;
  s_shard_index : Z;
  s_nao_pular_seq_invalidas : bool;
}.

(** The arguments of the windowed mode.  The text of [--base-cnpj] is over
    the 8-bit characters here; [parse_cnpj_like], which reads it, takes a
    text over any characters. *)
Record AroundArgs : Type := {
  a_quantidade : Z;
  a_base_cnpj : str;
  a_spread : Z;
  a_seed : option Z;
}.

Inductive Modo : Type :=
  | ModoRandom (a : RandomArgs)
  | ModoSeq (a : SeqArgs)
  | ModoAround (a : AroundArgs).

(** ** The three generation loops and [main] *)

(** The line the sequential mode builds for the base [i] (lines 215-221):
    [None] when the degenerate sequence is skipped. *)
Definition seq_line (com_mascara nao_pular : bool) (i : Z) : result (option str) :=
  base12_digits ← ints_of_chars (format_0d 12 i);
  let cnpj14 := cnpj14_of_digits base12_digits in
  if nao_pular || negb (is_sequencia_invalida cnpj14)
  then mret (Some (if com_mascara then mascarar cnpj14 else cnpj14))
  else mret None.

(** [while i <= fim and (alvo is None or emitidos < alvo)] *)
Fixpoint seq_loop (fuel : nat) (c : CommonArgs) (a : SeqArgs) (fim i emitidos : Z)
    (w : ChunkWriter) (σ : World) : result unit * (ChunkWriter * World) :=
  match fuel with
  | O => (OutOfFuel, (w, σ))
  | S fuel' =>
      if bool_decide (i <= fim) &&
         match s_quantidade a with
         | None => true
         | Some alvo => bool_decide (emitidos < alvo)
         end
      then
        let next := i + s_passo a * s_shards_total a in
        match seq_line (mascara c) (s_nao_pular_seq_invalidas a) i with
        | Ok (Some line) =>
            match write_line line w σ with
            | (Ok _, (w', σ')) => seq_loop fuel' c a fim next (emitidos + 1) w' σ'
            | (Raise e, s') => (Raise e, s')
            | (OutOfFuel, s') => (OutOfFuel, s')
            end
        | Ok None => seq_loop fuel' c a fim next emitidos w σ
        | Raise e => (Raise e, (w, σ))
        | OutOfFuel => (OutOfFuel, (w, σ))
        end
      else (Ok (), (w, σ))
  end.

Section Main.
Context {RS : RandomSource}.

(** [while gerados < alvo] *)
Fixpoint random_loop (fuel : nat) (c : CommonArgs) (a : RandomArgs) (gerados : Z)
    (g : rng) (w : ChunkWriter) (σ : World)
  : result unit * (rng * (ChunkWriter * World)) :=
  match fuel with
  | O => (OutOfFuel, (g, (w, σ)))
  | S fuel' =>
      if decide (gerados < r_quantidade a) then
        match gerar_random_uma_linha (r_filial_aleatoria a) (r_filial_fixa a)
                (mascara c) (r_raiz_min a) (r_raiz_max a) (r_bias_newer a) g with
        | (Ok None, g') => random_loop fuel' c a gerados g' w σ
        | (Ok (Some line), g') =>
            match write_line line w σ with
            | (Ok _, (w', σ')) => random_loop fuel' c a (gerados + 1) g' w' σ'
            | (Raise e, s') => (Raise e, (g', s'))
            | (OutOfFuel, s') => (OutOfFuel, (g', s'))
            end
        | (Raise e, g') => (Raise e, (g', (w, σ)))
        | (OutOfFuel, g') => (OutOfFuel, (g', (w, σ)))
        end
      else (Ok (), (g, (w, σ)))
  end.

(** [while emitidos < args.quantidade] *)
Fixpoint around_loop (fuel : nat) (c : CommonArgs) (quantidade lo N a_coef b_coef : Z)
    (i emitidos : Z) (w : ChunkWriter) (σ : World)
  : result unit * (ChunkWriter * World) :=
  match fuel with
  | O => (OutOfFuel, (w, σ))
  | S fuel' =>
      if decide (emitidos < quantidade) then
        let j := permute_index i N a_coef b_coef in
        let raiz := lo + j in
        match montar_cnpj raiz 1 (mascara c) with
        | Ok None => around_loop fuel' c quantidade lo N a_coef b_coef (i + 1) emitidos w σ
        | Ok (Some line) =>
            match write_line line w σ with
            | (Ok _, (w', σ')) =>
                around_loop fuel' c quantidade lo N a_coef b_coef (i + 1) (emitidos + 1) w' σ'
            | (Raise e, s') => (Raise e, s')
            | (OutOfFuel, s') => (OutOfFuel, s')
            end
        | Raise e => (Raise e, (w, σ))
        | OutOfFuel => (OutOfFuel, (w, σ))
        end
      else (Ok (), (w, σ))
  end.

(** [random.seed(args.seed)] when a seed is given. *)
Definition seeded (seed : option Z) (g : rng) : rng :=
  match seed with
  | Some s => rng_seed s
  | None => g
  end.

(** The body of the [try] block.  Every loop of the run gets [fuel] turns. *)
Definition main_try (fuel : nat) (c : CommonArgs) (m : Modo)
    (g : rng) (w : ChunkWriter) (σ : World)
  : result unit * (rng * (ChunkWriter * World)) :=
  match m with
  | ModoRandom a =>
      let g1 := seeded (r_seed a) g in
      if decide (r_raiz_min a < 0 \/ r_raiz_max a > 99999999 \/
                 r_raiz_min a > r_raiz_max a)
      then (Raise SystemExit, (g1, (w, σ)))
      else random_loop fuel c a 0 g1 w σ
  | ModoSeq a =>
      let inicio := default 0 (s_inicio_base12 a) in
      let fim := default 999999999999 (s_fim_base12 a) in
      if decide (0 <= s_shard_index a < s_shards_total a) then
        let offset :=
          (s_shard_index a - (inicio `mod` s_shards_total a)) `mod` s_shards_total a in
        let i := inicio + offset in
        let '(r, s') := seq_loop fuel c a fim i 0 w σ in (r, (g, s'))
      else (Raise SystemExit, (g, (w, σ)))
  | ModoAround a =>
      let g1 := seeded (a_seed a) g in
      match parse_cnpj_like (a_base_cnpj a) with
      | Ok (raiz_base, _filial) =>
          let lo := Z.max 0 (raiz_base - a_spread a) in
          let hi := Z.min 99999999 (raiz_base + a_spread a) in
          let N := hi - lo + 1 in
          if decide (a_quantidade a > N) then (Raise SystemExit, (g1, (w, σ)))
          else
            match coprime_to fuel N g1 with
            | (Ok a_coef, g2) =>
                match randrange 0 N g2 with
                | (Ok b_coef, g3) =>
                    let '(r, s') :=
                      around_loop fuel c (a_quantidade a) lo N a_coef b_coef 0 0 w σ in
                    (r, (g3, s'))
                | (Raise e, g3) => (Raise e, (g3, (w, σ)))
                | (OutOfFuel, g3) => (OutOfFuel, (g3, (w, σ)))
                end
            | (Raise e, g2) => (Raise e, (g2, (w, σ)))
            | (OutOfFuel, g2) => (OutOfFuel, (g2, (w, σ)))
            end
      | Raise e => (Raise e, (g1, (w, σ)))
      | OutOfFuel => (OutOfFuel, (g1, (w, σ)))
      end
  end.

(** [main]: build the writer, run the selected mode, and close the writer
    on every way out ([finally]). *)
Definition main (fuel : nat) (c : CommonArgs) (m : Modo) (g : rng) (σ : World)
  : result unit * (rng * (ChunkWriter * World)) :=
  let '(w, σ0) :=
    ChunkWriter_init (output c) (arg_chunk_size c) (arg_progress_every c) σ in
  let '(r, (g', (w', σ'))) := main_try fuel c m g w σ0 in
  (r, (g', (close w', σ'))).

End Main.

(** ** A concrete generator *)

(** A linear congruential generator: the interface is inhabited, and the
    model can be run on examples. *)
Definition lcg_next (g : Z) : Z := (g * 1103515245 + 12345) `mod` 2147483648.

Definition lcg_randrange (lo hi g : Z) : Z * Z :=
  (lo + (g `mod` (hi - lo)), lcg_next g).

Definition lcg_source : RandomSource.
Proof.
  refine {| rng := Z;
            rng_seed := fun s => s;
            randrange_draw := lcg_randrange;
            randrange_draw_range := _;
            triangular_int := fun lo hi mode g =>
              (Z.max lo (mode - g `mod` 2), lcg_next g) |}.
  intros lo hi g Hlt. unfold lcg_randrange. simpl.
  pose proof (Z.mod_pos_bound g (hi - lo)). lia.
Defined.


(** ** The checker's retrying download ([checker_cnpj_biz.py]) *)

Module Checker.

Definition UA_LIST : list str :=
  [lit "Mozilla/5.0 (Windows NT 10.0; Win64; x64) AppleWebKit/537.36 (KHTML, like Gecko) Chrome/124.0.0.0 Safari/537.36";
   lit "Mozilla/5.0 (Macintosh; Intel Mac OS X 13_5) AppleWebKit/605.1.15 (KHTML, like Gecko) Version/16.6 Safari/605.1.15";
   lit "Mozilla/5.0 (X11; Linux x86_64) AppleWebKit/537.36 (KHTML, like Gecko) Chrome/122.0.0.0 Safari/537.36"].

Definition RETRY : Z := 3.

(** A [requests.Response], as far as the checker looks at it. *)
Record Response : Type := {
  status_code : Z;
  text : str;
}.

(** What [session.get] does inside the [try] of [fetch]: it answers, or
    raises [requests.RequestException]. *)
Inductive outcome : Type :=
  | Answered (resp : Response)
  | RequestException.

(** A request: the URL and the [User-Agent] header (the other header and
    the timeout are constants). *)
Record Request : Type := {
  req_url : str;
  req_user_agent : str;
}.

(** The network and the clock: how the request number [k] of the run is
    answered, the requests sent so far, and the pauses taken so far, in
    milliseconds, oldest first. *)
Record Net : Type := {
  answers : nat -> Request -> outcome;
  sent : list Request;
  slept : list Z;
}.

Definition session_get (rq : Request) (n : Net) : outcome * Net :=
  (answers n (length (sent n)) rq,
   {| answers := answers n; sent := sent n ++ [rq]; slept := slept n |}).

(** [time.sleep], the duration in milliseconds. *)
Definition sleep (ms : Z) (n : Net) : Net :=
  {| answers := answers n; sent := sent n; slept := slept n ++ [ms] |}.

Section Fetch.
Context {RS : RandomSource}.

(** [random.choice(UA_LIST)] *)
Definition choice_UA (g : rng) : str * rng :=
  let '(k, g') := randrange_draw 0 (Z.of_nat (length UA_LIST)) g in
  (UA_LIST !!! Z.to_nat k, g').

(** The turns [tents] of [for tent in range(RETRY)], and [return None]
    after the last one. *)
Fixpoint fetch_loop (tents : list Z) (url : str) (g : rng) (n : Net)
  : option Response * (rng * Net) :=
  match tents with
  | [] => (None, (g, n))
  | tent :: rest =>
      let '(ua, g1) := choice_UA g in
      let '(o, n1) := session_get {| req_url := url; req_user_agent := ua |} n in
      match o with
      | Answered resp =>
          if decide (status_code resp = 200) then (Some resp, (g1, n1))
          else if decide (status_code resp = 403 \/ status_code resp = 429)
          then fetch_loop rest url g1 (sleep (1500 + 1000 * tent) n1)
          else (Some resp, (g1, n1))
      | RequestException =>
          fetch_loop rest url g1 (sleep (1000 + 500 * tent) n1)
      end
  end.

Definition fetch (url : str) (g : rng) (n : Net) : option Response * (rng * Net) :=
  fetch_loop (seqZ 0 RETRY) url g n.

End Fetch.

(** An attempt that [fetch] repeats: an exception, or a response with
    status 403 or 429. *)
Definition blocked (o : outcome) : Prop :=
  match o with
  | Answered resp => status_code resp = 403 \/ status_code resp = 429
  | RequestException => True
  end.

(** The pause after the blocked attempt number [tent], in milliseconds. *)
Definition pause_after (tent : Z) (o : outcome) : Z :=
  match o with
  | Answered _ => 1500 + 1000 * tent
  | RequestException => 1000 + 500 * tent
  end.

(** How the requests [rqs], sent in this order after the requests already
    on record, are answered. *)
Definition outcomes_of (n : Net) (rqs : list Request) : list outcome :=
  imap (fun j rq => answers n (length (sent n) + j) rq) rqs.

End Checker.

(** ** Vocabulary of the properties *)

(** The value of a digit list read least significant digit first. *)
Definition value_rev (ds : list Z) : Z := foldr (fun d acc => d + 10 * acc) 0 ds.

(** The integer a sequence of decimal digits denotes, position by position:
    the digit at position [i] of [n] digits weighs [10 ^ (n - 1 - i)]. *)
Definition decimal_value_spec (ds : list Z) : Z :=
  sumZ ((fun i => (ds !!! i) * 10 ^ Z.of_nat (length ds - 1 - i)) <$> seq 0 (length ds)).

(** The decimal digits of [n], padded with zeros on the left to width [w]. *)
Definition digits_w (w : nat) (n : Z) : list Z :=
  replicate (w - length (decimal_digits n)) 0 ++ decimal_digits n.

(** The fourteen digits of the identifier assembled from a root and a
    branch within their ranges. *)
Definition cnpj14_digits (r f : Z) : list Z :=
  (digits_w 8 r ++ digits_w 4 f) ++
  [(calc_dvs (digits_w 8 r ++ digits_w 4 f)).1;
   (calc_dvs (digits_w 8 r ++ digits_w 4 f)).2].

(** The line of the identifier with root [r] and branch [f], masked or
    not. *)
Definition cnpj_line (com_mascara : bool) (r f : Z) : str :=
  let cnpj14 := digit_chr <$> cnpj14_digits r f in
  if com_mascara then mascarar cnpj14 else cnpj14.

(** What the sequential mode emits for the base [i]: its line, or nothing
    when the degenerate sequence is skipped. *)
Definition seq_emit (com_mascara nao_pular : bool) (i : Z) : option str :=
  let ds := digits_w 12 i in
  let cnpj14 := digit_chr <$> (ds ++ [(calc_dvs ds).1; (calc_dvs ds).2]) in
  if nao_pular || negb (is_sequencia_invalida cnpj14)
  then Some (if com_mascara then mascarar cnpj14 else cnpj14)
  else None.

(** A non-empty string made of one repeated character. *)
Definition all_same (s : str) : Prop :=
  exists c, s <> [] /\ Forall (fun x => x = c) s.

(** Feeding a list of lines to the writer, in order, up to the first
    failure. *)
Fixpoint write_lines (lines : list str) (w : ChunkWriter) (σ : World)
  : result unit * (ChunkWriter * World) :=
  match lines with
  | [] => (Ok (), (w, σ))
  | line :: rest =>
      match write_line line w σ with
      | (Ok _, (w', σ')) => write_lines rest w' σ'
      | (Raise e, s') => (Raise e, s')
      | (OutOfFuel, s') => (OutOfFuel, s')
      end
  end.

(** The contents of a file that holds the given lines, each followed by
    the line terminator. *)
Definition file_of_lines (lines : list str) : str :=
  concat ((fun l => l ++ [newline]) <$> lines).

(** The life of a writer: construction, the lines in order, [close]. *)
Definition run_writer (p : Path) (cs pe : Z) (lines : list str) (σ : World)
  : result unit * (ChunkWriter * World) :=
  let '(w, σ0) := ChunkWriter_init p cs pe σ in
  let '(r, (w', σ')) := write_lines lines w σ0 in
  (r, (close w', σ')).

(** A list cut into consecutive groups of [cs] elements, the last one
    possibly shorter; [fuel] bounds the number of groups. *)
Fixpoint groups {A} (fuel cs : nat) (l : list A) : list (list A) :=
  match fuel with
  | O => []
  | S fuel' =>
      match l with
      | [] => []
      | _ => take cs l :: groups fuel' cs (drop cs l)
      end
  end.

(** The files that hold the given groups of lines, one chunk file per
    group, numbered from [k]. *)
Fixpoint chunk_files (p : Path) (k : Z) (gs : list (list str)) (m : gmap Path str)
  : gmap Path str :=
  match gs with
  | [] => m
  | g :: gs' => chunk_files p (k + 1) gs' (<[chunk_path p k := file_of_lines g]> m)
  end.

(** The value of the draw number [k] (from 0) in a run of draws from the
    range [lo, hi) that starts in state [g]. *)
Fixpoint draw_at `{RandomSource} (lo hi : Z) (k : nat) (g : rng) : Z :=
  match k with
  | O => (randrange_draw lo hi g).1
  | S k' => draw_at lo hi k' (randrange_draw lo hi g).2
  end.

(** The pairs (root, branch) of [k] lines of the random mode without bias,
    and the generator after them: a root drawn from the root range, then a
    branch drawn from 1..9999 or the fixed branch. *)
Fixpoint uniform_pairs `{RandomSource} (a : RandomArgs) (k : nat) (g : rng)
  : list (Z * Z) * rng :=
  match k with
  | O => ([], g)
  | S k' =>
      let '(v, g1) := randrange_draw (r_raiz_min a) (r_raiz_max a + 1) g in
      let '(f, g2) :=
        if r_filial_aleatoria a then randrange_draw 1 (9999 + 1) g1
        else (default 1 (r_filial_fixa a), g1) in
      let '(ps, g') := uniform_pairs a k' g2 in
      ((v, f) :: ps, g')
  end.

(** The configuration errors: a root range with [min > max] or a bound
    outside 0..99999999 (random mode), a shard index outside
    [0, total) (sequential mode), a quantity larger than the window around
    the root of the base identifier (windowed mode). *)
Definition config_error (m : Modo) : Prop :=
  match m with
  | ModoRandom a =>
      r_raiz_min a > r_raiz_max a \/
      ~ (0 <= r_raiz_min a <= 99999999) \/ ~ (0 <= r_raiz_max a <= 99999999)
  | ModoSeq a => ~ (0 <= s_shard_index a < s_shards_total a)
  | ModoAround a =>
      exists raiz filial,
        parse_cnpj_like (a_base_cnpj a) = Ok (raiz, filial) /\
        a_quantidade a >
          Z.min 99999999 (raiz + a_spread a) - Z.max 0 (raiz - a_spread a) + 1
  end.

(** The totals announced by the progress notices of a console, oldest
    first. *)
Definition progress_totals (ns : list notice) : list Z :=
  omap (fun n => match n with
                 | ProgressNotice t => Some t
                 | ChunkNotice _ => None
                 end) ns.

(** The paths announced by the chunk notices of a console, oldest first. *)
Definition chunk_notices (ns : list notice) : list Path :=
  omap (fun n => match n with
                 | ChunkNotice p => Some p
                 | ProgressNotice _ => None
                 end) ns.

(** The counters of a writer with chunking enabled agree: before the
    first line no file is open and nothing is counted; afterwards the
    open chunk holds between one and [chunk_size] lines and the chunks
    before it are full. *)
Definition counters_agree (w : ChunkWriter) : Prop :=
  (_fh w = None /\ _count_total w = 0 /\ _chunk_idx w = 0) \/
  (_fh w <> None /\ 1 <= _count_chunk w <= chunk_size w /\
   _count_total w = (_chunk_idx w - 1) * chunk_size w + _count_chunk w).

(** The arithmetic progression [start, start + stride, ...] up to [hi]
    included, for a positive stride. *)
Definition arith_prog (start stride hi : Z) : list Z :=
  (fun j => start + stride * j) <$> seqZ 0 ((hi - start) `div` stride + 1).

(** * Properties *)

(** ** Decimal numerals *)

Lemma is_decimal_mod10 n : is_decimal (n `mod` 10).
Proof. unfold is_decimal. pose proof (Z.mod_pos_bound n 10). lia. Qed.

Lemma to_digits_rev_spec fuel n :
  0 <= n < 2 ^ Z.of_nat fuel ->
  value_rev (to_digits_rev fuel n) = n /\ Forall is_decimal (to_digits_rev fuel n).
Proof.
  revert n. induction fuel as [|fuel IH]; intros n Hn.
  - simpl in *. split; [lia | constructor].
  - cbn [to_digits_rev]. case_decide as Hlt.
    + split; [simpl; lia|]. repeat constructor; unfold is_decimal; lia.
    + assert (Hdiv : 0 <= n `div` 10 < 2 ^ Z.of_nat fuel).
      { rewrite Nat2Z.inj_succ, Z.pow_succ_r in Hn by lia.
        split; [apply Z.div_pos; lia|].
        apply Z.div_lt_upper_bound; lia. }
      destruct (IH _ Hdiv) as [Hv Hd]. split.
      * cbn [value_rev foldr]. fold (value_rev (to_digits_rev fuel (n `div` 10))).
        rewrite Hv. pose proof (Z.div_mod n 10). lia.
      * constructor; [apply is_decimal_mod10 | done].
Qed.

Lemma to_digits_rev_length fuel n (w : nat) :
  (1 <= w)%nat -> 0 <= n < 10 ^ Z.of_nat w ->
  (length (to_digits_rev fuel n) <= w)%nat.
Proof.
  revert n w. induction fuel as [|fuel IH]; intros n w Hw Hn; [simpl; lia|].
  cbn [to_digits_rev]. case_decide as Hlt; [simpl; lia|].
  destruct w as [|w]; [lia|]. cbn [length].
  destruct w as [|w].
  { change (10 ^ Z.of_nat 1) with 10 in Hn. lia. }
  apply le_n_S, IH; [lia|].
  rewrite Nat2Z.inj_succ, Z.pow_succ_r in Hn by lia.
  split; [apply Z.div_pos; lia|].
  apply Z.div_lt_upper_bound; lia.
Qed.

Lemma to_digits_rev_nonempty fuel n : to_digits_rev (S fuel) n <> [].
Proof. cbn [to_digits_rev]. by case_decide. Qed.

Lemma horner_snoc ds d : horner (ds ++ [d]) = 10 * horner ds + d.
Proof.
  unfold horner. generalize 0.
  induction ds as [|x ds IH]; intros acc; simpl; [done | apply IH].
Qed.

Lemma horner_reverse ds : horner (reverse ds) = value_rev ds.
Proof.
  induction ds as [|d ds IH]; [done|].
  rewrite reverse_cons, horner_snoc, IH. simpl. lia.
Qed.

Lemma log2_fuel n : 0 <= n -> n < 2 ^ Z.of_nat (S (Z.to_nat (Z.log2 n))).
Proof.
  intros Hn. rewrite Nat2Z.inj_succ, Z2Nat.id by apply Z.log2_nonneg.
  destruct (decide (n = 0)) as [->|Hne]; [done|].
  apply Z.log2_spec. lia.
Qed.

Lemma horner_decimal_digits n : 0 <= n -> horner (decimal_digits n) = n.
Proof.
  intros Hn. unfold decimal_digits. rewrite horner_reverse.
  apply to_digits_rev_spec. split; [done | by apply log2_fuel].
Qed.

Lemma decimal_digits_decimal n : 0 <= n -> Forall is_decimal (decimal_digits n).
Proof.
  intros Hn. unfold decimal_digits. apply Forall_reverse.
  apply to_digits_rev_spec. split; [done | by apply log2_fuel].
Qed.

Lemma decimal_digits_length n (w : nat) :
  (1 <= w)%nat -> 0 <= n < 10 ^ Z.of_nat w -> (length (decimal_digits n) <= w)%nat.
Proof.
  intros Hw Hn. unfold decimal_digits. rewrite length_reverse.
  by apply to_digits_rev_length.
Qed.

Lemma horner_zeros k ds : horner (replicate k 0 ++ ds) = horner ds.
Proof. induction k as [|k IH]; [done|]. unfold horner in *. simpl. apply IH. Qed.

Lemma digits_w_length (w : nat) n :
  (1 <= w)%nat -> 0 <= n < 10 ^ Z.of_nat w -> length (digits_w w n) = w.
Proof.
  intros Hw Hn. unfold digits_w. rewrite length_app, length_replicate.
  pose proof (decimal_digits_length n w Hw Hn). lia.
Qed.

Lemma digits_w_decimal (w : nat) n : 0 <= n -> Forall is_decimal (digits_w w n).
Proof.
  intros Hn. unfold digits_w. apply Forall_app. split.
  - apply Forall_replicate. unfold is_decimal. lia.
  - by apply decimal_digits_decimal.
Qed.

Lemma horner_digits_w (w : nat) n : 0 <= n -> horner (digits_w w n) = n.
Proof. intros Hn. unfold digits_w. rewrite horner_zeros. by apply horner_decimal_digits. Qed.


(** ** Digit characters *)

Lemma is_decimal_cases d :
  is_decimal d ->
  d = 0 \/ d = 1 \/ d = 2 \/ d = 3 \/ d = 4 \/ d = 5 \/ d = 6 \/ d = 7 \/ d = 8 \/ d = 9.
Proof. unfold is_decimal. lia. Qed.

Ltac decimal_cases H :=
  apply is_decimal_cases in H; destruct_or! H; subst.

Lemma is_digit_digit_chr d : is_decimal d -> is_digit (digit_chr d) = true.
Proof. intros H. decimal_cases H; reflexivity. Qed.

Lemma digit_val_digit_chr d : is_decimal d -> digit_val (digit_chr d) = d.
Proof. intros H. decimal_cases H; reflexivity. Qed.

#[global] Opaque digit_chr digit_val is_digit.

Lemma forallb_is_digit ds :
  Forall is_decimal ds -> forallb is_digit (digit_chr <$> ds) = true.
Proof.
  induction 1 as [|d ds Hd _ IH]; [reflexivity|].
  cbn [fmap list_fmap forallb].
  rewrite is_digit_digit_chr by exact Hd. rewrite IH. reflexivity.
Qed.

Lemma digit_val_fmap ds :
  Forall is_decimal ds -> digit_val <$> (digit_chr <$> ds) = ds.
Proof.
  induction 1 as [|d ds Hd _ IH]; [reflexivity|].
  cbn [fmap list_fmap] in *.
  rewrite digit_val_digit_chr by exact Hd. rewrite IH. reflexivity.
Qed.

Lemma int_of_str_digits ds :
  ds <> [] -> Forall is_decimal ds -> int_of_str (digit_chr <$> ds) = Ok (horner ds).
Proof.
  intros Hne Hds. unfold int_of_str.
  rewrite forallb_is_digit, digit_val_fmap by exact Hds.
  destruct ds as [|d ds]; [congruence | reflexivity].
Qed.

Lemma int_of_str_digit d : is_decimal d -> int_of_str [digit_chr d] = Ok d.
Proof.
  intros Hd. change [digit_chr d] with (digit_chr <$> [d]).
  rewrite int_of_str_digits; [|congruence|by constructor].
  unfold horner. cbn [foldl]. f_equal; lia.
Qed.

Lemma ints_of_chars_digits ds :
  Forall is_decimal ds -> ints_of_chars (digit_chr <$> ds) = Ok ds.
Proof.
  unfold ints_of_chars. induction 1 as [|d ds Hd _ IH]; [reflexivity|].
  cbn [fmap list_fmap mapM] in *.
  rewrite int_of_str_digit by exact Hd. cbn [mbind result_bind].
  rewrite IH. reflexivity.
Qed.

Lemma decimal_digits_digit d : is_decimal d -> decimal_digits d = [d].
Proof.
  intros [H0 H9]. unfold decimal_digits. cbn [to_digits_rev].
  rewrite decide_True by lia. reflexivity.
Qed.

Lemma str_of_Z_digit d : is_decimal d -> str_of_Z d = [digit_chr d].
Proof.
  intros Hd. unfold str_of_Z. rewrite decide_False by (unfold is_decimal in Hd; lia).
  rewrite decimal_digits_digit by exact Hd. reflexivity.
Qed.

Lemma join_strs_digits ds : Forall is_decimal ds -> join_strs ds = digit_chr <$> ds.
Proof.
  unfold join_strs. induction 1 as [|d ds Hd _ IH]; [reflexivity|].
  cbn [fmap list_fmap concat] in *.
  rewrite str_of_Z_digit by exact Hd. rewrite IH. reflexivity.
Qed.

Lemma format_0d_digits (w : nat) n : 0 <= n -> format_0d w n = digit_chr <$> digits_w w n.
Proof.
  intros Hn. unfold format_0d, digits_w. rewrite decide_False by lia.
  rewrite fmap_app, fmap_replicate, length_fmap. reflexivity.
Qed.

Lemma strip_digits ds :
  Forall is_decimal ds -> strip_non_digits (digit_chr <$> ds) = digit_chr <$> ds.
Proof.
  unfold strip_non_digits. induction 1 as [|d ds Hd _ IH]; [reflexivity|].
  cbn [fmap list_fmap List.filter] in *.
  rewrite is_digit_digit_chr by exact Hd. rewrite IH. reflexivity.
Qed.

(** ** Checksum engine *)

Lemma dv_mod11_decimal numeros pesos : is_decimal (dv_mod11 numeros pesos).
Proof.
  unfold dv_mod11, is_decimal. cbv zeta.
  pose proof (Z.mod_pos_bound (sumZ (zip_with Z.mul numeros pesos)) 11).
  case_decide; lia.
Qed.

Lemma calc_dvs_decimal base12 :
  is_decimal (calc_dvs base12).1 /\ is_decimal (calc_dvs base12).2.
Proof. unfold calc_dvs. split; apply dv_mod11_decimal. Qed.

(** The sum over the zipped pairs is the sum over the positions of the
    digits, when there is a weight for every digit. *)
Lemma zip_sum_positions digits weights :
  (length digits <= length weights)%nat ->
  sumZ (zip_with Z.mul digits weights) = weighted_sum_spec digits weights.
Proof.
  unfold weighted_sum_spec. revert weights.
  induction digits as [|d digits IH]; intros weights Hlen; [reflexivity|].
  destruct weights as [|p weights]; [cbn in Hlen; lia|].
  cbn [length seq]. rewrite fmap_cons, <-fmap_S_seq, <-list_fmap_compose.
  cbn [zip_with]. unfold sumZ in *. cbn [foldr].
  rewrite (IH weights) by (cbn in Hlen; lia). reflexivity.
Qed.

Lemma dv_mod11_spec digits weights :
  (length digits <= length weights)%nat ->
  dv_mod11 digits weights = mod11_spec digits weights.
Proof.
  intros Hlen. unfold dv_mod11, mod11_spec.
  rewrite zip_sum_positions by exact Hlen. reflexivity.
Qed.

(** C1: for every sequence of 12 decimal digits, [calc_dvs] returns the
    pair [(d1, d2)] with [d1 = mod11(base12, weights1)] and
    [d2 = mod11(base12 ++ [d1], weights2)], where [mod11] takes the
    weighted sum over the positions, reduces it modulo 11 and returns 0
    below 2 and [11 - r] otherwise; two calls on the same input give the
    same pair, and both digits lie in 0..9. *)
Theorem calc_dvs_correct (base12 : list Z) :
  length base12 = 12%nat -> Forall is_decimal base12 ->
  let d1 := mod11_spec base12 [5;4;3;2;9;8;7;6;5;4;3;2] in
  let d2 := mod11_spec (base12 ++ [d1]) [6;5;4;3;2;9;8;7;6;5;4;3;2] in
  calc_dvs base12 = (d1, d2) /\
  (forall r r', r = calc_dvs base12 -> r' = calc_dvs base12 -> r = r') /\
  0 <= d1 <= 9 /\ 0 <= d2 <= 9.
Proof.
  intros Hlen Hdec d1 d2. subst d1 d2.
  rewrite <-!dv_mod11_spec by (rewrite ?length_app, Hlen; cbn; lia).
  split; [reflexivity|]. split; [congruence|].
  split; apply dv_mod11_decimal.
Qed.

Lemma calc_dvs_correct_witness :
  calc_dvs [1;1;2;2;2;3;3;3;0;0;0;1] = (8, 1).
Proof.
  pose proof (calc_dvs_correct [1;1;2;2;2;3;3;3;0;0;0;1]) as H.
  destruct H as [H _].
  - reflexivity.
  - repeat constructor; unfold is_decimal; lia.
  - rewrite H. vm_compute. reflexivity.
Defined.


(** ** Identifier formatter *)

Lemma is_digit_dot : is_digit "."%char = false.
Proof. vm_compute. reflexivity. Qed.
Lemma is_digit_slash : is_digit "/"%char = false.
Proof. vm_compute. reflexivity. Qed.
Lemma is_digit_dash : is_digit "-"%char = false.
Proof. vm_compute. reflexivity. Qed.

(** The digits of an assembled identifier: root, branch, check digits. *)
Lemma cnpj14_of_digits_decimal ds :
  Forall is_decimal ds ->
  cnpj14_of_digits ds =
    digit_chr <$> (ds ++ [(calc_dvs ds).1; (calc_dvs ds).2]).
Proof.
  intros Hds. unfold cnpj14_of_digits.
  destruct (calc_dvs_decimal ds) as [H1 H2].
  destruct (calc_dvs ds) as [d1 d2]. cbn [fst snd] in *.
  apply join_strs_digits. apply Forall_app. split; [exact Hds|].
  apply Forall_cons. split; [exact H1|].
  apply Forall_cons. split; [exact H2|]. apply Forall_nil_2.
Qed.

Lemma montar_cnpj14_digits r f :
  0 <= r -> 0 <= f ->
  montar_cnpj14 r f =
    Ok (digit_chr <$> ((digits_w 8 r ++ digits_w 4 f) ++
          [(calc_dvs (digits_w 8 r ++ digits_w 4 f)).1;
           (calc_dvs (digits_w 8 r ++ digits_w 4 f)).2])).
Proof.
  intros Hr Hf. unfold montar_cnpj14.
  assert (Hdec : Forall is_decimal (digits_w 8 r ++ digits_w 4 f)).
  { apply Forall_app. split; apply digits_w_decimal; assumption. }
  rewrite !format_0d_digits by assumption.
  rewrite <-fmap_app, ints_of_chars_digits by exact Hdec.
  cbn [mbind result_bind mret result_ret].
  rewrite cnpj14_of_digits_decimal by exact Hdec. reflexivity.
Qed.

Lemma pow10_8 : 10 ^ Z.of_nat 8 = 100000000.
Proof. reflexivity. Qed.
Lemma pow10_4 : 10 ^ Z.of_nat 4 = 10000.
Proof. reflexivity. Qed.
Lemma pow10_12 : 10 ^ Z.of_nat 12 = 1000000000000.
Proof. reflexivity. Qed.

Lemma strip_app (a b : str) :
  strip_non_digits (a ++ b) = strip_non_digits a ++ strip_non_digits b.
Proof. apply List.filter_app. Qed.

Lemma slice_fmap {A} (f : A -> ascii) a b (l : list A) :
  slice a b (f <$> l) = f <$> take (b - a) (drop a l).
Proof. unfold slice. rewrite fmap_take, fmap_drop. reflexivity. Qed.

Lemma strip_slice_digits a b L :
  Forall is_decimal L ->
  strip_non_digits (slice a b (digit_chr <$> L)) = digit_chr <$> take (b - a) (drop a L).
Proof.
  intros HL. rewrite slice_fmap. apply strip_digits.
  apply Forall_take, Forall_drop, HL.
Qed.

(** The five groups of the masked form cover the fourteen positions. *)
Lemma groups14 {A} (L : list A) :
  length L = 14%nat ->
  take (2 - 0) (drop 0 L) ++ take (5 - 2) (drop 2 L) ++ take (8 - 5) (drop 5 L) ++
  take (12 - 8) (drop 8 L) ++ take (14 - 12) (drop 12 L) = L.
Proof.
  intros Hlen.
  do 14 (destruct L as [|? L]; [discriminate Hlen|]).
  destruct L; [reflexivity | discriminate Hlen].
Qed.

(** Stripping the separators of the masked form gives the digits back. *)
Lemma strip_mascarar L :
  length L = 14%nat -> Forall is_decimal L ->
  strip_non_digits (mascarar (digit_chr <$> L)) = digit_chr <$> L.
Proof.
  intros Hlen Hdec. unfold mascarar.
  rewrite !strip_app, !strip_slice_digits by exact Hdec.
  change (strip_non_digits ["."%char]) with (@nil ascii).
  change (strip_non_digits ["/"%char]) with (@nil ascii).
  change (strip_non_digits ["-"%char]) with (@nil ascii).
  rewrite !app_nil_l, <-!fmap_app, groups14 by exact Hlen. reflexivity.
Qed.

Lemma parse_digits (ds8 ds4 rest : list Z) :
  length ds8 = 8%nat -> length ds4 = 4%nat ->
  Forall is_decimal ds8 -> Forall is_decimal ds4 ->
  strip_non_digits (digit_chr <$> (ds8 ++ ds4 ++ rest)) =
    digit_chr <$> (ds8 ++ ds4 ++ rest) ->
  parse_cnpj_like (digit_chr <$> (ds8 ++ ds4 ++ rest)) = Ok (horner ds8, horner ds4).
Proof.
  intros H8 H4 Hd8 Hd4 Hstrip. unfold parse_cnpj_like. cbv zeta.
  rewrite Hstrip.
  rewrite decide_False by (rewrite length_fmap, !length_app; lia).
  assert (Hs1 : slice 0 8 (digit_chr <$> (ds8 ++ ds4 ++ rest)) = digit_chr <$> ds8).
  { unfold slice. rewrite Nat.sub_0_r, drop_0, <-fmap_take.
    rewrite (take_app_length' ds8) by (symmetry; exact H8). reflexivity. }
  assert (Hs2 : slice 8 12 (digit_chr <$> (ds8 ++ ds4 ++ rest)) = digit_chr <$> ds4).
  { unfold slice. rewrite <-fmap_drop, <-fmap_take.
    rewrite (drop_app_length' ds8) by (symmetry; exact H8).
    change (12 - 8)%nat with 4%nat.
    rewrite (take_app_length' ds4) by (symmetry; exact H4). reflexivity. }
  rewrite Hs1, Hs2.
  rewrite !int_of_str_digits; try assumption.
  - reflexivity.
  - intros ->. cbn in H8. lia.
  - intros ->. cbn in H4. lia.
Qed.

(** ** Degenerate sequences *)

Lemma NoDup_constant_length {A} (c : A) (l : list A) :
  NoDup l -> Forall (fun x => x = c) l -> (length l <= 1)%nat.
Proof.
  intros Hnd Hall. destruct l as [|x [|y l]]; [cbn; lia | cbn; lia |].
  exfalso. apply NoDup_cons in Hnd as [Hnotin _].
  apply Forall_cons in Hall as [-> Hall].
  apply Forall_cons in Hall as [-> _].
  apply Hnotin. apply elem_of_cons. left. reflexivity.
Qed.

(** [len(set(s)) == 1] holds exactly for the non-empty strings made of one
    repeated character. *)
Lemma is_sequencia_invalida_all_same (s : str) :
  is_sequencia_invalida s = true <-> all_same s.
Proof.
  unfold is_sequencia_invalida, all_same. rewrite bool_decide_eq_true. split.
  - intros Hlen.
    destruct (remove_dups s) as [|c [|c' l]] eqn:Hrd; try discriminate Hlen.
    exists c. split.
    + intros ->. discriminate Hrd.
    + apply Forall_forall. intros x Hx.
      apply (proj2 (elem_of_remove_dups s x)) in Hx. rewrite Hrd in Hx.
      apply list_elem_of_singleton in Hx. exact Hx.
  - intros (c & Hne & Hall).
    assert (Hle : (length (remove_dups s) <= 1)%nat).
    { apply (NoDup_constant_length c); [apply NoDup_remove_dups|].
      apply Forall_forall. intros x Hx. apply (proj1 (elem_of_remove_dups s x)) in Hx.
      revert x Hx. apply Forall_forall. exact Hall. }
    destruct s as [|x s]; [congruence|].
    assert (Hin : x ∈ remove_dups (x :: s)).
    { apply elem_of_remove_dups, elem_of_cons. left. reflexivity. }
    destruct (remove_dups (x :: s)) as [|y l]; [inversion Hin|].
    cbn in *. lia.
Qed.

Lemma is_sequencia_invalida_false (s : str) :
  is_sequencia_invalida s = false <-> ~ all_same s.
Proof.
  rewrite <-is_sequencia_invalida_all_same.
  destruct (is_sequencia_invalida s); split; intros H; congruence.
Qed.

Lemma cnpj14_digits_length r f :
  0 <= r <= 99999999 -> 0 <= f <= 9999 -> length (cnpj14_digits r f) = 14%nat.
Proof.
  intros Hr Hf. unfold cnpj14_digits.
  rewrite !length_app, !digits_w_length; [reflexivity | lia | | lia |].
  - rewrite pow10_4. lia.
  - rewrite pow10_8. lia.
Qed.

Lemma cnpj14_digits_decimal r f :
  0 <= r -> 0 <= f -> Forall is_decimal (cnpj14_digits r f).
Proof.
  intros Hr Hf. unfold cnpj14_digits.
  destruct (calc_dvs_decimal (digits_w 8 r ++ digits_w 4 f)) as [H1 H2].
  apply Forall_app. split.
  - apply Forall_app. split; apply digits_w_decimal; assumption.
  - apply Forall_cons. split; [exact H1|].
    apply Forall_cons. split; [exact H2|]. apply Forall_nil_2.
Qed.

Lemma montar_cnpj_cases r f m :
  0 <= r -> 0 <= f ->
  montar_cnpj r f m =
    let cnpj14 := digit_chr <$> cnpj14_digits r f in
    if is_sequencia_invalida cnpj14 then Ok None
    else Ok (Some (if m then mascarar cnpj14 else cnpj14)).
Proof.
  intros Hr Hf. unfold montar_cnpj.
  rewrite montar_cnpj14_digits by assumption.
  reflexivity.
Qed.

Lemma montar_cnpj_zero m : montar_cnpj 0 0 m = Ok None.
Proof. destruct m; vm_compute; reflexivity. Qed.

(** C4: for every root in 0..99999999 and branch in 0..9999 the fourteen
    characters [montar_cnpj] assembles are digits; when they are all equal
    the function returns [None], and whenever it returns an identifier
    (masked or not) the fourteen digits of that identifier are not all
    equal. *)
Theorem montar_cnpj_never_all_same (raiz8 filial4 : Z) (com_mascara : bool) :
  0 <= raiz8 <= 99999999 -> 0 <= filial4 <= 9999 ->
  exists cnpj14,
    montar_cnpj14 raiz8 filial4 = Ok cnpj14 /\
    length cnpj14 = 14%nat /\
    Forall (fun c => is_digit c = true) cnpj14 /\
    (all_same cnpj14 -> montar_cnpj raiz8 filial4 com_mascara = Ok None) /\
    (forall s, montar_cnpj raiz8 filial4 com_mascara = Ok (Some s) ->
       strip_non_digits s = cnpj14 /\ ~ all_same cnpj14).
Proof.
  intros Hr Hf. exists (digit_chr <$> cnpj14_digits raiz8 filial4).
  pose proof (cnpj14_digits_length raiz8 filial4 Hr Hf) as Hlen.
  assert (Hdec : Forall is_decimal (cnpj14_digits raiz8 filial4))
    by (apply cnpj14_digits_decimal; lia).
  split; [apply montar_cnpj14_digits; lia|].
  split; [rewrite length_fmap; exact Hlen|].
  split.
  { apply Forall_fmap. eapply Forall_impl; [exact Hdec|].
    intros d Hd. apply is_digit_digit_chr. exact Hd. }
  rewrite montar_cnpj_cases by lia. cbv zeta. split.
  - intros Hsame. apply is_sequencia_invalida_all_same in Hsame.
    rewrite Hsame. reflexivity.
  - intros s Hs.
    destruct (is_sequencia_invalida (digit_chr <$> cnpj14_digits raiz8 filial4))
      eqn:Hinv; [discriminate Hs|].
    split; [|apply is_sequencia_invalida_false; exact Hinv].
    injection Hs as <-. destruct com_mascara.
    + apply strip_mascarar; assumption.
    + apply strip_digits; assumption.
Qed.

Lemma montar_cnpj_never_all_same_witness :
  exists cnpj14,
    montar_cnpj14 11222333 1 = Ok cnpj14 /\
    length cnpj14 = 14%nat /\
    Forall (fun c => is_digit c = true) cnpj14 /\
    (all_same cnpj14 -> montar_cnpj 11222333 1 true = Ok None) /\
    (forall s, montar_cnpj 11222333 1 true = Ok (Some s) ->
       strip_non_digits s = cnpj14 /\ ~ all_same cnpj14).
Proof. apply (montar_cnpj_never_all_same 11222333 1 true); lia. Defined.

(** ** Parsing *)

Lemma parse_cnpj_like_strip (s s' : str) :
  strip_non_digits s = strip_non_digits s' -> parse_cnpj_like s = parse_cnpj_like s'.
Proof. intros H. unfold parse_cnpj_like. rewrite H. reflexivity. Qed.

Lemma parse_cnpj14_digits r f :
  0 <= r <= 99999999 -> 0 <= f <= 9999 ->
  parse_cnpj_like (digit_chr <$> cnpj14_digits r f) = Ok (r, f).
Proof.
  intros Hr Hf. unfold cnpj14_digits. rewrite <-app_assoc.
  assert (H8 : length (digits_w 8 r) = 8%nat)
    by (apply digits_w_length; [lia | rewrite pow10_8; lia]).
  assert (H4 : length (digits_w 4 f) = 4%nat)
    by (apply digits_w_length; [lia | rewrite pow10_4; lia]).
  rewrite parse_digits.
  - rewrite !horner_digits_w by lia. reflexivity.
  - exact H8.
  - exact H4.
  - apply digits_w_decimal; lia.
  - apply digits_w_decimal; lia.
  - apply strip_digits. rewrite app_assoc.
    apply (cnpj14_digits_decimal r f); lia.
Qed.

(** C10: for every root in 0..99999999 and branch in 0..9999 whose
    assembled identifier is not rejected, the masked rendering is [mascarar]
    of the 14-digit string, and [parse_cnpj_like] recovers the pair (root,
    branch) from the masked string as well as from the unmasked one. *)
Theorem parse_montar_roundtrip (raiz8 filial4 : Z) (cnpj14 : str) :
  0 <= raiz8 <= 99999999 -> 0 <= filial4 <= 9999 ->
  montar_cnpj raiz8 filial4 false = Ok (Some cnpj14) ->
  montar_cnpj raiz8 filial4 true = Ok (Some (mascarar cnpj14)) /\
  parse_cnpj_like (mascarar cnpj14) = Ok (raiz8, filial4) /\
  parse_cnpj_like cnpj14 = Ok (raiz8, filial4).
Proof.
  intros Hr Hf. rewrite !montar_cnpj_cases by lia. cbv zeta.
  destruct (is_sequencia_invalida (digit_chr <$> cnpj14_digits raiz8 filial4));
    [discriminate|].
  intros [= <-]. split; [reflexivity|].
  pose proof (parse_cnpj14_digits raiz8 filial4 Hr Hf) as Hparse.
  split; [|exact Hparse].
  rewrite <-Hparse. apply parse_cnpj_like_strip.
  rewrite strip_mascarar, strip_digits.
  - reflexivity.
  - apply cnpj14_digits_decimal; lia.
  - apply cnpj14_digits_length; assumption.
  - apply cnpj14_digits_decimal; lia.
Qed.

Lemma parse_montar_roundtrip_witness :
  parse_cnpj_like (lit "11.222.333/0001-81") = Ok (11222333, 1) /\
  parse_cnpj_like (lit "11222333000181") = Ok (11222333, 1).
Proof.
  assert (H : montar_cnpj 11222333 1 false =
              Ok (Some (lit "11222333000181")))
    by (vm_compute; reflexivity).
  destruct (parse_montar_roundtrip 11222333 1 _ ltac:(lia) ltac:(lia) H)
    as (_ & Hm & Hu).
  split; [exact Hm | exact Hu].
Defined.

(** Horner evaluation reads a digit sequence position by position. *)
Lemma foldl_horner_acc acc ds :
  foldl (fun a d => 10 * a + d) acc ds = acc * 10 ^ Z.of_nat (length ds) + horner ds.
Proof.
  unfold horner. revert acc. induction ds as [|d ds IH]; intros acc.
  - cbn. lia.
  - cbn [foldl length]. rewrite (IH (10 * acc + d)), (IH (10 * 0 + d)).
    rewrite Nat2Z.inj_succ, Z.pow_succ_r by lia. lia.
Qed.

Lemma horner_cons d ds : horner (d :: ds) = d * 10 ^ Z.of_nat (length ds) + horner ds.
Proof.
  unfold horner at 1. cbn [foldl]. rewrite foldl_horner_acc. lia.
Qed.

Lemma decimal_value_spec_cons d ds :
  decimal_value_spec (d :: ds) = d * 10 ^ Z.of_nat (length ds) + decimal_value_spec ds.
Proof.
  unfold decimal_value_spec. cbn [length seq].
  rewrite fmap_cons, <-fmap_S_seq, <-list_fmap_compose.
  unfold sumZ. cbn [foldr]. f_equal.
  - change ((d :: ds) !!! 0%nat) with d.
    replace (S (length ds) - 1 - 0)%nat with (length ds) by lia. reflexivity.
  - f_equal. apply list_fmap_ext. intros i x _. unfold compose.
    change ((d :: ds) !!! S x) with (ds !!! x).
    replace (S (length ds) - 1 - S x)%nat with (length ds - 1 - x)%nat by lia.
    reflexivity.
Qed.

Lemma horner_decimal_value ds : horner ds = decimal_value_spec ds.
Proof.
  induction ds as [|d ds IH]; [reflexivity|].
  rewrite horner_cons, decimal_value_spec_cons, IH. reflexivity.
Qed.

Section Parsing.
Context {C : Type} `{Decimal C}.

Lemma strip_non_digits_elem (s : list C) c :
  c ∈ strip_non_digits s <-> c ∈ s /\ is_decimal_char c = true.
Proof.
  unfold strip_non_digits. rewrite !list_elem_of_In. apply List.filter_In.
Qed.

Lemma strip_non_digits_sublist (s : list C) : sublist (strip_non_digits s) s.
Proof.
  unfold strip_non_digits. induction s as [|c s IH]; [constructor|].
  cbn [List.filter]. destruct (is_decimal_char c); by constructor.
Qed.

(** Every subsequence of [s] made of digits only is a subsequence of what
    the stripping keeps. *)
Lemma strip_non_digits_greatest (s l : list C) :
  sublist l s -> Forall (fun c => is_decimal_char c = true) l ->
  sublist l (strip_non_digits s).
Proof.
  unfold strip_non_digits. induction 1 as [|c l s Hsub IH|c l s Hsub IH]; intros Hall.
  - constructor.
  - apply Forall_cons in Hall as [Hc Hall]. cbn [List.filter]. rewrite Hc.
    constructor. apply IH. exact Hall.
  - cbn [List.filter]. destruct (is_decimal_char c); [constructor|]; apply IH; exact Hall.
Qed.

Lemma forallb_is_digit_strip (s : list C) :
  forallb is_decimal_char (strip_non_digits s) = true.
Proof.
  unfold strip_non_digits. induction s as [|c s IH]; [reflexivity|].
  cbn [List.filter]. destruct (is_decimal_char c) eqn:Hc; [|exact IH].
  cbn [forallb]. rewrite Hc, IH. reflexivity.
Qed.

End Parsing.

Lemma forallb_take {A} (p : A -> bool) n (l : list A) :
  forallb p l = true -> forallb p (take n l) = true.
Proof.
  revert n. induction l as [|x l IH]; intros [|n] H; try reflexivity.
  cbn [take forallb] in *. apply andb_prop in H as [-> H].
  rewrite (IH n H). reflexivity.
Qed.

Lemma forallb_drop {A} (p : A -> bool) n (l : list A) :
  forallb p l = true -> forallb p (drop n l) = true.
Proof.
  revert n. induction l as [|x l IH]; intros [|n] H; try reflexivity; [exact H|].
  cbn [drop forallb] in *. apply andb_prop in H as [_ H]. exact (IH n H).
Qed.

(** The decimal digits of the 8-bit characters are ['0'..'9'], with their
    values. *)
Lemma ascii_decimal_digits :
  (forall c : ascii, is_decimal_char c = bool_decide (c ∈ lit "0123456789")) /\
  decimal_char_val <$> lit "0123456789" = [0; 1; 2; 3; 4; 5; 6; 7; 8; 9].
Proof.
  split; [|vm_compute; reflexivity].
  intros [[] [] [] [] [] [] [] []]; vm_compute; reflexivity.
Qed.

Section ParsingSpec.
Context {C : Type} `{Decimal C}.

Lemma int_of_str_all_digits (s : list C) :
  s <> [] -> forallb is_decimal_char s = true ->
  int_of_str s = Ok (decimal_value_spec (decimal_char_val <$> s)).
Proof.
  intros Hne Hall. unfold int_of_str. rewrite Hall, horner_decimal_value.
  destruct s; [congruence | reflexivity].
Qed.

Lemma parse_cnpj_like_ok (s : list C) :
  (12 <= length (strip_non_digits s))%nat ->
  parse_cnpj_like s =
    Ok (decimal_value_spec (decimal_char_val <$> take 8 (strip_non_digits s)),
        decimal_value_spec (decimal_char_val <$> take 4 (drop 8 (strip_non_digits s)))).
Proof.
  intros Hlen. unfold parse_cnpj_like. cbv zeta.
  rewrite decide_False by lia. unfold slice.
  rewrite Nat.sub_0_r, drop_0. change (12 - 8)%nat with 4%nat.
  pose proof (forallb_is_digit_strip s) as Hall.
  rewrite !int_of_str_all_digits.
  - reflexivity.
  - intros Hnil. apply (f_equal length) in Hnil.
    rewrite length_take in Hnil. cbn [length] in Hnil. lia.
  - apply forallb_take, Hall.
  - intros Hnil. apply (f_equal length) in Hnil.
    rewrite length_take, length_drop in Hnil. cbn [length] in Hnil. lia.
  - apply forallb_take, forallb_drop, Hall.
Qed.

(** C8: for every input string, over every character type and whatever
    characters count as decimal digits there (for Python's strings: the
    code points of Unicode category [Nd], what [\D] leaves and [int]
    reads), [parse_cnpj_like] keeps exactly the digit characters, in
    their order; with fewer than 12 of them it raises the
    insufficient-digits error ([ValueError]); otherwise it returns the
    decimal value of the first 8 digits as root and of the next 4 as
    branch, each digit with the value the character has; it raises if
    and only if fewer than 12 digits remain.  Among the 8-bit characters
    the digits are ['0'..'9'], with the values 0..9. *)
Theorem parse_cnpj_like_spec (s : list C) :
  let nums := strip_non_digits s in
  (sublist nums s /\
   (forall c, c ∈ nums <-> c ∈ s /\ is_decimal_char c = true) /\
   (forall l, sublist l s -> Forall (fun c => is_decimal_char c = true) l ->
              sublist l nums)) /\
  parse_cnpj_like s =
    (if decide (length nums < 12)%nat then Raise ValueError
     else Ok (decimal_value_spec (decimal_char_val <$> take 8 nums),
              decimal_value_spec (decimal_char_val <$> take 4 (drop 8 nums)))) /\
  ((exists e, parse_cnpj_like s = Raise e) <-> (length nums < 12)%nat) /\
  parse_cnpj_like s <> OutOfFuel /\
  Forall (fun d => 0 <= d <= 9) (decimal_char_val <$> nums) /\
  ((forall c : ascii, is_decimal_char c = bool_decide (c ∈ lit "0123456789")) /\
   decimal_char_val <$> lit "0123456789" = [0; 1; 2; 3; 4; 5; 6; 7; 8; 9]).
Proof.
  intros nums. subst nums.
  assert (Hparse : parse_cnpj_like s =
    (if decide (length (strip_non_digits s) < 12)%nat then Raise ValueError
     else Ok (decimal_value_spec (decimal_char_val <$> take 8 (strip_non_digits s)),
              decimal_value_spec
                (decimal_char_val <$> take 4 (drop 8 (strip_non_digits s)))))).
  { case_decide as Hlen.
    - unfold parse_cnpj_like. cbv zeta. rewrite decide_True by exact Hlen. reflexivity.
    - apply parse_cnpj_like_ok. lia. }
  split; [|split; [exact Hparse|]].
  - split; [apply strip_non_digits_sublist|].
    split; [apply strip_non_digits_elem | apply strip_non_digits_greatest].
  - split; [|split; [|split; [|exact ascii_decimal_digits]]].
    + rewrite Hparse. case_decide as Hlen; split.
      * intros _; exact Hlen.
      * intros _; eexists; reflexivity.
      * intros [e He]; discriminate He.
      * intros Hlt; contradiction.
    + rewrite Hparse. case_decide; discriminate.
    + apply Forall_fmap, Forall_forall. intros c Hc.
      apply strip_non_digits_elem in Hc as [_ Hc].
      apply decimal_char_range. exact Hc.
Qed.

End ParsingSpec.

(** ** The chunked writer *)

Lemma close_close w : close (close w) = close w.
Proof.
  unfold close. destruct (_fh w) eqn:H; cbn; [reflexivity | rewrite H; reflexivity].
Qed.

Lemma close_closed w : _fh w = None -> close w = w.
Proof. intros H. unfold close. rewrite H. reflexivity. Qed.

Lemma close_fh w : _fh (close w) = None.
Proof. unfold close. destruct (_fh w) eqn:H; [reflexivity | exact H]. Qed.

Lemma close_count_total w : _count_total (close w) = _count_total w.
Proof. unfold close. destruct (_fh w); reflexivity. Qed.

Lemma write_lines_app l1 l2 w σ :
  write_lines (l1 ++ l2) w σ =
    match write_lines l1 w σ with
    | (Ok _, (w', σ')) => write_lines l2 w' σ'
    | other => other
    end.
Proof.
  revert w σ. induction l1 as [|l l1 IH]; intros w σ; [reflexivity|].
  cbn [app write_lines].
  destruct (write_line l w σ) as [[[]| |] [w' σ']]; [apply IH | reflexivity..].
Qed.

Lemma file_of_lines_cons l ls : file_of_lines (l :: ls) = (l ++ [newline]) ++ file_of_lines ls.
Proof. reflexivity. Qed.

Ltac writer_fields :=
  cbn [_fh chunk_size _chunk_idx base_prefix progress_every _count_total _count_chunk].

(** With chunking enabled, the first line opens the next chunk. *)
Lemma write_line_first p cs pe line σ idx tot cnt :
  0 < cs ->
  exists σ',
    write_line line (Build_ChunkWriter p cs pe tot cnt idx None) σ =
      (Ok (), (Build_ChunkWriter p cs pe (tot + 1) 1 (idx + 1)
                 (Some (chunk_path p (idx + 1))), σ')) /\
    dirs σ' = dirs σ /\
    files σ' = <[chunk_path p (idx + 1) := line ++ [newline]]> (files σ).
Proof.
  intros Hcs. unfold write_line. writer_fields.
  unfold _open_next. writer_fields.
  rewrite !(decide_True (P := cs > 0)) by lia. writer_fields.
  rewrite (decide_False (P := cs > 0 /\ 0 >= cs)) by lia. writer_fields.
  eexists. split; [reflexivity|].
  case_decide; cbn; (split; [reflexivity|]);
    rewrite !alter_insert_eq; reflexivity.
Qed.

(** A line that finds the open chunk full opens the next chunk. *)
Lemma write_line_full p cs pe line σ idx tot fh :
  0 < cs ->
  exists σ',
    write_line line (Build_ChunkWriter p cs pe tot cs idx (Some fh)) σ =
      (Ok (), (Build_ChunkWriter p cs pe (tot + 1) 1 (idx + 1)
                 (Some (chunk_path p (idx + 1))), σ')) /\
    dirs σ' = dirs σ /\
    files σ' = <[chunk_path p (idx + 1) := line ++ [newline]]> (files σ).
Proof.
  intros Hcs. unfold write_line. writer_fields.
  rewrite (decide_True (P := cs > 0 /\ cs >= cs)) by lia.
  unfold _open_next. writer_fields.
  rewrite !(decide_True (P := cs > 0)) by lia. writer_fields.
  eexists. split; [reflexivity|].
  case_decide; cbn; (split; [reflexivity|]);
    rewrite !alter_insert_eq; reflexivity.
Qed.

(** A line that finds room in the open file, or chunking disabled, is
    appended to the open file. *)
Lemma write_line_open p cs pe line σ idx tot cnt fh :
  cs <= 0 \/ cnt < cs ->
  exists σ',
    write_line line (Build_ChunkWriter p cs pe tot cnt idx (Some fh)) σ =
      (Ok (), (Build_ChunkWriter p cs pe (tot + 1) (cnt + 1) idx (Some fh), σ')) /\
    dirs σ' = dirs σ /\
    files σ' = alter (fun old => old ++ line ++ [newline]) fh (files σ).
Proof.
  intros Hcs. unfold write_line. writer_fields.
  rewrite (decide_False (P := cs > 0 /\ cnt >= cs)) by lia. writer_fields.
  eexists. split; [reflexivity|].
  case_decide; cbn; (split; [reflexivity|]);
    rewrite alter_alter_eq; apply alter_ext; intros; cbn;
    rewrite <-app_assoc; reflexivity.
Qed.

(** Chunking disabled: the first line opens the file [with_suffix] names,
    or fails with it. *)
Lemma write_line_single_first p pe line σ idx tot cnt :
  write_line line (Build_ChunkWriter p 0 pe tot cnt idx None) σ =
    match with_suffix p txt_suffix with
    | Ok q =>
        (Ok (),
         (Build_ChunkWriter p 0 pe (tot + 1) 1 (idx + 1) (Some q),
          let σ1 := fh_write q [newline] (fh_write q line (open_w q σ)) in
          if decide (pe <> 0 /\ (tot + 1) `mod` pe = 0)
          then print (ProgressNotice (tot + 1)) σ1 else σ1))
    | Raise e => (Raise e, (Build_ChunkWriter p 0 pe tot cnt (idx + 1) None, σ))
    | OutOfFuel => (OutOfFuel, (Build_ChunkWriter p 0 pe tot cnt (idx + 1) None, σ))
    end.
Proof.
  unfold write_line. writer_fields.
  unfold _open_next. writer_fields.
  rewrite !(decide_False (P := 0 > 0)) by lia.
  destruct (with_suffix p txt_suffix) as [q|e|]; [|reflexivity..].
  writer_fields.
  rewrite (decide_False (P := 0 > 0 /\ 0 >= 0)) by lia. writer_fields.
  reflexivity.
Qed.

(** Lines that fit the open file are appended to it. *)
Lemma write_lines_open p cs pe fh idx rest :
  forall tot cnt σ content m,
    cs <= 0 \/ cnt + Z.of_nat (length rest) <= cs ->
    files σ = <[fh := content]> m ->
    exists σ',
      write_lines rest (Build_ChunkWriter p cs pe tot cnt idx (Some fh)) σ =
        (Ok (), (Build_ChunkWriter p cs pe (tot + Z.of_nat (length rest))
                   (cnt + Z.of_nat (length rest)) idx (Some fh), σ')) /\
      dirs σ' = dirs σ /\
      files σ' = <[fh := content ++ file_of_lines rest]> m.
Proof.
  induction rest as [|l rest IH]; intros tot cnt σ content m Hfit Hfiles.
  - exists σ. cbn [write_lines length]. rewrite !Z.add_0_r.
    split; [reflexivity|]. split; [reflexivity|].
    unfold file_of_lines. cbn. rewrite app_nil_r. exact Hfiles.
  - cbn [write_lines]. cbn [length] in Hfit.
    destruct (write_line_open p cs pe l σ idx tot cnt fh ltac:(lia))
      as (σ1 & -> & Hd1 & Hf1).
    rewrite Hfiles, alter_insert_eq in Hf1.
    destruct (IH (tot + 1) (cnt + 1) σ1 _ m ltac:(lia) Hf1) as (σ' & -> & Hd' & Hf').
    exists σ'. cbn [length]. split; [do 3 f_equal; lia|].
    split; [congruence|].
    rewrite Hf', file_of_lines_cons, <-!app_assoc. reflexivity.
Qed.

(** A group of lines that finds the writer closed, or its chunk full, goes
    to the next chunk file. *)
Lemma write_lines_group p cs pe l g σ tot cnt idx fh :
  0 < cs -> Z.of_nat (length (l :: g)) <= cs ->
  fh = None \/ cnt = cs ->
  exists σ',
    write_lines (l :: g) (Build_ChunkWriter p cs pe tot cnt idx fh) σ =
      (Ok (), (Build_ChunkWriter p cs pe (tot + Z.of_nat (length (l :: g)))
                 (Z.of_nat (length (l :: g))) (idx + 1)
                 (Some (chunk_path p (idx + 1))), σ')) /\
    dirs σ' = dirs σ /\
    files σ' = <[chunk_path p (idx + 1) := file_of_lines (l :: g)]> (files σ).
Proof.
  intros Hcs Hlen Hroll. cbn [length] in Hlen.
  assert (Hfirst : exists σ1,
    write_line l (Build_ChunkWriter p cs pe tot cnt idx fh) σ =
      (Ok (), (Build_ChunkWriter p cs pe (tot + 1) 1 (idx + 1)
                 (Some (chunk_path p (idx + 1))), σ1)) /\
    dirs σ1 = dirs σ /\
    files σ1 = <[chunk_path p (idx + 1) := l ++ [newline]]> (files σ)).
  { destruct fh as [fh|].
    - destruct Hroll as [Hroll | ->]; [discriminate Hroll|].
      apply write_line_full. exact Hcs.
    - apply write_line_first. exact Hcs. }
  destruct Hfirst as (σ1 & Hw1 & Hd1 & Hf1).
  cbn [write_lines]. rewrite Hw1.
  destruct (write_lines_open p cs pe (chunk_path p (idx + 1)) (idx + 1) g
              (tot + 1) 1 σ1 _ (files σ) ltac:(lia) Hf1) as (σ' & -> & Hd' & Hf').
  exists σ'. cbn [length]. split; [do 3 f_equal; lia|].
  split; [congruence|].
  rewrite Hf', file_of_lines_cons. reflexivity.
Qed.

Lemma groups_nil {A} fuel cs : @groups A fuel cs [] = [].
Proof. destruct fuel; reflexivity. Qed.

(** With chunking enabled the lines go, [cs] at a time, to consecutive
    chunk files. *)
Lemma write_lines_chunks p cs pe (fuel : nat) :
  0 < cs ->
  forall lines tot cnt idx fh σ,
    (length lines <= fuel)%nat ->
    fh = None \/ cnt = cs ->
    exists w' σ',
      write_lines lines (Build_ChunkWriter p cs pe tot cnt idx fh) σ =
        (Ok (), (w', σ')) /\
      _count_total w' = tot + Z.of_nat (length lines) /\
      dirs σ' = dirs σ /\
      files σ' = chunk_files p (idx + 1) (groups fuel (Z.to_nat cs) lines) (files σ).
Proof.
  intros Hcs. induction fuel as [|fuel IH]; intros lines tot cnt idx fh σ Hfuel Hroll.
  - destruct lines; [|cbn in Hfuel; lia].
    eexists _, σ. cbn. rewrite Z.add_0_r. repeat split; reflexivity.
  - destruct lines as [|l lines].
    { eexists _, σ. cbn. rewrite Z.add_0_r. repeat split; reflexivity. }
    cbn [groups chunk_files].
    pose proof (write_lines_app (take (Z.to_nat cs) (l :: lines))
                  (drop (Z.to_nat cs) (l :: lines))
                  (Build_ChunkWriter p cs pe tot cnt idx fh) σ) as Happ.
    rewrite take_drop in Happ. rewrite Happ. clear Happ.
    assert (Hlen : length (l :: lines) =
                   (length (take (Z.to_nat cs) (l :: lines)) +
                    length (drop (Z.to_nat cs) (l :: lines)))%nat)
      by (rewrite <-length_app, take_drop; reflexivity).
    rewrite Hlen. clear Hlen.
    destruct (Z.to_nat cs) as [|c] eqn:Hc; [lia|].
    cbn [take]. set (g := take c lines).
    assert (Hg : (length g <= c)%nat) by (subst g; rewrite length_take; lia).
    destruct (write_lines_group p cs pe l g σ tot cnt idx fh Hcs
                ltac:(cbn [length]; lia) Hroll) as (σ1 & -> & Hd1 & Hf1).
    cbn [drop].
    destruct (decide (drop c lines = [])) as [Hnil|Hmore].
    + rewrite Hnil, groups_nil. cbn [write_lines chunk_files].
      eexists _, σ1. split; [reflexivity|]. writer_fields.
      cbn [length].
      split; [lia|]. split; [exact Hd1 | exact Hf1].
    + assert (Hfull : length g = c).
      { subst g. rewrite length_take.
        destruct (decide (length lines <= c)%nat) as [Hle|Hgt]; [|lia].
        exfalso. apply Hmore, drop_ge. exact Hle. }
      destruct (IH (drop c lines) (tot + Z.of_nat (length (l :: g)))
                  (Z.of_nat (length (l :: g))) (idx + 1)
                  (Some (chunk_path p (idx + 1))) σ1) as (w' & σ' & -> & Ht & Hd' & Hf').
      { rewrite length_drop. cbn [length] in Hfuel. lia. }
      { right. cbn [length]. lia. }
      exists w', σ'. split; [reflexivity|].
      split; [rewrite Ht; lia|].
      split; [congruence|]. rewrite Hf', Hf1. reflexivity.
Qed.

(** With chunking disabled every line goes to the one file [with_suffix]
    names. *)
Lemma write_lines_single p pe l lines q σ tot cnt idx :
  with_suffix p txt_suffix = Ok q ->
  exists w' σ',
    write_lines (l :: lines) (Build_ChunkWriter p 0 pe tot cnt idx None) σ =
      (Ok (), (w', σ')) /\
    _count_total w' = tot + Z.of_nat (length (l :: lines)) /\
    dirs σ' = dirs σ /\
    files σ' = <[q := file_of_lines (l :: lines)]> (files σ).
Proof.
  intros Hq. cbn [write_lines]. rewrite write_line_single_first, Hq.
  set (σ1 := if decide _ then _ else _).
  assert (Hf1 : files σ1 = <[q := l ++ [newline]]> (files σ)).
  { subst σ1. case_decide; cbn; rewrite !alter_insert_eq; reflexivity. }
  assert (Hd1 : dirs σ1 = dirs σ) by (subst σ1; case_decide; reflexivity).
  destruct (write_lines_open p 0 pe q (idx + 1) lines (tot + 1) 1 σ1 _ (files σ)
              ltac:(lia) Hf1) as (σ' & -> & Hd' & Hf').
  eexists _, σ'. split; [reflexivity|]. writer_fields. cbn [length].
  split; [lia|]. split; [congruence|].
  rewrite Hf', file_of_lines_cons. reflexivity.
Qed.

(** An empty final component leaves chunk-less writing without a file
    name: the first line fails. *)
Lemma write_lines_single_empty_name p pe l lines σ tot cnt idx :
  name p = [] ->
  write_lines (l :: lines) (Build_ChunkWriter p 0 pe tot cnt idx None) σ =
    (Raise ValueError, (Build_ChunkWriter p 0 pe tot cnt (idx + 1) None, σ)).
Proof.
  intros Hname. cbn [write_lines]. rewrite write_line_single_first.
  unfold with_suffix. rewrite Hname. reflexivity.
Qed.

(** *** File names *)

Lemma digit_chr_fmap_inj ds ds' :
  Forall is_decimal ds -> Forall is_decimal ds' ->
  digit_chr <$> ds = digit_chr <$> ds' -> ds = ds'.
Proof.
  intros Hd Hd' Heq.
  rewrite <-(digit_val_fmap ds), <-(digit_val_fmap ds') by assumption.
  rewrite Heq. reflexivity.
Qed.

Lemma format_0d_inj (w : nat) k k' :
  0 <= k -> 0 <= k' -> format_0d w k = format_0d w k' -> k = k'.
Proof.
  intros Hk Hk'. rewrite !format_0d_digits by assumption. intros Heq.
  apply digit_chr_fmap_inj in Heq; [|apply digits_w_decimal; assumption..].
  rewrite <-(horner_digits_w w k), <-(horner_digits_w w k') by assumption.
  rewrite Heq. reflexivity.
Qed.

(** Different chunk numbers name different files. *)
Lemma chunk_path_inj p k k' :
  0 <= k -> 0 <= k' -> chunk_path p k = chunk_path p k' -> k = k'.
Proof.
  intros Hk Hk' Heq. apply (f_equal name) in Heq. unfold chunk_path in Heq.
  cbn [name] in Heq.
  apply app_inv_head, app_inv_head, app_inv_tail in Heq.
  exact (format_0d_inj 5 k k' Hk Hk' Heq).
Qed.

Lemma chunk_path_name p k :
  0 <= k ->
  name (chunk_path p k) = name p ++ lit "_" ++ (digit_chr <$> digits_w 5 k) ++ lit ".txt".
Proof. intros Hk. unfold chunk_path. cbn [name]. rewrite format_0d_digits by exact Hk. reflexivity. Qed.

Lemma rfind_dot_None (nm : str) : "."%char ∉ nm -> rfind_dot nm = None.
Proof.
  induction nm as [|c nm IH]; intros Hnot; [reflexivity|].
  cbn [rfind_dot]. rewrite IH.
  - rewrite decide_False; [reflexivity|]. intros ->. apply Hnot, elem_of_cons. left. reflexivity.
  - intros Hin. apply Hnot, elem_of_cons. right. exact Hin.
Qed.

Lemma with_suffix_nonempty p suffix :
  name p <> [] ->
  with_suffix p suffix =
    Ok {| parent := parent p;
          name := take (length (name p) - length (path_suffix (name p))) (name p) ++ suffix |}.
Proof. intros Hne. unfold with_suffix. destruct (name p); [congruence | reflexivity]. Qed.

(** A name without a dot has no extension: the suffix is appended. *)
Lemma with_suffix_no_dot p suffix :
  "."%char ∉ name p -> name p <> [] ->
  with_suffix p suffix = Ok {| parent := parent p; name := name p ++ suffix |}.
Proof.
  intros Hdot Hne. rewrite with_suffix_nonempty by exact Hne.
  unfold path_suffix. rewrite rfind_dot_None by exact Hdot.
  cbn [length]. rewrite Nat.sub_0_r, firstn_all. reflexivity.
Qed.

Lemma run_writer_chunked p cs pe lines σ :
  0 < cs ->
  exists w' σ',
    run_writer p cs pe lines σ = (Ok (), (w', σ')) /\
    _count_total w' = Z.of_nat (length lines) /\
    _fh w' = None /\
    files σ' = chunk_files p 1 (groups (length lines) (Z.to_nat cs) lines) (files σ).
Proof.
  intros Hcs. unfold run_writer, ChunkWriter_init.
  rewrite (Z.max_r 0 cs) by lia.
  destruct (write_lines_chunks p cs (Z.max 0 pe) (length lines) Hcs lines 0 0 0 None
              (mkdir (parent p) σ) ltac:(lia) ltac:(left; reflexivity))
    as (w' & σ' & -> & Ht & _ & Hf).
  exists (close w'), σ'. split; [reflexivity|].
  rewrite close_count_total, close_fh. split; [lia|]. split; [reflexivity | exact Hf].
Qed.

Lemma run_writer_single p cs pe lines q σ :
  cs <= 0 -> lines <> [] -> with_suffix p txt_suffix = Ok q ->
  exists w' σ',
    run_writer p cs pe lines σ = (Ok (), (w', σ')) /\
    _count_total w' = Z.of_nat (length lines) /\
    _fh w' = None /\
    files σ' = <[q := file_of_lines lines]> (files σ).
Proof.
  intros Hcs Hne Hq. unfold run_writer, ChunkWriter_init.
  rewrite (Z.max_l 0 cs) by lia.
  destruct lines as [|l lines]; [congruence|].
  destruct (write_lines_single p (Z.max 0 pe) l lines q (mkdir (parent p) σ) 0 0 0 Hq)
    as (w' & σ' & -> & Ht & _ & Hf).
  exists (close w'), σ'. split; [reflexivity|].
  rewrite close_count_total, close_fh. split; [lia|]. split; [reflexivity | exact Hf].
Qed.

Lemma path_suffix_length (nm : str) :
  (length (path_suffix nm) <= length nm)%nat.
Proof.
  unfold path_suffix. destruct (rfind_dot nm) as [i|]; [|cbn; lia].
  case_decide; [rewrite length_drop; lia | cbn; lia].
Qed.

(** A name with an extension: what [with_suffix] returns is not the name
    with [.txt] appended. *)
Lemma with_suffix_replaces p q :
  path_suffix (name p) <> [] ->
  with_suffix p txt_suffix = Ok q ->
  q <> {| parent := parent p; name := name p ++ lit ".txt" |}.
Proof.
  intros Hsuf Hq Heq. subst q.
  assert (Hne : name p <> []).
  { intros Hnil. apply Hsuf. rewrite Hnil. reflexivity. }
  rewrite (with_suffix_nonempty p txt_suffix Hne) in Hq.
  injection Hq as Hq. apply (f_equal length) in Hq.
  rewrite !length_app, length_take in Hq.
  cbn [length txt_suffix] in Hq.
  pose proof (path_suffix_length (name p)) as Hle.
  assert (0 < length (path_suffix (name p)))%nat
    by (destruct (path_suffix (name p)); [congruence | cbn; lia]).
  lia.
Qed.

(** Chunking disabled and a prefix without a final component: the first
    line fails. *)
Lemma run_writer_single_empty_name p cs pe lines σ :
  cs <= 0 -> lines <> [] -> name p = [] ->
  exists w' σ',
    run_writer p cs pe lines σ = (Raise ValueError, (w', σ')) /\
    files σ' = files σ /\ _count_total w' = 0.
Proof.
  intros Hcs Hne Hname. unfold run_writer, ChunkWriter_init.
  rewrite (Z.max_l 0 cs) by lia.
  destruct lines as [|l lines]; [congruence|].
  rewrite (write_lines_single_empty_name p (Z.max 0 pe) l lines _ 0 0 0 Hname).
  eexists _, _. split; [reflexivity|]. split; reflexivity.
Qed.

(** C6: a writer with chunk size 3 that receives 7 lines produces three
    distinct files holding the first three, the next three and the last
    line, each line followed by one line terminator; closing a closed
    writer changes nothing; with chunking enabled the lines go, chunk
    size at a time, to the files [<name>_<index>.txt] of the prefix's
    directory, the index counted from 1 and written with at least five
    digits (exactly five up to 99999).  With chunking disabled the single
    file is the one [with_suffix] names.  For a name without a dot that
    is [<prefix>.txt].  For a name with an extension it is not: the
    extension is replaced, the lines go elsewhere and the path
    [<prefix>.txt] is left as it was (prefix [out/cnpjs.v2]: the file is
    [out/cnpjs.txt]).  For a prefix without a final component the first
    line raises [ValueError] and nothing is written. *)
Theorem chunk_writer_spec (p : Path) (pe : Z) (σ : World) (l1 l2 l3 l4 l5 l6 l7 : str) :
  (exists w' σ',
     run_writer p 3 pe [l1; l2; l3; l4; l5; l6; l7] σ = (Ok (), (w', σ')) /\
     files σ' =
       <[chunk_path p 3 := file_of_lines [l7]]>
         (<[chunk_path p 2 := file_of_lines [l4; l5; l6]]>
            (<[chunk_path p 1 := file_of_lines [l1; l2; l3]]> (files σ))) /\
     NoDup [chunk_path p 1; chunk_path p 2; chunk_path p 3] /\
     _count_total w' = 7 /\
     close w' = w') /\
  (forall w, close (close w) = close w) /\
  (forall cs lines, 0 < cs ->
     exists w' σ',
       run_writer p cs pe lines σ = (Ok (), (w', σ')) /\
       files σ' =
         chunk_files p 1 (groups (length lines) (Z.to_nat cs) lines) (files σ)) /\
  (forall k, 0 <= k ->
     parent (chunk_path p k) = parent p /\
     name (chunk_path p k) =
       name p ++ lit "_" ++ (digit_chr <$> digits_w 5 k) ++ lit ".txt" /\
     length (digits_w 5 k) = (5 `max` length (decimal_digits k))%nat /\
     (k <= 99999 -> length (digits_w 5 k) = 5%nat) /\
     horner (digits_w 5 k) = k) /\
  (forall cs lines q, cs <= 0 -> lines <> [] -> with_suffix p txt_suffix = Ok q ->
     exists w' σ',
       run_writer p cs pe lines σ = (Ok (), (w', σ')) /\
       files σ' = <[q := file_of_lines lines]> (files σ)) /\
  (name p <> [] ->
     with_suffix p txt_suffix =
       Ok {| parent := parent p;
             name := take (length (name p) - length (path_suffix (name p))) (name p)
                     ++ lit ".txt" |}) /\
  ("."%char ∉ name p -> name p <> [] ->
     with_suffix p txt_suffix =
       Ok {| parent := parent p; name := name p ++ lit ".txt" |}) /\
  (path_suffix (name p) <> [] ->
     forall cs lines w' σ', cs <= 0 ->
       run_writer p cs pe lines σ = (Ok (), (w', σ')) ->
       with_suffix p txt_suffix <>
         Ok {| parent := parent p; name := name p ++ lit ".txt" |} /\
       files σ' !! {| parent := parent p; name := name p ++ lit ".txt" |} =
         files σ !! {| parent := parent p; name := name p ++ lit ".txt" |}) /\
  (name p = [] ->
     forall cs lines, cs <= 0 -> lines <> [] ->
       exists w' σ',
         run_writer p cs pe lines σ = (Raise ValueError, (w', σ')) /\
         files σ' = files σ /\ _count_total w' = 0) /\
  with_suffix {| parent := lit "out"; name := lit "cnpjs.v2" |} txt_suffix =
    Ok {| parent := lit "out"; name := lit "cnpjs.txt" |}.
Proof.
  split.
  { destruct (run_writer_chunked p 3 pe [l1; l2; l3; l4; l5; l6; l7] σ ltac:(lia))
      as (w' & σ' & Hrun & Ht & Hfh & Hf).
    exists w', σ'. split; [exact Hrun|]. split; [exact Hf|].
    split; [|split; [exact Ht | apply close_closed, Hfh]].
    assert (H12 : chunk_path p 1 <> chunk_path p 2)
      by (intros Heq; apply chunk_path_inj in Heq; lia).
    assert (H13 : chunk_path p 1 <> chunk_path p 3)
      by (intros Heq; apply chunk_path_inj in Heq; lia).
    assert (H23 : chunk_path p 2 <> chunk_path p 3)
      by (intros Heq; apply chunk_path_inj in Heq; lia).
    repeat (apply NoDup_cons; split); try apply NoDup_nil_2;
      rewrite ?elem_of_cons, ?elem_of_nil; tauto. }
  split; [apply close_close|].
  split.
  { intros cs lines Hcs.
    destruct (run_writer_chunked p cs pe lines σ Hcs) as (w' & σ' & Hrun & _ & _ & Hf).
    exists w', σ'. split; assumption. }
  split.
  { intros k Hk. split; [reflexivity|]. split; [apply chunk_path_name; lia|].
    assert (Hlen : length (digits_w 5 k) = (5 `max` length (decimal_digits k))%nat).
    { unfold digits_w. rewrite length_app, length_replicate. lia. }
    split; [exact Hlen|]. split; [|apply horner_digits_w; lia].
    intros Hk5. apply digits_w_length; [lia|].
    change (10 ^ Z.of_nat 5) with 100000. lia. }
  split.
  { intros cs lines q Hcs Hne Hq.
    destruct (run_writer_single p cs pe lines q σ Hcs Hne Hq)
      as (w' & σ' & Hrun & _ & _ & Hf).
    exists w', σ'. split; assumption. }
  split; [apply with_suffix_nonempty|].
  split; [apply with_suffix_no_dot|].
  split.
  { intros Hsuf cs lines w' σ' Hcs Hrun.
    assert (Hne : name p <> []).
    { intros Hnil. apply Hsuf. rewrite Hnil. reflexivity. }
    pose proof (with_suffix_nonempty p txt_suffix Hne) as Hq.
    set (q := {| parent := parent p;
                 name := take (length (name p) - length (path_suffix (name p)))
                           (name p) ++ txt_suffix |}) in Hq.
    pose proof (with_suffix_replaces p q Hsuf Hq) as Hneq.
    split.
    { rewrite Hq. intros [= Heq]. apply Hneq. unfold q. rewrite Heq. reflexivity. }
    destruct lines as [|l lines].
    - revert Hrun. unfold run_writer, ChunkWriter_init. cbn [write_lines].
      intros [= _ <-]. reflexivity.
    - destruct (run_writer_single p cs pe (l :: lines) q σ Hcs ltac:(discriminate) Hq)
        as (w1 & σ1 & Hrun1 & _ & _ & Hf).
      rewrite Hrun in Hrun1. injection Hrun1 as _ <-.
      rewrite Hf. apply lookup_insert_ne. exact Hneq. }
  split; [|vm_compute; reflexivity].
  intros Hname cs lines Hcs Hne.
  apply run_writer_single_empty_name; assumption.
Qed.

(** A prefix whose name carries an extension: without chunking the lines
    go to [cnpjs.txt], and no file [cnpjs.v2.txt] is produced. *)
Lemma single_file_drops_extension :
  exists (p : Path) w' σ',
    name p = lit "cnpjs.v2" /\
    run_writer p 0 0 [lit "11222333000181"]
      {| files := ∅; dirs := ∅; console := [] |} = (Ok (), (w', σ')) /\
    files σ' !! {| parent := parent p; name := name p ++ lit ".txt" |} = None /\
    files σ' !! {| parent := parent p; name := lit "cnpjs.txt" |} =
      Some (lit "11222333000181" ++ [newline]).
Proof.
  set (p := {| parent := lit "out"; name := lit "cnpjs.v2" |}).
  set (q := {| parent := lit "out"; name := lit "cnpjs.txt" |}).
  assert (Hq : with_suffix p txt_suffix = Ok q) by (vm_compute; reflexivity).
  destruct (run_writer_single p 0 0 [lit "11222333000181"] q
              {| files := ∅; dirs := ∅; console := [] |}
              ltac:(lia) ltac:(discriminate) Hq) as (w' & σ' & Hrun & _ & _ & Hf).
  exists p, w', σ'. split; [reflexivity|]. split; [exact Hrun|].
  rewrite Hf. cbn [files]. split.
  - rewrite lookup_insert_ne by (intros Heq; discriminate Heq). apply lookup_empty.
  - change {| parent := parent p; name := lit "cnpjs.txt" |} with q.
    rewrite lookup_insert_eq. vm_compute. reflexivity.
Qed.

(** ** Runs of [main] *)

Section MainProperties.
Context {RS : RandomSource}.

(** C7: a configuration error (root range with min > max or a bound
    outside 0..99999999; shard index outside [0, total); quantity above
    the window size) ends the run with [SystemExit] before anything is
    generated: no number is drawn from the generator, no file is opened or
    written, nothing is printed, and the writer has counted no line. *)
Theorem config_error_stops_run (fuel : nat) (c : CommonArgs) (m : Modo)
    (g : rng) (σ : World) :
  config_error m ->
  exists w' σ',
    main fuel c m g σ =
      (Raise SystemExit,
       (match m with
        | ModoRandom a => seeded (r_seed a) g
        | ModoSeq _ => g
        | ModoAround a => seeded (a_seed a) g
        end, (w', σ'))) /\
    files σ' = files σ /\ console σ' = console σ /\
    _count_total w' = 0 /\ _chunk_idx w' = 0 /\ _fh w' = None.
Proof.
  intros Herr. unfold main, ChunkWriter_init.
  destruct m as [a|a|a]; cbn [config_error main_try] in *.
  - rewrite decide_True by lia.
    eexists _, _. split; [reflexivity|]. repeat split; reflexivity.
  - rewrite decide_False by exact Herr.
    eexists _, _. split; [reflexivity|]. repeat split; reflexivity.
  - destruct Herr as (raiz & filial & -> & Hq).
    rewrite decide_True by exact Hq.
    eexists _, _. split; [reflexivity|]. repeat split; reflexivity.
Qed.

(** C9: with an explicit seed, a run of the random mode and a run of the
    windowed mode do not depend on the state the generator was in: two runs
    with the same parameters end the same way, with the same files and the
    same writer; a run of the sequential mode never depends on the
    generator and leaves it as it was. *)
Theorem seeded_runs_deterministic (fuel : nat) (c : CommonArgs) (m : Modo)
    (g1 g2 : rng) (σ : World) :
  match m with
  | ModoRandom a => is_Some (r_seed a)
  | ModoSeq _ => True
  | ModoAround a => is_Some (a_seed a)
  end ->
  (main fuel c m g1 σ).1 = (main fuel c m g2 σ).1 /\
  (main fuel c m g1 σ).2.2 = (main fuel c m g2 σ).2.2 /\
  match m with
  | ModoSeq _ =>
      (main fuel c m g1 σ).2.1 = g1 /\ (main fuel c m g2 σ).2.1 = g2
  | _ => (main fuel c m g1 σ).2.1 = (main fuel c m g2 σ).2.1
  end.
Proof.
  intros Hseed. unfold main.
  destruct (ChunkWriter_init (output c) (arg_chunk_size c) (arg_progress_every c) σ)
    as [w σ0].
  destruct m as [a|a|a].
  - destruct Hseed as [s Hs].
    assert (Heq : main_try fuel c (ModoRandom a) g1 w σ0 =
                  main_try fuel c (ModoRandom a) g2 w σ0).
    { cbn [main_try]. rewrite Hs. reflexivity. }
    rewrite Heq. repeat split; reflexivity.
  - cbn [main_try].
    destruct (decide (0 <= s_shard_index a < s_shards_total a)); cbn.
    + destruct (seq_loop fuel c a _ _ 0 w σ0) as [r [w' σ']]. cbn.
      repeat split; reflexivity.
    + repeat split; reflexivity.
  - destruct Hseed as [s Hs].
    assert (Heq : main_try fuel c (ModoAround a) g1 w σ0 =
                  main_try fuel c (ModoAround a) g2 w σ0).
    { cbn [main_try]. rewrite Hs. reflexivity. }
    rewrite Heq. repeat split; reflexivity.
Qed.

End MainProperties.

Lemma config_error_stops_run_witness :
  exists w' σ',
    main (RS := lcg_source) 0
      {| output := {| parent := lit "out"; name := lit "cnpjs" |};
         mascara := false; arg_chunk_size := 0; arg_progress_every := 0 |}
      (ModoSeq {| s_quantidade := None; s_inicio_base12 := None;
                  s_fim_base12 := None; s_passo := 1;
                  s_shards_total := 3; s_shard_index := 3;
                  s_nao_pular_seq_invalidas := false |})
      (7 : Z) {| files := ∅; dirs := ∅; console := [] |} =
      (Raise SystemExit, (7, (w', σ'))) /\
    files σ' = ∅.
Proof.
  destruct (config_error_stops_run (RS := lcg_source) 0
      {| output := {| parent := lit "out"; name := lit "cnpjs" |};
         mascara := false; arg_chunk_size := 0; arg_progress_every := 0 |}
      (ModoSeq {| s_quantidade := None; s_inicio_base12 := None;
                  s_fim_base12 := None; s_passo := 1;
                  s_shards_total := 3; s_shard_index := 3;
                  s_nao_pular_seq_invalidas := false |})
      (7 : Z) {| files := ∅; dirs := ∅; console := [] |})
    as (w' & σ' & Hrun & Hf & _).
  - cbn. lia.
  - exists w', σ'. split; [exact Hrun | exact Hf].
Defined.

Lemma seeded_runs_deterministic_witness :
  let c := {| output := {| parent := lit "out"; name := lit "cnpjs" |};
              mascara := true; arg_chunk_size := 0; arg_progress_every := 0 |} in
  let m := ModoAround {| a_quantidade := 21; a_base_cnpj := lit "00000050000100";
                         a_spread := 10; a_seed := Some 42 |} in
  let σ := {| files := ∅; dirs := ∅; console := [] |} in
  (main (RS := lcg_source) 30 c m (1 : Z) σ).1 =
  (main (RS := lcg_source) 30 c m (2 : Z) σ).1.
Proof.
  intros c m σ.
  destruct (seeded_runs_deterministic (RS := lcg_source) 30 c m (1 : Z) (2 : Z) σ)
    as (H & _).
  - cbn. eexists. reflexivity.
  - exact H.
Defined.

(** ** The multiplier of the windowed mode *)

Section RandomProperties.
Context {RS : RandomSource}.

Lemma randrange_ok lo hi g :
  lo < hi ->
  exists v g', randrange lo hi g = (Ok v, g') /\ lo <= v < hi.
Proof.
  intros Hlt. unfold randrange. rewrite decide_True by exact Hlt.
  pose proof (randrange_draw_range lo hi g Hlt) as Hr.
  destruct (randrange_draw lo hi g) as [v g']. exists v, g'. split; [reflexivity | exact Hr].
Qed.

Lemma randrange_empty lo hi g : hi <= lo -> randrange lo hi g = (Raise ValueError, g).
Proof. intros Hle. unfold randrange. rewrite decide_False by lia. reflexivity. Qed.

(** What [coprime_to] returns is coprime to [N] and lies in [2, N - 2]. *)
Lemma coprime_to_post fuel N g a g' :
  coprime_to fuel N g = (Ok a, g') -> 2 <= a <= N - 2 /\ Z.gcd a N = 1.
Proof.
  revert g. induction fuel as [|fuel IH]; intros g; [discriminate|].
  cbn [coprime_to]. destruct (decide (2 < N - 1)) as [Hlt|Hge].
  - destruct (randrange_ok 2 (N - 1) g Hlt) as (v & g1 & -> & Hv).
    case_decide as Hgcd; [|apply IH].
    intros [= <- <-]. split; [lia | exact Hgcd].
  - rewrite randrange_empty by lia. discriminate.
Qed.

(** With an empty range of candidates the first draw raises. *)
Lemma coprime_to_empty_range fuel N g :
  N <= 3 -> coprime_to (S fuel) N g = (Raise ValueError, g).
Proof. intros HN. cbn [coprime_to]. rewrite randrange_empty by lia. reflexivity. Qed.

(** With candidates, none of them coprime to [N], the loop never ends. *)
Lemma coprime_to_no_candidate fuel N g :
  3 < N -> (forall a, 2 <= a <= N - 2 -> Z.gcd a N <> 1) ->
  (coprime_to fuel N g).1 = OutOfFuel.
Proof.
  intros HN Hnone. revert g. induction fuel as [|fuel IH]; intros g; [reflexivity|].
  cbn [coprime_to].
  destruct (randrange_ok 2 (N - 1) g ltac:(lia)) as (v & g1 & -> & Hv).
  rewrite decide_False by (apply Hnone; lia). apply IH.
Qed.


(** The loop returns exactly when one of the draws its fuel allows is
    coprime to [N]. *)
Lemma coprime_to_returns_iff fuel N g :
  3 < N ->
  (exists a g', coprime_to fuel N g = (Ok a, g')) <->
  (exists k, (k < fuel)%nat /\ Z.gcd (draw_at 2 (N - 1) k g) N = 1).
Proof.
  intros HN. revert g. induction fuel as [|fuel IH]; intros g.
  - split; [intros (a & g' & H); discriminate H | intros (k & Hk & _); lia].
  - cbn [coprime_to]. unfold randrange. rewrite decide_True by lia.
    destruct (randrange_draw 2 (N - 1) g) as [v g1] eqn:Hdraw.
    case_decide as Hgcd.
    + split; [|intros _; eexists _, _; reflexivity].
      intros _. exists 0%nat. split; [lia|]. cbn [draw_at]. rewrite Hdraw. exact Hgcd.
    + rewrite IH. split.
      * intros (k & Hk & Hg). exists (S k). split; [lia|].
        cbn [draw_at]. rewrite Hdraw. exact Hg.
      * intros (k & Hk & Hg). destruct k as [|k].
        { cbn [draw_at] in Hg. rewrite Hdraw in Hg. contradiction. }
        exists k. split; [lia|]. cbn [draw_at] in Hg. rewrite Hdraw in Hg. exact Hg.
Qed.

End RandomProperties.

(** From 5 on, 6 excepted, some candidate is coprime to [N]. *)
Lemma coprime_candidate_exists N :
  5 <= N -> N <> 6 -> exists a, 2 <= a <= N - 2 /\ Z.gcd a N = 1.
Proof.
  intros HN H6.
  pose proof (Z.div_mod N 4 ltac:(lia)) as Hdm.
  pose proof (Z.mod_pos_bound N 4 ltac:(lia)) as Hb.
  set (j := N `div` 4) in *.
  assert (Hcase : N `mod` 4 = 0 \/ N `mod` 4 = 2 \/ N `mod` 4 = 1 \/ N `mod` 4 = 3) by lia.
  destruct Hcase as [H0|[H2|Hodd]].
  - (* N = 4j: j + j + 1 is coprime to N *)
    exists (2 * j + 1). split; [lia|].
    apply Z.bezout_1_gcd. exists (1 - 2 * j), j. nia.
  - (* N = 4j + 2: 2j + 3 is coprime to N *)
    exists (2 * j + 3). split; [lia|].
    apply Z.bezout_1_gcd.
    exists (2 * j + 3 - 2 * ((j + 1) * (j + 2))), ((j + 1) * (j + 2)). nia.
  - (* N odd: 2 is coprime to N *)
    exists 2. split; [lia|].
    apply Z.bezout_1_gcd. exists (- (N `div` 2)), 1.
    pose proof (Z.div_mod N 2 ltac:(lia)) as Hdm2.
    pose proof (Z.mod_pos_bound N 2 ltac:(lia)) as Hb2.
    assert (N `mod` 2 = 1).
    { destruct Hodd as [H|H]; rewrite Hdm, H;
        [replace (4 * j + 1) with (1 + (2 * j) * 2) by lia
        |replace (4 * j + 3) with (1 + (2 * j + 1) * 2) by lia];
        rewrite Z.mod_add by lia; reflexivity. }
    lia.
Qed.

Lemma no_candidate_4 a : 2 <= a <= 4 - 2 -> Z.gcd a 4 <> 1.
Proof. intros Ha. assert (a = 2) as -> by lia. discriminate. Qed.

Lemma no_candidate_6 a : 2 <= a <= 6 - 2 -> Z.gcd a 6 <> 1.
Proof.
  intros Ha. assert (a = 2 \/ a = 3 \/ a = 4) as [-> | [-> | ->]] by lia; discriminate.
Qed.

(** C5: the setup step [coprime_to] on a window of size [N].  What it
    returns lies in [2, N - 2] and is coprime to [N]; from 5 on, 6
    excepted, such a value exists, and the loop returns exactly when one of
    the draws its fuel allows is coprime to [N].  But for [N] up to 3 the
    range of candidates is empty and the first draw raises [ValueError],
    and for [N = 4] and [N = 6] no candidate is coprime to [N] and the loop
    never ends, whatever the generator. *)
Theorem coprime_to_behaviour `{RS : RandomSource} (N : Z) (fuel : nat) (g : rng) :
  (forall a g', coprime_to fuel N g = (Ok a, g') ->
     2 <= a <= N - 2 /\ Z.gcd a N = 1 /\ 5 <= N /\ N <> 6) /\
  (5 <= N -> N <> 6 ->
     (exists a, 2 <= a <= N - 2 /\ Z.gcd a N = 1) /\
     ((exists a g', coprime_to fuel N g = (Ok a, g')) <->
      (exists k, (k < fuel)%nat /\ Z.gcd (draw_at 2 (N - 1) k g) N = 1))) /\
  (N <= 3 -> coprime_to (S fuel) N g = (Raise ValueError, g)) /\
  (N = 4 \/ N = 6 -> (coprime_to fuel N g).1 = OutOfFuel).
Proof.
  split; [|split; [|split]].
  - intros a g' Hret. destruct (coprime_to_post fuel N g a g' Hret) as [Ha Hgcd].
    split; [exact Ha|]. split; [exact Hgcd|].
    assert (H4 : N <> 4).
    { intros ->. pose proof (coprime_to_no_candidate fuel 4 g ltac:(lia) no_candidate_4) as H.
      rewrite Hret in H. discriminate H. }
    assert (H6 : N <> 6).
    { intros ->. pose proof (coprime_to_no_candidate fuel 6 g ltac:(lia) no_candidate_6) as H.
      rewrite Hret in H. discriminate H. }
    lia.
  - intros HN H6. split; [apply coprime_candidate_exists; assumption|].
    apply coprime_to_returns_iff. lia.
  - apply coprime_to_empty_range.
  - intros [-> | ->]; apply coprime_to_no_candidate;
      (lia || apply no_candidate_4 || apply no_candidate_6).
Qed.

(** ** The affine permutation *)

Lemma permute_index_range i N a b : 0 < N -> 0 <= permute_index i N a b < N.
Proof. intros HN. unfold permute_index. apply Z.mod_pos_bound. exact HN. Qed.

(** For a multiplier coprime to [N] the map is injective on [0, N). *)
Lemma permute_index_inj N a b i j :
  0 < N -> Z.gcd a N = 1 -> 0 <= i < N -> 0 <= j < N ->
  permute_index i N a b = permute_index j N a b -> i = j.
Proof.
  intros HN Hgcd Hi Hj Heq. unfold permute_index in Heq.
  assert (Hdiv : (N | a * (i - j))).
  { apply Z.mod_divide; [lia|].
    replace (a * (i - j)) with ((a * i + b) - (a * j + b)) by lia.
    rewrite Zminus_mod, Heq, Z.sub_diag. apply Z.mod_0_l. lia. }
  apply Z.gauss in Hdiv; [|rewrite Z.gcd_comm; exact Hgcd].
  destruct Hdiv as [k Hk].
  assert (k = 0) by nia. lia.
Qed.


(** ** Lines of the windowed mode *)

Lemma digit_chr_0_1 : digit_chr 0 <> digit_chr 1.
Proof. vm_compute. discriminate. Qed.

Lemma digits_w_4_1 : digits_w 4 1 = [0; 0; 0; 1].
Proof. vm_compute. reflexivity. Qed.

(** With branch 1 the identifier holds a 0 and a 1: it is never the
    degenerate sequence. *)
Lemma cnpj14_branch_1_not_all_same r :
  ~ all_same (digit_chr <$> cnpj14_digits r 1).
Proof.
  intros (c & _ & Hall). unfold cnpj14_digits in Hall.
  rewrite digits_w_4_1 in Hall. rewrite !fmap_app in Hall.
  apply Forall_app in Hall as [Hall _]. apply Forall_app in Hall as [_ Hall].
  cbn [fmap list_fmap] in Hall.
  apply Forall_cons in Hall as [H0 Hall]. apply Forall_cons in Hall as [_ Hall].
  apply Forall_cons in Hall as [_ Hall]. apply Forall_cons in Hall as [H1 _].
  apply digit_chr_0_1. congruence.
Qed.

Lemma montar_cnpj_branch_1 r m :
  0 <= r -> montar_cnpj r 1 m = Ok (Some (cnpj_line m r 1)).
Proof.
  intros Hr. rewrite montar_cnpj_cases by lia. cbv zeta.
  rewrite (proj2 (is_sequencia_invalida_false _) (cnpj14_branch_1_not_all_same r)).
  reflexivity.
Qed.

(** The root and the branch can be read back from a line. *)
Lemma parse_cnpj_line m r f :
  0 <= r <= 99999999 -> 0 <= f <= 9999 ->
  parse_cnpj_like (cnpj_line m r f) = Ok (r, f).
Proof.
  intros Hr Hf. rewrite <-(parse_cnpj14_digits r f Hr Hf).
  apply parse_cnpj_like_strip. unfold cnpj_line. destruct m; [|reflexivity].
  rewrite strip_mascarar, strip_digits.
  - reflexivity.
  - apply cnpj14_digits_decimal; lia.
  - apply cnpj14_digits_length; assumption.
  - apply cnpj14_digits_decimal; lia.
Qed.

(** The windowed loop, as long as the roots it reaches are not negative,
    feeds the writer the lines of the roots [lo + permute_index i], for [i]
    counting up, until the quantity is reached. *)
Lemma around_loop_lines c quantidade lo N a b (k : nat) :
  forall (fuel : nat) i emitidos w σ,
    (k < fuel)%nat ->
    emitidos + Z.of_nat k = quantidade ->
    0 <= lo -> 0 < N ->
    around_loop fuel c quantidade lo N a b i emitidos w σ =
      write_lines
        ((fun j => cnpj_line (mascara c) (lo + permute_index j N a b) 1)
           <$> seqZ i (Z.of_nat k)) w σ.
Proof.
  induction k as [|k IH]; intros fuel i emitidos w σ Hfuel Hq Hlo HN.
  - destruct fuel as [|fuel]; [lia|]. cbn [around_loop].
    rewrite decide_False by lia. reflexivity.
  - destruct fuel as [|fuel]; [lia|]. cbn [around_loop].
    rewrite decide_True by lia.
    pose proof (permute_index_range i N a b HN) as Hp.
    rewrite montar_cnpj_branch_1 by lia.
    rewrite seqZ_cons by lia. rewrite fmap_cons. cbn [write_lines].
    destruct (write_line _ w σ) as [[[]|e|] [w' σ']]; [|reflexivity..].
    replace (Z.pred (Z.of_nat (S k))) with (Z.of_nat k) by lia.
    replace (Z.succ i) with (i + 1) by lia.
    apply IH; lia.
Qed.

Section AroundProperties.
Context {RS : RandomSource}.


End AroundProperties.




(** ** The sequential mode *)

Lemma seq_line_emit m np i : 0 <= i -> seq_line m np i = Ok (seq_emit m np i).
Proof.
  intros Hi. unfold seq_line, seq_emit.
  rewrite format_0d_digits by exact Hi.
  rewrite ints_of_chars_digits by (apply digits_w_decimal; exact Hi).
  cbn [mbind result_bind]. cbv zeta.
  rewrite cnpj14_of_digits_decimal by (apply digits_w_decimal; exact Hi).
  destruct (_ || _); reflexivity.
Qed.

(** The digits of an emitted line are the twelve digits of the base and
    the two check digits. *)
Lemma seq_emit_digits m np i line :
  0 <= i <= 999999999999 ->
  seq_emit m np i = Some line ->
  strip_non_digits line =
    digit_chr <$> (digits_w 12 i ++
                   [(calc_dvs (digits_w 12 i)).1; (calc_dvs (digits_w 12 i)).2]).
Proof.
  intros Hi. unfold seq_emit. cbv zeta.
  assert (Hdec : Forall is_decimal
            (digits_w 12 i ++ [(calc_dvs (digits_w 12 i)).1; (calc_dvs (digits_w 12 i)).2])).
  { destruct (calc_dvs_decimal (digits_w 12 i)) as [H1 H2].
    apply Forall_app. split; [apply digits_w_decimal; lia|].
    apply Forall_cons. split; [exact H1|].
    apply Forall_cons. split; [exact H2|]. apply Forall_nil_2. }
  assert (Hlen : length
            (digits_w 12 i ++ [(calc_dvs (digits_w 12 i)).1; (calc_dvs (digits_w 12 i)).2])
            = 14%nat).
  { rewrite length_app, digits_w_length; [reflexivity | lia | rewrite pow10_12; lia]. }
  destruct (_ || _); [|discriminate].
  intros [= <-]. destruct m.
  - apply strip_mascarar; assumption.
  - apply strip_digits; assumption.
Qed.

(** Different bases give different lines. *)
Lemma seq_emit_inj m np i j line :
  0 <= i <= 999999999999 -> 0 <= j <= 999999999999 ->
  seq_emit m np i = Some line -> seq_emit m np j = Some line -> i = j.
Proof.
  intros Hi Hj Hei Hej.
  apply seq_emit_digits in Hei; [|exact Hi]. apply seq_emit_digits in Hej; [|exact Hj].
  rewrite Hei in Hej. apply digit_chr_fmap_inj in Hej.
  - apply app_inj_1 in Hej as [Heq _].
    + rewrite <-(horner_digits_w 12 i), <-(horner_digits_w 12 j) by lia.
      rewrite Heq. reflexivity.
    + rewrite !digits_w_length; [reflexivity | lia | rewrite pow10_12; lia
                                 | lia | rewrite pow10_12; lia].
  - destruct (calc_dvs_decimal (digits_w 12 i)) as [H1 H2].
    apply Forall_app. split; [apply digits_w_decimal; lia|].
    apply Forall_cons. split; [exact H1|].
    apply Forall_cons. split; [exact H2|]. apply Forall_nil_2.
  - destruct (calc_dvs_decimal (digits_w 12 j)) as [H1 H2].
    apply Forall_app. split; [apply digits_w_decimal; lia|].
    apply Forall_cons. split; [exact H1|].
    apply Forall_cons. split; [exact H2|]. apply Forall_nil_2.
Qed.

(** *** Arithmetic progressions *)

Lemma arith_prog_nil start stride hi :
  0 < stride -> hi < start -> arith_prog start stride hi = [].
Proof.
  intros Hs Hlt. unfold arith_prog. rewrite seqZ_nil; [reflexivity|].
  assert ((hi - start) `div` stride < 0) by (apply Z.div_lt_upper_bound; lia).
  lia.
Qed.

Lemma arith_prog_cons start stride hi :
  0 < stride -> start <= hi ->
  arith_prog start stride hi = start :: arith_prog (start + stride) stride hi.
Proof.
  intros Hs Hle. unfold arith_prog.
  assert (Hdiv : (hi - start) `div` stride = (hi - (start + stride)) `div` stride + 1).
  { replace (hi - start) with ((hi - (start + stride)) + 1 * stride) by lia.
    rewrite Z.div_add by lia. reflexivity. }
  assert (Hpos : 0 <= (hi - start) `div` stride) by (apply Z.div_pos; lia).
  rewrite seqZ_cons by lia. rewrite fmap_cons. f_equal; [lia|].
  replace (Z.pred ((hi - start) `div` stride + 1))
    with ((hi - (start + stride)) `div` stride + 1) by lia.
  change (Z.succ 0) with (1 + 0). rewrite <-fmap_add_seqZ, <-list_fmap_compose.
  apply list_fmap_ext. intros _ j _. cbn. lia.
Qed.

Lemma elem_of_arith_prog start stride hi x :
  0 < stride ->
  x ∈ arith_prog start stride hi <->
  start <= x <= hi /\ (x - start) `mod` stride = 0.
Proof.
  intros Hs. unfold arith_prog. rewrite list_elem_of_fmap. split.
  - intros (j & -> & Hj). apply elem_of_seqZ in Hj.
    replace (start + stride * j - start) with (j * stride) by lia.
    rewrite Z.mod_mul by lia. split; [|reflexivity].
    assert (stride * j <= hi - start).
    { etransitivity; [|apply (Z.mul_div_le (hi - start) stride); lia].
      apply Z.mul_le_mono_nonneg_l; lia. }
    nia.
  - intros [Hx Hmod]. exists ((x - start) `div` stride).
    pose proof (Z.div_mod (x - start) stride ltac:(lia)) as Hdm.
    rewrite Hmod in Hdm. split; [lia|].
    apply elem_of_seqZ.
    assert (0 <= (x - start) `div` stride) by (apply Z.div_pos; lia).
    assert ((x - start) `div` stride <= (hi - start) `div` stride)
      by (apply Z.div_le_mono; lia).
    lia.
Qed.

Lemma NoDup_arith_prog start stride hi : 0 < stride -> NoDup (arith_prog start stride hi).
Proof.
  intros Hs. unfold arith_prog. apply NoDup_fmap_2_strong; [|apply NoDup_seqZ].
  intros i j _ _ Heq. nia.
Qed.

Lemma arith_prog_stride_1 lo hi :
  lo <= hi -> arith_prog lo (1 * 1) hi = seqZ lo (hi - lo + 1).
Proof.
  intros Hle. unfold arith_prog. change (1 * 1) with 1. rewrite Z.div_1_r.
  replace (seqZ lo (hi - lo + 1)) with (seqZ (lo + 0) (hi - lo + 1))
    by (rewrite Z.add_0_r; reflexivity).
  rewrite <-fmap_add_seqZ.
  apply list_fmap_ext. intros _ j _. lia.
Qed.

Lemma NoDup_omap_inj {A B} (f : A -> option B) (l : list A) :
  (forall x y z, x ∈ l -> y ∈ l -> f x = Some z -> f y = Some z -> x = y) ->
  NoDup l -> NoDup (omap f l).
Proof.
  intros Hinj Hnd. induction Hnd as [|x l Hx Hnd IH]; [constructor|].
  cbn [omap list_omap].
  assert (IH' : NoDup (omap f l)).
  { apply IH. intros a b z Ha Hb. apply Hinj; apply elem_of_cons; right; assumption. }
  destruct (f x) as [z|] eqn:Hfx; [|exact IH'].
  apply NoDup_cons. split; [|exact IH'].
  intros Hin. apply list_elem_of_omap in Hin as (y & Hy & Hfy).
  apply Hx. rewrite (Hinj x y z); [exact Hy | | | exact Hfx | exact Hfy].
  - apply elem_of_cons. left. reflexivity.
  - apply elem_of_cons. right. exact Hy.
Qed.

(** Without a target quantity, the sequential loop feeds the writer what
    the bases [i, i + stride, ...] up to [fim] emit. *)
Lemma seq_loop_lines c a fim :
  s_quantidade a = None ->
  0 < s_passo a * s_shards_total a ->
  forall (fuel : nat) i emitidos w σ,
    0 <= i -> (Z.to_nat (fim + 1 - i) < fuel)%nat ->
    seq_loop fuel c a fim i emitidos w σ =
      write_lines
        (omap (seq_emit (mascara c) (s_nao_pular_seq_invalidas a))
           (arith_prog i (s_passo a * s_shards_total a) fim)) w σ.
Proof.
  intros Hq Hs. induction fuel as [|fuel IH]; intros i emitidos w σ Hi Hfuel; [lia|].
  cbn [seq_loop]. rewrite Hq.
  destruct (decide (i <= fim)) as [Hle|Hgt].
  - rewrite bool_decide_eq_true_2 by exact Hle. cbn [andb].
    rewrite seq_line_emit by exact Hi.
    rewrite arith_prog_cons by assumption. cbn [omap list_omap].
    destruct (seq_emit _ _ i) as [line|].
    + cbn [write_lines].
      destruct (write_line line w σ) as [[[]|e|] [w' σ']]; [|reflexivity..].
      apply IH; lia.
    + apply IH; lia.
  - rewrite bool_decide_eq_false_2 by exact Hgt. cbn [andb].
    rewrite arith_prog_nil by lia. reflexivity.
Qed.

(** The bases a shard visits are those of the range with the shard's
    residue. *)
Lemma elem_of_shard lo hi k x :
  0 <= k < 3 ->
  x ∈ arith_prog (lo + (k - lo `mod` 3) `mod` 3) (1 * 3) hi <->
  lo <= x <= hi /\ x `mod` 3 = k.
Proof.
  intros Hk. change (1 * 3) with 3. rewrite elem_of_arith_prog by lia.
  Z.to_euclidean_division_equations. lia.
Qed.

(** The three shards visit every base of the range, each base once. *)
Lemma shards_partition lo hi :
  arith_prog (lo + (0 - lo `mod` 3) `mod` 3) (1 * 3) hi ++
  arith_prog (lo + (1 - lo `mod` 3) `mod` 3) (1 * 3) hi ++
  arith_prog (lo + (2 - lo `mod` 3) `mod` 3) (1 * 3) hi
  ≡ₚ seqZ lo (hi - lo + 1).
Proof.
  apply NoDup_Permutation.
  - apply NoDup_app. split; [apply NoDup_arith_prog; lia|]. split.
    + intros x H0 H12. apply elem_of_shard in H0; [|lia].
      apply elem_of_app in H12 as [H1|H2];
        [apply elem_of_shard in H1 | apply elem_of_shard in H2]; lia.
    + apply NoDup_app. split; [apply NoDup_arith_prog; lia|].
      split; [|apply NoDup_arith_prog; lia].
      intros x H1 H2. apply elem_of_shard in H1; [|lia].
      apply elem_of_shard in H2; lia.
  - apply NoDup_seqZ.
  - intros x. rewrite !elem_of_app, !elem_of_shard, elem_of_seqZ by lia.
    pose proof (Z.mod_pos_bound x 3 ltac:(lia)). lia.
Qed.

Section SeqProperties.
Context {RS : RandomSource}.

(** C3: the sequential mode over a range [lo, hi] of bases, step 1, no
    target quantity.  With three shards, the run of shard [k] feeds the
    writer what the bases of the arithmetic progression that starts at
    [lo + offset], [offset = (k - lo mod 3) mod 3], with stride 3, emit;
    with one shard the run feeds it what all the bases [lo .. hi] emit.
    The three progressions together hold every base of the range once, the
    lines of the three shards are pairwise different, and together they are
    the lines of the full enumeration. *)
Theorem seq_shards_partition (fuel : nat) (c : CommonArgs) (lo hi : Z) (np : bool)
    (g : rng) (σ : World) :
  0 <= lo -> lo <= hi -> hi <= 999999999999 ->
  (Z.to_nat (hi - lo) + 1 < fuel)%nat ->
  let shard total k :=
    ModoSeq {| s_quantidade := None; s_inicio_base12 := Some lo;
               s_fim_base12 := Some hi; s_passo := 1;
               s_shards_total := total; s_shard_index := k;
               s_nao_pular_seq_invalidas := np |} in
  let visited k := arith_prog (lo + (k - lo `mod` 3) `mod` 3) (1 * 3) hi in
  let out bases := omap (seq_emit (mascara c) np) bases in
  let run lines :=
    let '(r, s) :=
      run_writer (output c) (arg_chunk_size c) (arg_progress_every c) lines σ in
    (r, (g, s)) in
  (forall k, 0 <= k < 3 -> main fuel c (shard 3 k) g σ = run (out (visited k))) /\
  main fuel c (shard 1 0) g σ = run (out (seqZ lo (hi - lo + 1))) /\
  visited 0 ++ visited 1 ++ visited 2 ≡ₚ seqZ lo (hi - lo + 1) /\
  out (visited 0) ++ out (visited 1) ++ out (visited 2) ≡ₚ out (seqZ lo (hi - lo + 1)) /\
  NoDup (out (visited 0) ++ out (visited 1) ++ out (visited 2)).
Proof.
  intros Hlo Hle Hhi Hfuel shard visited out run.
  assert (Hperm : visited 0 ++ visited 1 ++ visited 2 ≡ₚ seqZ lo (hi - lo + 1))
    by apply shards_partition.
  assert (Hout : out (visited 0) ++ out (visited 1) ++ out (visited 2)
                 ≡ₚ out (seqZ lo (hi - lo + 1))).
  { subst out. cbv beta. rewrite <-!omap_app, Hperm. reflexivity. }
  split; [|split; [|split; [exact Hperm|split; [exact Hout|]]]].
  - intros k Hk. subst shard run out visited. cbv beta.
    unfold main, run_writer.
    destruct (ChunkWriter_init (output c) (arg_chunk_size c) (arg_progress_every c) σ)
      as [w σ0].
    cbn [main_try s_inicio_base12 s_fim_base12 s_shard_index s_shards_total default from_option]. unfold id.
    rewrite decide_True by lia.
    assert (Hoff : 0 <= (k - lo `mod` 3) `mod` 3 < 3) by (apply Z.mod_pos_bound; lia).
    rewrite seq_loop_lines; [|reflexivity|cbn; lia|lia|lia].
    cbn [s_passo s_shards_total s_nao_pular_seq_invalidas].
    destruct (write_lines _ w σ0) as [r [w' σ']]. reflexivity.
  - subst shard run out visited. cbv beta.
    unfold main, run_writer.
    destruct (ChunkWriter_init (output c) (arg_chunk_size c) (arg_progress_every c) σ)
      as [w σ0].
    cbn [main_try s_inicio_base12 s_fim_base12 s_shard_index s_shards_total default from_option]. unfold id.
    rewrite decide_True by lia.
    rewrite !Z.mod_1_r, Z.add_0_r.
    rewrite seq_loop_lines; [|reflexivity|cbn; lia|lia|lia].
    cbn [s_passo s_shards_total s_nao_pular_seq_invalidas].
    rewrite arith_prog_stride_1 by exact Hle.
    destruct (write_lines _ w σ0) as [r [w' σ']]. reflexivity.
  - rewrite Hout. subst out. cbv beta.
    apply NoDup_omap_inj; [|apply NoDup_seqZ].
    intros x y z Hx Hy. apply elem_of_seqZ in Hx, Hy.
    apply seq_emit_inj; lia.
Qed.

End SeqProperties.

Lemma seq_shards_partition_witness :
  arith_prog (10 + (0 - 10 `mod` 3) `mod` 3) (1 * 3) 20 ++
  arith_prog (10 + (1 - 10 `mod` 3) `mod` 3) (1 * 3) 20 ++
  arith_prog (10 + (2 - 10 `mod` 3) `mod` 3) (1 * 3) 20
  ≡ₚ seqZ 10 (20 - 10 + 1).
Proof.
  destruct (seq_shards_partition (RS := lcg_source) 20
      {| output := {| parent := lit "out"; name := lit "cnpjs" |};
         mascara := false; arg_chunk_size := 0; arg_progress_every := 0 |}
      10 20 false (7 : Z) {| files := ∅; dirs := ∅; console := [] |})
    as (_ & _ & Hperm & _); [lia..|].
  exact Hperm.
Defined.

(** * Further properties of the code *)

(** ** Checksum engine: any input *)

Lemma zip_with_take_min {A B C} (f : A -> B -> C) (l : list A) (k : list B) :
  zip_with f l k =
    zip_with f (take (length l `min` length k) l) (take (length l `min` length k) k).
Proof.
  revert k. induction l as [|x l IH]; intros [|y k]; try reflexivity.
  cbn [length Nat.min take zip_with]. rewrite <-IH. reflexivity.
Qed.

(** X1: [dv_mod11] accepts any two lists of integers: the result is a
    digit 0..9, digits without a weight and weights without a digit are
    ignored, and without digits the result is 0. *)
Theorem dv_mod11_any_input (numeros pesos : list Z) :
  0 <= dv_mod11 numeros pesos <= 9 /\
  dv_mod11 numeros pesos =
    dv_mod11 (take (length numeros `min` length pesos) numeros)
             (take (length numeros `min` length pesos) pesos) /\
  dv_mod11 [] pesos = 0 /\ dv_mod11 numeros [] = 0.
Proof.
  split; [apply dv_mod11_decimal|]. split; [|split].
  - unfold dv_mod11. rewrite <-zip_with_take_min. reflexivity.
  - reflexivity.
  - unfold dv_mod11. destruct numeros; reflexivity.
Qed.

(** Replacing one digit moves the weighted sum by the weight times the
    difference. *)
Lemma weighted_sum_insert (ds ws : list Z) (i : nat) d d' w :
  ds !! i = Some d -> ws !! i = Some w ->
  sumZ (zip_with Z.mul (<[i := d']> ds) ws) =
    sumZ (zip_with Z.mul ds ws) + w * (d' - d).
Proof.
  revert ws i. induction ds as [|x ds IH]; intros [|y ws] [|i] Hd Hw;
    try discriminate.
  - injection Hd as ->. injection Hw as ->. cbn. lia.
  - cbn in Hd, Hw.
    change (<[S i := d']> (x :: ds)) with (x :: <[i := d']> ds).
    unfold sumZ in *. cbn [zip_with foldr].
    rewrite (IH ws i Hd Hw). lia.
Qed.

Lemma PESOS_DV1_range (i : nat) w : PESOS_DV1 !! i = Some w -> 2 <= w <= 9.
Proof.
  unfold PESOS_DV1.
  do 12 (destruct i as [|i]; [intros [= <-]; lia|]). discriminate.
Qed.

(** No weight times a non-zero digit difference is a multiple of 11. *)
Lemma weight_times_difference w δ s :
  2 <= w <= 9 -> -9 <= δ <= 9 -> δ <> 0 -> (s + w * δ) `mod` 11 <> s `mod` 11.
Proof.
  intros Hw Hδ Hne Heq.
  assert (Hdiv : (11 | w * δ)).
  { apply Z.mod_divide; [lia|].
    replace (w * δ) with ((s + w * δ) - s) by lia.
    rewrite Zminus_mod, Heq, Z.sub_diag. reflexivity. }
  destruct Hdiv as [k Hk].
  assert (w = 2 \/ w = 3 \/ w = 4 \/ w = 5 \/ w = 6 \/ w = 7 \/ w = 8 \/ w = 9) by lia.
  destruct_or!; subst w; lia.
Qed.

(** X2: a first check digit different from 0 detects every change of one
    digit of a 12-digit base: the base with one digit replaced by another
    has a different first check digit. *)
Theorem calc_dvs_detects_single_digit (base12 : list Z) (i : nat) (d d' : Z) :
  length base12 = 12%nat -> Forall is_decimal base12 ->
  base12 !! i = Some d -> is_decimal d' -> d' <> d ->
  (calc_dvs base12).1 <> 0 ->
  (calc_dvs (<[i := d']> base12)).1 <> (calc_dvs base12).1.
Proof.
  intros Hlen Hdec Hi Hd' Hne Hnz.
  assert (Hd : is_decimal d).
  { eapply Forall_lookup_1; [exact Hdec | exact Hi]. }
  assert (Hlt : (i < length PESOS_DV1)%nat).
  { apply lookup_lt_Some in Hi. rewrite Hlen in Hi. exact Hi. }
  destruct (lookup_lt_is_Some_2 PESOS_DV1 i Hlt) as [w Hw].
  pose proof (PESOS_DV1_range i w Hw) as Hwr.
  unfold calc_dvs, dv_mod11 in *. cbn [fst] in *.
  rewrite (weighted_sum_insert base12 PESOS_DV1 i d d' w Hi Hw).
  pose proof (weight_times_difference w (d' - d)
                (sumZ (zip_with Z.mul base12 PESOS_DV1)) Hwr) as Hmod.
  unfold is_decimal in Hd, Hd'.
  specialize (Hmod ltac:(lia) ltac:(lia)).
  pose proof (Z.mod_pos_bound (sumZ (zip_with Z.mul base12 PESOS_DV1)) 11 ltac:(lia)).
  pose proof (Z.mod_pos_bound
                (sumZ (zip_with Z.mul base12 PESOS_DV1) + w * (d' - d)) 11 ltac:(lia)).
  repeat case_decide; lia.
Qed.

Lemma calc_dvs_detects_single_digit_witness :
  (calc_dvs [1;1;2;2;2;3;3;3;0;0;0;1]).1 = 8 /\
  (calc_dvs [1;1;2;2;2;3;3;3;0;0;0;2]).1 <> 8.
Proof.
  assert (H8 : (calc_dvs [1;1;2;2;2;3;3;3;0;0;0;1]).1 = 8) by (vm_compute; reflexivity).
  split; [exact H8|].
  pose proof (calc_dvs_detects_single_digit [1;1;2;2;2;3;3;3;0;0;0;1] 11 1 2) as H.
  cbn [insert list_insert] in H. rewrite H8 in H.
  apply H.
  - reflexivity.
  - repeat constructor; unfold is_decimal; lia.
  - reflexivity.
  - unfold is_decimal; lia.
  - lia.
  - lia.
Defined.

(** ** Identifier formatter: rejection, validity, errors *)

(** X3: [is_sequencia_invalida] holds exactly for a character repeated at
    least once, whatever the character and the length; it does not hold
    for the empty string. *)
Theorem is_sequencia_invalida_replicate (s : str) :
  (is_sequencia_invalida s = true <-> exists c n, s = replicate (S n) c) /\
  is_sequencia_invalida [] = false.
Proof.
  split; [|reflexivity].
  rewrite is_sequencia_invalida_all_same. unfold all_same. split.
  - intros (c & Hne & Hall). exists c.
    destruct s as [|x s]; [congruence|]. exists (length s).
    symmetry. apply replicate_as_Forall. split; [reflexivity|].
    eapply Forall_impl; [exact Hall|]. intros y ->. reflexivity.
  - intros (c & n & ->). exists c. split; [discriminate|].
    apply Forall_replicate. reflexivity.
Qed.

(** Digit characters that are all equal come from digits that are all
    equal. *)
Lemma all_same_digits (M : list Z) :
  Forall is_decimal M -> all_same (digit_chr <$> M) ->
  exists d, is_decimal d /\ M = replicate (length M) d.
Proof.
  intros Hdec (c & Hne & Hall).
  destruct M as [|d M]; [contradiction Hne; reflexivity|].
  apply Forall_cons in Hdec as [Hd Hdec].
  exists d. split; [exact Hd|].
  symmetry. apply replicate_as_Forall. split; [reflexivity|].
  rewrite fmap_cons in Hall. apply Forall_cons in Hall as [Hc Hall].
  apply Forall_cons. split; [reflexivity|].
  apply Forall_forall. intros x Hx.
  assert (Hxd : is_decimal x) by (revert x Hx; apply Forall_forall; exact Hdec).
  assert (Hcx : digit_chr x = c).
  { assert (Hin : digit_chr x ∈ digit_chr <$> M) by (apply list_elem_of_fmap_2; exact Hx).
    revert Hin. generalize (digit_chr x). apply Forall_forall. exact Hall. }
  rewrite <-(digit_val_digit_chr d Hd), <-(digit_val_digit_chr x Hxd).
  rewrite Hc, Hcx. reflexivity.
Qed.

(** Twelve equal digits with check digits equal to them are twelve
    zeros. *)
Lemma calc_dvs_replicate d :
  is_decimal d -> (calc_dvs (replicate 12 d)).1 = d -> d = 0.
Proof.
  intros Hd. decimal_cases Hd; vm_compute; congruence.
Qed.

(** Among the identifiers of twelve digits with their check digits, only
    the one of twelve zeros is a repeated character. *)
Lemma all_same_only_zeros (L : list Z) :
  length L = 12%nat -> Forall is_decimal L ->
  all_same (digit_chr <$> (L ++ [(calc_dvs L).1; (calc_dvs L).2])) ->
  L = replicate 12 0.
Proof.
  intros Hlen Hdec Hsame.
  apply all_same_digits in Hsame as (d & Hd & Heq).
  - rewrite length_app, Hlen in Heq. cbn [length Nat.add replicate] in Heq.
    change (d :: d :: d :: d :: d :: d :: d :: d :: d :: d :: d :: d :: [d; d])
      with (replicate 12 d ++ [d; d]) in Heq.
    apply app_inj_1 in Heq as [HL Hdv]; [|rewrite Hlen; reflexivity].
    injection Hdv as Hd1 _. rewrite HL in Hd1.
    rewrite (calc_dvs_replicate d Hd Hd1) in HL. exact HL.
  - destruct (calc_dvs_decimal L) as [H1 H2].
    apply Forall_app. split; [exact Hdec|].
    apply Forall_cons. split; [exact H1|].
    apply Forall_cons. split; [exact H2|]. apply Forall_nil_2.
Qed.

(** X4: for a root in 0..99999999 and a branch in 0..9999, [montar_cnpj]
    rejects (returns [None]) exactly the pair root 0, branch 0: the
    identifier of fourteen zeros is the only repeated digit whose check
    digits agree with it. *)
Theorem montar_cnpj_rejects_only_zero (raiz8 filial4 : Z) (com_mascara : bool) :
  0 <= raiz8 <= 99999999 -> 0 <= filial4 <= 9999 ->
  (montar_cnpj raiz8 filial4 com_mascara = Ok None <-> raiz8 = 0 /\ filial4 = 0).
Proof.
  intros Hr Hf. split.
  - rewrite montar_cnpj_cases by lia. cbv zeta.
    destruct (is_sequencia_invalida (digit_chr <$> cnpj14_digits raiz8 filial4))
      eqn:Hinv; [|discriminate].
    intros _. apply is_sequencia_invalida_all_same in Hinv.
    unfold cnpj14_digits in Hinv.
    assert (H8 : length (digits_w 8 raiz8) = 8%nat)
      by (apply digits_w_length; [lia | rewrite pow10_8; lia]).
    assert (H4 : length (digits_w 4 filial4) = 4%nat)
      by (apply digits_w_length; [lia | rewrite pow10_4; lia]).
    apply all_same_only_zeros in Hinv.
    + change (replicate 12 0) with (replicate 8 0 ++ replicate 4 0) in Hinv.
      apply app_inj_1 in Hinv as [Hr0 Hf0]; [|rewrite H8; reflexivity].
      split.
      * rewrite <-(horner_digits_w 8 raiz8), Hr0 by lia. reflexivity.
      * rewrite <-(horner_digits_w 4 filial4), Hf0 by lia. reflexivity.
    + rewrite length_app, H8, H4. reflexivity.
    + apply Forall_app. split; apply digits_w_decimal; lia.
  - intros [-> ->]. apply montar_cnpj_zero.
Qed.

Lemma montar_cnpj_rejects_only_zero_witness :
  montar_cnpj 0 1 false = Ok None <-> 0 = 0 /\ 1 = 0.
Proof. apply (montar_cnpj_rejects_only_zero 0 1 false); lia. Defined.

Lemma mascarar_length_14 (s : str) : length s = 14%nat -> length (mascarar s) = 18%nat.
Proof.
  intros Hlen. do 14 (destruct s as [|? s]; [discriminate Hlen|]).
  destruct s; [reflexivity | discriminate Hlen].
Qed.

(** X5: an identifier [montar_cnpj] returns for a root in 0..99999999 and
    a branch in 0..9999 is valid: its digits are fourteen, the first eight
    write the root, the next four the branch, and the last two are the
    check digits [calc_dvs] computes from the first twelve; the string has
    14 characters, 18 when masked. *)
Theorem montar_cnpj_valid (raiz8 filial4 : Z) (com_mascara : bool) (s : str) :
  0 <= raiz8 <= 99999999 -> 0 <= filial4 <= 9999 ->
  montar_cnpj raiz8 filial4 com_mascara = Ok (Some s) ->
  exists ds : list Z,
    strip_non_digits s = digit_chr <$> ds /\
    length ds = 14%nat /\ Forall is_decimal ds /\
    horner (take 8 ds) = raiz8 /\ horner (take 4 (drop 8 ds)) = filial4 /\
    calc_dvs (take 12 ds) = (ds !!! 12%nat, ds !!! 13%nat) /\
    length s = (if com_mascara then 18%nat else 14%nat).
Proof.
  intros Hr Hf. rewrite montar_cnpj_cases by lia. cbv zeta.
  destruct (is_sequencia_invalida (digit_chr <$> cnpj14_digits raiz8 filial4));
    [discriminate|].
  intros [= <-]. exists (cnpj14_digits raiz8 filial4).
  pose proof (cnpj14_digits_length raiz8 filial4 Hr Hf) as Hlen.
  assert (Hdec : Forall is_decimal (cnpj14_digits raiz8 filial4))
    by (apply cnpj14_digits_decimal; lia).
  assert (H8 : length (digits_w 8 raiz8) = 8%nat)
    by (apply digits_w_length; [lia | rewrite pow10_8; lia]).
  assert (H4 : length (digits_w 4 filial4) = 4%nat)
    by (apply digits_w_length; [lia | rewrite pow10_4; lia]).
  split.
  { destruct com_mascara; [apply strip_mascarar | apply strip_digits]; assumption. }
  split; [exact Hlen|]. split; [exact Hdec|].
  unfold cnpj14_digits.
  set (d1 := (calc_dvs (digits_w 8 raiz8 ++ digits_w 4 filial4)).1).
  set (d2 := (calc_dvs (digits_w 8 raiz8 ++ digits_w 4 filial4)).2).
  split.
  { rewrite <-!app_assoc, (take_app_length' (digits_w 8 raiz8)) by (symmetry; exact H8).
    apply horner_digits_w. lia. }
  split.
  { rewrite <-!app_assoc, (drop_app_length' (digits_w 8 raiz8)) by (symmetry; exact H8).
    rewrite (take_app_length' (digits_w 4 filial4)) by (symmetry; exact H4).
    apply horner_digits_w. lia. }
  split.
  { assert (H12 : length (digits_w 8 raiz8 ++ digits_w 4 filial4) = 12%nat)
      by (rewrite length_app, H8, H4; reflexivity).
    rewrite (take_app_length' (digits_w 8 raiz8 ++ digits_w 4 filial4))
      by (symmetry; exact H12).
    rewrite !lookup_total_app_r by (rewrite H12; lia). rewrite H12.
    subst d1 d2. destruct (calc_dvs _) as [x y]. reflexivity. }
  destruct com_mascara.
  - apply mascarar_length_14. rewrite length_fmap. exact Hlen.
  - rewrite length_fmap. exact Hlen.
Qed.

Lemma montar_cnpj_valid_witness :
  exists ds : list Z,
    strip_non_digits (lit "11.222.333/0001-81") = digit_chr <$> ds /\
    length ds = 14%nat /\ Forall is_decimal ds /\
    horner (take 8 ds) = 11222333 /\ horner (take 4 (drop 8 ds)) = 1 /\
    calc_dvs (take 12 ds) = (ds !!! 12%nat, ds !!! 13%nat) /\
    length (lit "11.222.333/0001-81") = 18%nat.
Proof.
  apply (montar_cnpj_valid 11222333 1 true (lit "11.222.333/0001-81")); [lia | lia |].
  vm_compute. reflexivity.
Defined.

(** *** Negative arguments *)

Lemma int_of_str_minus : int_of_str ["-"%char] = Raise ValueError.
Proof. vm_compute. reflexivity. Qed.

Lemma ints_of_chars_minus (ds : list Z) (rest : str) :
  Forall is_decimal ds ->
  ints_of_chars ((digit_chr <$> ds) ++ "-"%char :: rest) = Raise ValueError.
Proof.
  unfold ints_of_chars. induction 1 as [|d ds Hd _ IH].
  - cbn [fmap list_fmap app mapM]. rewrite int_of_str_minus. reflexivity.
  - cbn [fmap list_fmap app mapM] in *.
    rewrite int_of_str_digit by exact Hd. cbn [mbind result_bind].
    rewrite IH. reflexivity.
Qed.

Lemma format_0d_negative (w : nat) n :
  n < 0 -> exists rest, format_0d w n = "-"%char :: rest.
Proof. intros Hn. unfold format_0d. rewrite decide_True by exact Hn. eexists. reflexivity. Qed.

(** X6: [montar_cnpj] with a negative root or a negative branch raises
    [ValueError]: the sign the format writes is not a digit. *)
Theorem montar_cnpj_negative (raiz8 filial4 : Z) (com_mascara : bool) :
  raiz8 < 0 \/ filial4 < 0 ->
  montar_cnpj raiz8 filial4 com_mascara = Raise ValueError.
Proof.
  intros Hneg. unfold montar_cnpj, montar_cnpj14.
  destruct (decide (raiz8 < 0)) as [Hr|Hr].
  - destruct (format_0d_negative 8 raiz8 Hr) as [rest ->].
    pose proof (ints_of_chars_minus [] (rest ++ format_0d 4 filial4)
                  ltac:(constructor)) as H.
    cbn [fmap list_fmap app] in H. cbn [app]. rewrite H. reflexivity.
  - destruct Hneg as [Hr'|Hf]; [contradiction|].
    destruct (format_0d_negative 4 filial4 Hf) as [rest ->].
    rewrite format_0d_digits by lia.
    rewrite ints_of_chars_minus by (apply digits_w_decimal; lia).
    reflexivity.
Qed.

Lemma montar_cnpj_negative_witness :
  montar_cnpj 11222333 (-1) true = Raise ValueError.
Proof. apply (montar_cnpj_negative 11222333 (-1) true). right. lia. Defined.

(** ** Mask and parser: any input *)

Lemma strip_all_digits (s : str) :
  Forall (fun c => is_digit c = true) s -> strip_non_digits s = s.
Proof.
  unfold strip_non_digits. induction 1 as [|c s Hc _ IH]; [reflexivity|].
  cbn [List.filter]. change (is_decimal_char c) with (is_digit c).
  rewrite Hc, IH. reflexivity.
Qed.

Lemma slice_take_14 (a b : nat) (s : str) :
  (b <= 14)%nat -> slice a b (take 14 s) = slice a b s.
Proof.
  intros Hb. unfold slice.
  destruct (decide (a <= b)%nat) as [Hab|Hab].
  - rewrite !take_drop_commute, take_take. f_equal. f_equal. lia.
  - replace (b - a)%nat with 0%nat by lia. reflexivity.
Qed.

(** X7: [mascarar] accepts a string of any length: it lays out the first
    fourteen characters and ignores the rest, the result has four
    characters more than the part laid out, and removing the non-digits
    from the mask of a string of digits gives its first fourteen
    characters back; a 14-digit string is recovered whole. *)
Theorem mascarar_any_input (s : str) :
  mascarar s = mascarar (take 14 s) /\
  length (mascarar s) = (length s `min` 14 + 4)%nat /\
  (Forall (fun c => is_digit c = true) s ->
   strip_non_digits (mascarar s) = take 14 s) /\
  mascarar [] = lit "../-".
Proof.
  split; [|split; [|split]].
  - unfold mascarar. rewrite !slice_take_14 by lia. reflexivity.
  - unfold mascarar, slice. rewrite !length_app, !length_take, !length_drop.
    cbn [length]. lia.
  - intros Hs. unfold mascarar, slice.
    rewrite !strip_app.
    rewrite !(strip_all_digits (take _ _)) by (apply Forall_take, Forall_drop, Hs).
    change (strip_non_digits ["."%char]) with (@nil ascii).
    change (strip_non_digits ["/"%char]) with (@nil ascii).
    change (strip_non_digits ["-"%char]) with (@nil ascii).
    rewrite !app_nil_l, drop_0. cbn [Nat.sub].
    rewrite (app_assoc (take 2 s)), take_take_drop.
    rewrite (app_assoc (take (2 + 3) s)), take_take_drop.
    rewrite (app_assoc (take (2 + 3 + 3) s)), take_take_drop.
    rewrite take_take_drop. reflexivity.
  - reflexivity.
Qed.

(** *** The parser reads twelve digits *)

Lemma is_digit_decimal (c : ascii) : is_digit c = true -> is_decimal (digit_val c).
Proof.
  with_strategy transparent [is_digit digit_val] unfold is_digit, digit_val.
  unfold is_decimal. intros H. apply andb_prop in H as [H1 H2].
  apply Nat.leb_le in H1, H2. lia.
Qed.

Lemma horner_bound (ds : list Z) :
  Forall is_decimal ds -> 0 <= horner ds < 10 ^ Z.of_nat (length ds).
Proof.
  induction ds as [|d ds IH] using rev_ind; intros Hdec.
  - cbn. lia.
  - apply Forall_app in Hdec as [Hds Hd]. apply Forall_cons in Hd as [Hd _].
    specialize (IH Hds). rewrite horner_snoc, length_app. cbn [length].
    rewrite Nat2Z.inj_add, Z.pow_add_r by lia. change (10 ^ Z.of_nat 1) with 10.
    unfold is_decimal in Hd. lia.
Qed.

Section ParserReads.
Context {C : Type} `{Decimal C}.

Lemma digit_val_decimal (s : list C) :
  forallb is_decimal_char s = true -> Forall is_decimal (decimal_char_val <$> s).
Proof.
  induction s as [|c s IH]; intros Hs; [constructor|].
  cbn [forallb] in Hs. apply andb_prop in Hs as [Hc Hs].
  rewrite fmap_cons. apply Forall_cons.
  split; [apply decimal_char_range, Hc | apply IH, Hs].
Qed.

Lemma parse_cnpj_like_Ok_length (s : list C) r f :
  parse_cnpj_like s = Ok (r, f) -> (12 <= length (strip_non_digits s))%nat.
Proof.
  unfold parse_cnpj_like. cbv zeta. case_decide; [discriminate | lia].
Qed.

(** X8: for every input string, over every character type and whatever
    characters count as decimal digits there, what [parse_cnpj_like]
    returns is a root in 0..99999999 and a branch in 0..9999, and it
    depends on the first twelve digits of the input only: later digits,
    the check digits among them, are not looked at. *)
Theorem parse_cnpj_like_first_12 (s : list C) (raiz filial : Z) :
  parse_cnpj_like s = Ok (raiz, filial) ->
  0 <= raiz <= 99999999 /\ 0 <= filial <= 9999 /\
  (forall s', take 12 (strip_non_digits s') = take 12 (strip_non_digits s) ->
              parse_cnpj_like s' = Ok (raiz, filial)).
Proof.
  intros Hparse.
  pose proof (parse_cnpj_like_Ok_length s raiz filial Hparse) as Hlen.
  rewrite (parse_cnpj_like_ok s Hlen) in Hparse.
  injection Hparse as Hr Hf.
  pose proof (forallb_is_digit_strip s) as Hall.
  split; [|split].
  - subst raiz. rewrite <-horner_decimal_value.
    pose proof (horner_bound (decimal_char_val <$> take 8 (strip_non_digits s))
                  (digit_val_decimal _ (forallb_take _ 8 _ Hall))) as Hb.
    rewrite length_fmap, length_take_le in Hb by lia.
    change (10 ^ Z.of_nat 8) with 100000000 in Hb. lia.
  - subst filial. rewrite <-horner_decimal_value.
    pose proof (horner_bound (decimal_char_val <$> take 4 (drop 8 (strip_non_digits s)))
                  (digit_val_decimal _ (forallb_take _ 4 _ (forallb_drop _ 8 _ Hall))))
      as Hb.
    rewrite length_fmap, length_take_le in Hb by (rewrite length_drop; lia).
    change (10 ^ Z.of_nat 4) with 10000 in Hb. lia.
  - intros s' Heq.
    assert (Hlen' : (12 <= length (strip_non_digits s'))%nat).
    { apply (f_equal length) in Heq. rewrite !length_take in Heq. lia. }
    rewrite (parse_cnpj_like_ok s' Hlen'), <-Hr, <-Hf.
    assert (H8 : take 8 (strip_non_digits s') = take 8 (strip_non_digits s)).
    { change 8%nat with (8 `min` 12)%nat. rewrite <-!take_take, Heq. reflexivity. }
    assert (H4 : take 4 (drop 8 (strip_non_digits s')) =
                 take 4 (drop 8 (strip_non_digits s))).
    { rewrite !take_drop_commute. change (8 + 4)%nat with 12%nat.
      rewrite Heq. reflexivity. }
    rewrite H8, H4. reflexivity.
Qed.

End ParserReads.

(** An input in two scripts: the Arabic-Indic digit three (U+0663) before
    ASCII digits, and two versions of what follows the twelfth digit. *)
Lemma parse_cnpj_like_first_12_witness :
  0 <= 31234567 <= 99999999 /\ 0 <= 8901 <= 9999 /\
  @parse_cnpj_like Z (codepoint_decimal [48; 1632])
    [1635; 49; 50; 51; 46; 52; 53; 54; 55; 47; 56; 57; 48; 49; 45; 57; 57] =
    Ok (31234567, 8901).
Proof.
  destruct (@parse_cnpj_like_first_12 Z (codepoint_decimal [48; 1632])
              [1635; 49; 50; 51; 52; 53; 54; 55; 56; 57; 48; 49; 50]
              31234567 8901)
    as (Hr & Hf & Hdep).
  - vm_compute. reflexivity.
  - split; [exact Hr|]. split; [exact Hf|]. apply Hdep. vm_compute. reflexivity.
Defined.

(** ** The windowed mode: any window *)

(** Outside root 0 with branch 0, [montar_cnpj] returns the line of the
    identifier. *)
Lemma montar_cnpj_some r f m :
  0 <= r <= 99999999 -> 0 <= f <= 9999 -> r <> 0 \/ f <> 0 ->
  montar_cnpj r f m = Ok (Some (cnpj_line m r f)).
Proof.
  intros Hr Hf Hnz. rewrite montar_cnpj_cases by lia. cbv zeta.
  destruct (is_sequencia_invalida (digit_chr <$> cnpj14_digits r f)) eqn:Hinv;
    [|reflexivity].
  exfalso. apply is_sequencia_invalida_all_same in Hinv. unfold cnpj14_digits in Hinv.
  assert (H8 : length (digits_w 8 r) = 8%nat)
    by (apply digits_w_length; [lia | rewrite pow10_8; lia]).
  assert (H4 : length (digits_w 4 f) = 4%nat)
    by (apply digits_w_length; [lia | rewrite pow10_4; lia]).
  apply all_same_only_zeros in Hinv.
  - change (replicate 12 0) with (replicate 8 0 ++ replicate 4 0) in Hinv.
    apply app_inj_1 in Hinv as [Hr0 Hf0]; [|rewrite H8; reflexivity].
    assert (r = 0) by (rewrite <-(horner_digits_w 8 r), Hr0 by lia; reflexivity).
    assert (f = 0) by (rewrite <-(horner_digits_w 4 f), Hf0 by lia; reflexivity).
    lia.
  - rewrite length_app, H8, H4. reflexivity.
  - apply Forall_app. split; apply digits_w_decimal; lia.
Qed.

(** Lines of different roots, or of different branches, differ. *)
Lemma cnpj_line_inj m r f r' f' :
  0 <= r <= 99999999 -> 0 <= f <= 9999 -> 0 <= r' <= 99999999 -> 0 <= f' <= 9999 ->
  cnpj_line m r f = cnpj_line m r' f' -> r = r' /\ f = f'.
Proof.
  intros Hr Hf Hr' Hf' Heq.
  pose proof (parse_cnpj_line m r f Hr Hf) as H1.
  pose proof (parse_cnpj_line m r' f' Hr' Hf') as H2.
  rewrite Heq, H2 in H1. injection H1 as -> ->. split; reflexivity.
Qed.

Section AroundGeneral.
Context {RS : RandomSource}.

(** X9: the windowed mode never repeats.  For any base identifier, spread
    and quantity between 0 and the window size, once the setup has found
    its multiplier, the run feeds the writer as many lines as the quantity
    asks for; their roots are pairwise different and lie in the window
    [lo, hi] (the root of the base identifier minus and plus the spread,
    cut to 0..99999999), the branch is 1, and the lines are pairwise
    different. *)
Theorem around_no_repeat (fuel : nat) (c : CommonArgs) (a : AroundArgs)
    (raiz filial a_coef : Z) (g g2 : rng) (σ : World) :
  parse_cnpj_like (a_base_cnpj a) = Ok (raiz, filial) ->
  0 <= a_quantidade a <=
    Z.min 99999999 (raiz + a_spread a) - Z.max 0 (raiz - a_spread a) + 1 ->
  coprime_to fuel
    (Z.min 99999999 (raiz + a_spread a) - Z.max 0 (raiz - a_spread a) + 1)
    (seeded (a_seed a) g) = (Ok a_coef, g2) ->
  (Z.to_nat (a_quantidade a) < fuel)%nat ->
  exists (roots : list Z) (g' : rng),
    NoDup roots /\ length roots = Z.to_nat (a_quantidade a) /\
    Forall (fun r => Z.max 0 (raiz - a_spread a) <= r <=
                     Z.min 99999999 (raiz + a_spread a)) roots /\
    NoDup ((fun r => cnpj_line (mascara c) r 1) <$> roots) /\
    main fuel c (ModoAround a) g σ =
      (let '(r, s) :=
         run_writer (output c) (arg_chunk_size c) (arg_progress_every c)
           ((fun r => cnpj_line (mascara c) r 1) <$> roots) σ in
       (r, (g', s))).
Proof.
  intros Hparse Hq Hc Hfuel.
  set (lo := Z.max 0 (raiz - a_spread a)) in *.
  set (hi := Z.min 99999999 (raiz + a_spread a)) in *.
  destruct (coprime_to_post fuel _ _ a_coef g2 Hc) as [Ha Hgcd].
  assert (HN : 0 < hi - lo + 1) by lia.
  destruct (randrange_ok 0 (hi - lo + 1) g2 HN) as (b & g3 & Hb & Hbr).
  set (roots := (fun j => lo + permute_index j (hi - lo + 1) a_coef b)
                  <$> seqZ 0 (a_quantidade a)).
  assert (Hrange : Forall (fun r => lo <= r <= hi) roots).
  { apply Forall_fmap, Forall_forall. intros j _. cbn.
    pose proof (permute_index_range j (hi - lo + 1) a_coef b HN). lia. }
  assert (Hnd : NoDup roots).
  { apply NoDup_fmap_2_strong; [|apply NoDup_seqZ].
    intros i j Hi Hj Heq. apply elem_of_seqZ in Hi, Hj.
    apply (permute_index_inj (hi - lo + 1) a_coef b); (lia || exact Hgcd). }
  exists roots, g3.
  split; [exact Hnd|].
  split; [subst roots; rewrite length_fmap, length_seqZ; reflexivity|].
  split; [exact Hrange|].
  split.
  { apply NoDup_fmap_2_strong; [|exact Hnd].
    intros r r' Hr Hr' Heq.
    pose proof (proj1 (Forall_forall _ _) Hrange r Hr) as Hb1.
    pose proof (proj1 (Forall_forall _ _) Hrange r' Hr') as Hb2. cbn beta in Hb1, Hb2.
    apply (cnpj_line_inj (mascara c) r 1 r' 1) in Heq; lia. }
  unfold main, run_writer.
  destruct (ChunkWriter_init (output c) (arg_chunk_size c) (arg_progress_every c) σ)
    as [w σ0].
  cbn [main_try]. rewrite Hparse. cbv zeta. fold lo hi.
  rewrite decide_False by lia. rewrite Hc, Hb.
  rewrite (around_loop_lines c (a_quantidade a) lo (hi - lo + 1) a_coef b
             (Z.to_nat (a_quantidade a))) by lia.
  subst roots. rewrite <-list_fmap_compose. rewrite Z2Nat.id by lia.
  destruct (write_lines _ w σ0) as [r [w' σ']]. reflexivity.
Qed.

End AroundGeneral.

Lemma around_no_repeat_witness :
  exists (roots : list Z) (g' : Z),
    NoDup roots /\ length roots = 5%nat /\
    Forall (fun r => 0 <= r <= 57) roots.
Proof.
  destruct (around_no_repeat (RS := lcg_source) 30
      {| output := {| parent := lit "out"; name := lit "cnpjs" |};
         mascara := true; arg_chunk_size := 2; arg_progress_every := 0 |}
      {| a_quantidade := 5; a_base_cnpj := lit "00.000.007/0001-00";
         a_spread := 50; a_seed := Some 1 |}
      7 1 (randrange_draw (RandomSource := lcg_source) 2 57 1).1 (7 : Z)
      (randrange_draw (RandomSource := lcg_source) 2 57 1).2
      {| files := ∅; dirs := ∅; console := [] |})
    as (roots & g' & Hnd & Hlen & Hrange & _).
  - vm_compute. reflexivity.
  - vm_compute. split; discriminate.
  - vm_compute. reflexivity.
  - vm_compute. lia.
  - exists roots, g'. split; [exact Hnd|]. split; [exact Hlen | exact Hrange].
Defined.

(** ** The sequential mode: any step, shard count and quantity *)

(** With a target quantity, the sequential loop feeds the writer the
    first lines the bases emit, as many as are left to the target. *)
Lemma seq_loop_take c a fim alvo :
  s_quantidade a = Some alvo ->
  0 < s_passo a * s_shards_total a ->
  forall (fuel : nat) i emitidos w σ,
    0 <= i -> (Z.to_nat (fim + 1 - i) < fuel)%nat ->
    seq_loop fuel c a fim i emitidos w σ =
      write_lines
        (take (Z.to_nat (alvo - emitidos))
           (omap (seq_emit (mascara c) (s_nao_pular_seq_invalidas a))
              (arith_prog i (s_passo a * s_shards_total a) fim))) w σ.
Proof.
  intros Hq Hs. induction fuel as [|fuel IH]; intros i emitidos w σ Hi Hfuel; [lia|].
  cbn [seq_loop]. rewrite Hq.
  destruct (decide (i <= fim)) as [Hle|Hgt].
  - rewrite bool_decide_eq_true_2 by exact Hle. cbn [andb].
    destruct (decide (emitidos < alvo)) as [Hlt|Hge].
    + rewrite bool_decide_eq_true_2 by exact Hlt.
      rewrite seq_line_emit by exact Hi.
      rewrite arith_prog_cons by assumption. cbn [omap list_omap].
      destruct (seq_emit _ _ i) as [line|].
      * replace (Z.to_nat (alvo - emitidos))
          with (S (Z.to_nat (alvo - (emitidos + 1)))) by lia.
        cbn [take write_lines].
        destruct (write_line line w σ) as [[[]|e|] [w' σ']]; [|reflexivity..].
        apply IH; lia.
      * apply IH; lia.
    + rewrite bool_decide_eq_false_2 by exact Hge.
      replace (Z.to_nat (alvo - emitidos)) with 0%nat by lia. reflexivity.
  - rewrite bool_decide_eq_false_2 by exact Hgt. cbn [andb].
    rewrite arith_prog_nil by lia. cbn [omap list_omap]. rewrite take_nil. reflexivity.
Qed.

(** The first base of a shard lies in the first [total] bases and has the
    shard's residue. *)
Lemma shard_start inicio total k :
  0 <= k < total ->
  0 <= (k - inicio `mod` total) `mod` total < total /\
  (inicio + (k - inicio `mod` total) `mod` total) `mod` total = k.
Proof.
  intros Hk. split; [apply Z.mod_pos_bound; lia|].
  rewrite Zplus_mod_idemp_r.
  pose proof (Z.div_mod inicio total ltac:(lia)) as Hdm.
  replace (inicio + (k - inicio `mod` total)) with (k + inicio `div` total * total) by lia.
  rewrite Z.mod_add by lia. apply Z.mod_small. exact Hk.
Qed.

Section SeqGeneral.
Context {RS : RandomSource}.

(** X10: the sequential mode with any step of at least 1, any number of
    shards, a valid shard index, a start that is not negative, and with or
    without a target quantity.  The run feeds the writer, in ascending
    order of the bases, what the bases [start, start + passo * total, ...]
    up to the end emit, cut to the first [quantidade] lines when a
    quantity is given; [start] is the first base from the start of the
    range on with the residue of the shard index modulo the number of
    shards; and when the end is at most 999999999999, no line is written
    twice. *)
Theorem seq_run_lines (fuel : nat) (c : CommonArgs) (a : SeqArgs) (g : rng) (σ : World) :
  let inicio := default 0 (s_inicio_base12 a) in
  let fim := default 999999999999 (s_fim_base12 a) in
  let start :=
    inicio + (s_shard_index a - inicio `mod` s_shards_total a) `mod` s_shards_total a in
  let emitted :=
    omap (seq_emit (mascara c) (s_nao_pular_seq_invalidas a))
      (arith_prog start (s_passo a * s_shards_total a) fim) in
  let lines :=
    match s_quantidade a with
    | None => emitted
    | Some alvo => take (Z.to_nat alvo) emitted
    end in
  0 <= s_shard_index a < s_shards_total a -> 0 < s_passo a -> 0 <= inicio ->
  (Z.to_nat (fim + 1 - inicio) < fuel)%nat ->
  main fuel c (ModoSeq a) g σ =
    (let '(r, s) :=
       run_writer (output c) (arg_chunk_size c) (arg_progress_every c) lines σ in
     (r, (g, s))) /\
  (inicio <= start < inicio + s_shards_total a /\
   start `mod` s_shards_total a = s_shard_index a) /\
  (fim <= 999999999999 -> NoDup lines).
Proof.
  intros inicio fim start emitted lines Hk Hp Hi Hfuel.
  destruct (shard_start inicio (s_shards_total a) (s_shard_index a) Hk) as [Hoff Hres].
  assert (Hs : 0 < s_passo a * s_shards_total a) by nia.
  split; [|split].
  - unfold main, run_writer.
    destruct (ChunkWriter_init (output c) (arg_chunk_size c) (arg_progress_every c) σ)
      as [w σ0].
    cbn [main_try]. fold inicio fim. rewrite decide_True by exact Hk. fold start.
    subst lines emitted. destruct (s_quantidade a) as [alvo|] eqn:Hq.
    + rewrite (seq_loop_take c a fim alvo Hq Hs) by (subst start; lia).
      rewrite Z.sub_0_r.
      destruct (write_lines _ w σ0) as [r [w' σ']]. reflexivity.
    + rewrite (seq_loop_lines c a fim Hq Hs) by (subst start; lia).
      destruct (write_lines _ w σ0) as [r [w' σ']]. reflexivity.
  - subst start. split; [lia | exact Hres].
  - intros Hfim.
    assert (Hnd : NoDup emitted).
    { subst emitted. apply NoDup_omap_inj; [|apply NoDup_arith_prog; exact Hs].
      intros x y z Hx Hy.
      apply elem_of_arith_prog in Hx as [Hx _]; [|exact Hs].
      apply elem_of_arith_prog in Hy as [Hy _]; [|exact Hs].
      apply seq_emit_inj; subst start; lia. }
    subst lines. destruct (s_quantidade a) as [alvo|]; [|exact Hnd].
    eapply sublist_NoDup; [exact Hnd | apply sublist_take].
Qed.

End SeqGeneral.

Lemma seq_run_lines_witness :
  (100 + (1 - 100 `mod` 4) `mod` 4) `mod` 4 = 1 /\
  NoDup (take (Z.to_nat 3)
           (omap (seq_emit true false)
              (arith_prog (100 + (1 - 100 `mod` 4) `mod` 4) (2 * 4) 200))).
Proof.
  destruct (seq_run_lines (RS := lcg_source) 200
      {| output := {| parent := lit "out"; name := lit "cnpjs" |};
         mascara := true; arg_chunk_size := 0; arg_progress_every := 0 |}
      {| s_quantidade := Some 3; s_inicio_base12 := Some 100;
         s_fim_base12 := Some 200; s_passo := 2;
         s_shards_total := 4; s_shard_index := 1;
         s_nao_pular_seq_invalidas := false |}
      (7 : Z) {| files := ∅; dirs := ∅; console := [] |})
    as (_ & [_ Hres] & Hnd); cbn; try lia.
  split; [exact Hres | apply Hnd; cbn; lia].
Defined.

(** *** What the sequential mode skips, and where it fails *)

Lemma seq_line_negative m np i : i < 0 -> seq_line m np i = Raise ValueError.
Proof.
  intros Hi. unfold seq_line.
  destruct (format_0d_negative 12 i Hi) as [rest ->].
  pose proof (ints_of_chars_minus [] rest ltac:(constructor)) as H.
  cbn [fmap list_fmap app] in H. rewrite H. reflexivity.
Qed.

(** X11: for a base in 0..999999999999 the sequential mode skips the base
    exactly when the base is 0 and skipping is not switched off: no other
    identifier is a repeated digit. *)
Theorem seq_line_skips_only_zero (com_mascara nao_pular : bool) (i : Z) :
  0 <= i <= 999999999999 ->
  (seq_line com_mascara nao_pular i = Ok None <-> i = 0 /\ nao_pular = false).
Proof.
  intros Hi. rewrite seq_line_emit by lia. unfold seq_emit. cbv zeta.
  assert (H12 : length (digits_w 12 i) = 12%nat)
    by (apply digits_w_length; [lia | rewrite pow10_12; lia]).
  split.
  - destruct nao_pular; cbn [orb]; [discriminate|].
    destruct (is_sequencia_invalida _) eqn:Hinv; cbn [negb]; [|discriminate].
    intros _. split; [|reflexivity].
    apply is_sequencia_invalida_all_same in Hinv.
    apply all_same_only_zeros in Hinv;
      [|exact H12 | apply digits_w_decimal; lia].
    rewrite <-(horner_digits_w 12 i), Hinv by lia. reflexivity.
  - intros [-> ->]. destruct com_mascara; vm_compute; reflexivity.
Qed.

Lemma seq_line_skips_only_zero_witness :
  seq_line true false 1 = Ok None <-> 1 = 0 /\ false = false.
Proof. apply (seq_line_skips_only_zero true false 1). lia. Defined.

Section SeqErrors.
Context {RS : RandomSource}.

(** X12: a sequential run whose first base is negative (a negative start
    of the range) raises [ValueError] at that base, when the range is not
    empty and the target quantity, if any, is positive: nothing is written
    and the generator is left as it was. *)
Theorem seq_negative_start_raises (fuel : nat) (c : CommonArgs) (a : SeqArgs)
    (g : rng) (σ : World) :
  let inicio := default 0 (s_inicio_base12 a) in
  let fim := default 999999999999 (s_fim_base12 a) in
  let start :=
    inicio + (s_shard_index a - inicio `mod` s_shards_total a) `mod` s_shards_total a in
  0 <= s_shard_index a < s_shards_total a ->
  start < 0 -> start <= fim ->
  match s_quantidade a with Some alvo => 0 < alvo | None => True end ->
  exists w' σ',
    main (S fuel) c (ModoSeq a) g σ = (Raise ValueError, (g, (w', σ'))) /\
    files σ' = files σ /\ _count_total w' = 0.
Proof.
  intros inicio fim start Hk Hneg Hle Hq.
  unfold main, ChunkWriter_init. cbn [main_try]. fold inicio fim.
  rewrite decide_True by exact Hk. fold start.
  cbn [seq_loop]. rewrite bool_decide_eq_true_2 by exact Hle. cbn [andb].
  assert (Hgo : match s_quantidade a with
                | Some alvo => bool_decide (0 < alvo)
                | None => true
                end = true).
  { destruct (s_quantidade a); [apply bool_decide_eq_true_2; exact Hq | reflexivity]. }
  rewrite Hgo, seq_line_negative by exact Hneg.
  eexists _, _. split; [reflexivity|]. split; reflexivity.
Qed.

End SeqErrors.

Lemma seq_negative_start_raises_witness :
  exists w' σ',
    main (RS := lcg_source) 1
      {| output := {| parent := lit "out"; name := lit "cnpjs" |};
         mascara := false; arg_chunk_size := 0; arg_progress_every := 0 |}
      (ModoSeq {| s_quantidade := None; s_inicio_base12 := Some (-5);
                  s_fim_base12 := Some 10; s_passo := 1;
                  s_shards_total := 1; s_shard_index := 0;
                  s_nao_pular_seq_invalidas := false |})
      (7 : Z) {| files := ∅; dirs := ∅; console := [] |} =
      (Raise ValueError, (7, (w', σ'))) /\
    files σ' = ∅ /\ _count_total w' = 0.
Proof.
  apply (seq_negative_start_raises (RS := lcg_source) 0
      {| output := {| parent := lit "out"; name := lit "cnpjs" |};
         mascara := false; arg_chunk_size := 0; arg_progress_every := 0 |}
      {| s_quantidade := None; s_inicio_base12 := Some (-5);
         s_fim_base12 := Some 10; s_passo := 1;
         s_shards_total := 1; s_shard_index := 0;
         s_nao_pular_seq_invalidas := false |}
      (7 : Z) {| files := ∅; dirs := ∅; console := [] |}).
  - cbn. lia.
  - vm_compute. reflexivity.
  - vm_compute. discriminate.
  - exact I.
Defined.

(** ** The random mode *)

Section RandomMode.
Context {RS : RandomSource}.

(** Without bias and with a root range that is not empty, a line of the
    random mode is the identifier of a root drawn from the range and of
    the branch drawn or fixed. *)
Lemma gerar_random_uma_linha_uniform al fx m raiz_min raiz_max g :
  raiz_min <= raiz_max ->
  gerar_random_uma_linha al fx m raiz_min raiz_max false g =
    (montar_cnpj (randrange_draw raiz_min (raiz_max + 1) g).1
       (if al then randrange_draw 1 (9999 + 1) (randrange_draw raiz_min (raiz_max + 1) g).2
        else (default 1 fx, (randrange_draw raiz_min (raiz_max + 1) g).2)).1 m,
     (if al then randrange_draw 1 (9999 + 1) (randrange_draw raiz_min (raiz_max + 1) g).2
      else (default 1 fx, (randrange_draw raiz_min (raiz_max + 1) g).2)).2).
Proof.
  intros Hle. unfold gerar_random_uma_linha, randint, randrange.
  rewrite decide_True by lia.
  destruct (randrange_draw raiz_min (raiz_max + 1) g) as [v g1]. cbn [fst snd].
  destruct al.
  - rewrite decide_True by lia.
    destruct (randrange_draw 1 (9999 + 1) g1) as [f g2]. reflexivity.
  - destruct fx; reflexivity.
Qed.

Lemma uniform_pairs_S (a : RandomArgs) (k : nat) (g : rng) :
  uniform_pairs a (S k) g =
    let d := randrange_draw (r_raiz_min a) (r_raiz_max a + 1) g in
    let d' := if r_filial_aleatoria a then randrange_draw 1 (9999 + 1) d.2
              else (default 1 (r_filial_fixa a), d.2) in
    ((d.1, d'.1) :: (uniform_pairs a k d'.2).1, (uniform_pairs a k d'.2).2).
Proof.
  cbn [uniform_pairs]. cbv zeta.
  destruct (randrange_draw (r_raiz_min a) (r_raiz_max a + 1) g) as [v g1]. cbn [fst snd].
  destruct (if r_filial_aleatoria a then _ else _) as [f g2]. cbn [fst snd].
  destruct (uniform_pairs a k g2) as [ps g']. reflexivity.
Qed.

Lemma uniform_pairs_length (a : RandomArgs) (k : nat) (g : rng) :
  length (uniform_pairs a k g).1 = k.
Proof.
  revert g. induction k as [|k IH]; intros g; [reflexivity|].
  rewrite uniform_pairs_S. cbv zeta. cbn [fst length]. rewrite IH. reflexivity.
Qed.

Lemma uniform_pairs_range (a : RandomArgs) (k : nat) (g : rng) :
  r_raiz_min a <= r_raiz_max a ->
  r_filial_aleatoria a = true \/ 1 <= default 1 (r_filial_fixa a) <= 9999 ->
  Forall (fun p => r_raiz_min a <= p.1 <= r_raiz_max a /\ 1 <= p.2 <= 9999 /\
                   (r_filial_aleatoria a = false -> p.2 = default 1 (r_filial_fixa a)))
    (uniform_pairs a k g).1.
Proof.
  intros Hle Hf. revert g. induction k as [|k IH]; intros g; [constructor|].
  rewrite uniform_pairs_S. cbv zeta. cbn [fst].
  apply Forall_cons. split; [|apply IH]. cbn [fst snd].
  pose proof (randrange_draw_range (r_raiz_min a) (r_raiz_max a + 1) g ltac:(lia)) as Hv.
  split; [lia|].
  destruct (r_filial_aleatoria a) eqn:Hal.
  - pose proof (randrange_draw_range 1 (9999 + 1)
                  (randrange_draw (r_raiz_min a) (r_raiz_max a + 1) g).2 ltac:(lia)) as Hd.
    split; [lia | discriminate].
  - cbn [fst]. destruct Hf as [Hf|Hf]; [discriminate|]. split; [exact Hf | reflexivity].
Qed.

(** The random loop without bias never resamples when the branch is not
    0: every turn writes the line of the pair it draws. *)
Lemma random_loop_lines c (a : RandomArgs) (k : nat) :
  r_bias_newer a = false ->
  0 <= r_raiz_min a <= r_raiz_max a -> r_raiz_max a <= 99999999 ->
  r_filial_aleatoria a = true \/ 1 <= default 1 (r_filial_fixa a) <= 9999 ->
  forall (fuel : nat) gerados g w σ,
    (k < fuel)%nat -> k = Z.to_nat (r_quantidade a - gerados) ->
    exists g',
      random_loop fuel c a gerados g w σ =
        (let '(r, s) :=
           write_lines ((fun p => cnpj_line (mascara c) p.1 p.2)
                          <$> (uniform_pairs a k g).1) w σ in
         (r, (g', s))).
Proof.
  intros Hbias Hr Hmax Hf.
  induction k as [|k IH]; intros fuel gerados g w σ Hfuel Hk.
  - destruct fuel as [|fuel]; [lia|]. cbn [random_loop].
    rewrite decide_False by lia. exists g. reflexivity.
  - destruct fuel as [|fuel]; [lia|]. cbn [random_loop].
    rewrite decide_True by lia.
    rewrite Hbias, gerar_random_uma_linha_uniform by lia.
    pose proof (uniform_pairs_range a (S k) g ltac:(lia) Hf) as Hrange.
    rewrite uniform_pairs_S in Hrange |- *. cbv zeta in Hrange |- *.
    cbn [fst] in Hrange |- *. apply Forall_cons in Hrange as [(Hv & Hb & _) _].
    cbn [fst snd] in Hv, Hb.
    set (d := randrange_draw (r_raiz_min a) (r_raiz_max a + 1) g) in *.
    set (d' := if r_filial_aleatoria a then randrange_draw 1 (9999 + 1) d.2
               else (default 1 (r_filial_fixa a), d.2)) in *.
    rewrite montar_cnpj_some by lia.
    rewrite fmap_cons. cbn [write_lines fst snd].
    destruct (write_line _ w σ) as [[[]|e|] [w' σ']].
    + apply IH; lia.
    + exists d'.2. reflexivity.
    + exists d'.2. reflexivity.
Qed.

(** X13: the random mode without bias, with a root range inside
    0..99999999 and a branch that is drawn from 1..9999 or fixed in
    1..9999 (1 when no branch is given).  No draw is rejected: the run
    feeds the writer exactly [quantidade] lines, line number [i] being the
    identifier of the i-th pair drawn; every root lies in the root range,
    every branch in 1..9999 (the fixed one when it is fixed), and every
    line reads back as its pair. *)
Theorem random_run_uniform (fuel : nat) (c : CommonArgs) (a : RandomArgs)
    (g : rng) (σ : World) :
  r_bias_newer a = false ->
  0 <= r_raiz_min a <= r_raiz_max a -> r_raiz_max a <= 99999999 ->
  r_filial_aleatoria a = true \/ 1 <= default 1 (r_filial_fixa a) <= 9999 ->
  (Z.to_nat (r_quantidade a) < fuel)%nat ->
  let pairs :=
    (uniform_pairs a (Z.to_nat (r_quantidade a)) (seeded (r_seed a) g)).1 in
  length pairs = Z.to_nat (r_quantidade a) /\
  Forall (fun p => r_raiz_min a <= p.1 <= r_raiz_max a /\ 1 <= p.2 <= 9999 /\
                   (r_filial_aleatoria a = false -> p.2 = default 1 (r_filial_fixa a)))
    pairs /\
  Forall (fun p => parse_cnpj_like (cnpj_line (mascara c) p.1 p.2) = Ok p) pairs /\
  exists g',
    main fuel c (ModoRandom a) g σ =
      (let '(r, s) :=
         run_writer (output c) (arg_chunk_size c) (arg_progress_every c)
           ((fun p => cnpj_line (mascara c) p.1 p.2) <$> pairs) σ in
       (r, (g', s))).
Proof.
  intros Hbias Hr Hmax Hf Hfuel pairs.
  pose proof (uniform_pairs_range a (Z.to_nat (r_quantidade a)) (seeded (r_seed a) g)
                ltac:(lia) Hf) as Hrange.
  split; [apply uniform_pairs_length|]. split; [exact Hrange|]. split.
  - eapply Forall_impl; [exact Hrange|]. intros [v f] (Hv & Hb & _). cbn [fst snd] in *.
    apply parse_cnpj_line; lia.
  - unfold main, run_writer.
    destruct (ChunkWriter_init (output c) (arg_chunk_size c) (arg_progress_every c) σ)
      as [w σ0].
    cbn [main_try]. rewrite decide_False by lia.
    destruct (random_loop_lines c a (Z.to_nat (r_quantidade a)) Hbias Hr Hmax Hf
                fuel 0 (seeded (r_seed a) g) w σ0 Hfuel ltac:(f_equal; lia))
      as [g' ->].
    exists g'. fold pairs.
    destruct (write_lines _ w σ0) as [r [w' σ']]. reflexivity.
Qed.

End RandomMode.

Lemma random_run_uniform_witness :
  length (uniform_pairs (H := lcg_source)
            {| r_quantidade := 3; r_filial_aleatoria := true; r_filial_fixa := None;
               r_seed := Some 42; r_raiz_min := 35000000; r_raiz_max := 99999999;
               r_bias_newer := false |} 3 (42 : Z)).1 = 3%nat.
Proof.
  destruct (random_run_uniform (RS := lcg_source) 10
      {| output := {| parent := lit "out"; name := lit "cnpjs" |};
         mascara := false; arg_chunk_size := 0; arg_progress_every := 0 |}
      {| r_quantidade := 3; r_filial_aleatoria := true; r_filial_fixa := None;
         r_seed := Some 42; r_raiz_min := 35000000; r_raiz_max := 99999999;
         r_bias_newer := false |}
      (7 : Z) {| files := ∅; dirs := ∅; console := [] |}) as (Hlen & _).
  - reflexivity.
  - cbn. lia.
  - cbn. lia.
  - left. reflexivity.
  - cbn. lia.
  - exact Hlen.
Defined.

(** ** The chunked writer: files by index, files left alone *)

Lemma groups_lookup {A} (cs : nat) :
  (0 < cs)%nat ->
  forall (fuel : nat) (l : list A) (j : nat),
    (length l <= fuel)%nat -> (j * cs < length l)%nat ->
    groups fuel cs l !! j = Some (take cs (drop (j * cs) l)).
Proof.
  intros Hcs. induction fuel as [|fuel IH]; intros l j Hfuel Hj; [lia|].
  destruct l as [|x l]; [cbn in Hj; lia|].
  cbn [groups]. destruct j as [|j]; [reflexivity|].
  cbn [lookup list_lookup]. change (list_lookup j) with (lookup (M := list (list A)) j).
  rewrite IH.
  - rewrite drop_drop. reflexivity.
  - rewrite length_drop. cbn [length] in *. lia.
  - rewrite length_drop. cbn [length] in *. lia.
Qed.

Lemma groups_lookup_Some {A} (cs : nat) :
  (0 < cs)%nat ->
  forall (fuel : nat) (l : list A) (j : nat) g,
    groups fuel cs l !! j = Some g -> (j * cs < length l)%nat.
Proof.
  intros Hcs. induction fuel as [|fuel IH]; intros l j g Hg; [discriminate|].
  destruct l as [|x l]; [discriminate|].
  cbn [groups] in Hg. destruct j as [|j]; [cbn [length]; lia|].
  cbn [lookup list_lookup] in Hg. apply IH in Hg.
  rewrite length_drop in Hg. cbn [length] in *. lia.
Qed.

(** A path that is none of the chunk files is left as it was. *)
Lemma chunk_files_frame p q (gs : list (list str)) :
  forall k m,
    (forall j : nat, (j < length gs)%nat -> q <> chunk_path p (k + Z.of_nat j)) ->
    chunk_files p k gs m !! q = m !! q.
Proof.
  induction gs as [|g gs IH]; intros k m Hq; [reflexivity|].
  cbn [chunk_files]. rewrite IH.
  - apply lookup_insert_ne. intros Heq. apply (Hq 0%nat); [cbn; lia|].
    rewrite Z.add_0_r. symmetry. exact Heq.
  - intros j Hj. replace (k + 1 + Z.of_nat j) with (k + Z.of_nat (S j)) by lia.
    apply Hq. cbn [length]. lia.
Qed.

(** The chunk file of index [k + j] holds the lines of group [j]. *)
Lemma chunk_files_lookup p (gs : list (list str)) :
  forall k m (j : nat) g,
    0 <= k -> gs !! j = Some g ->
    chunk_files p k gs m !! chunk_path p (k + Z.of_nat j) = Some (file_of_lines g).
Proof.
  induction gs as [|g0 gs IH]; intros k m j g Hk Hg; [discriminate|].
  cbn [chunk_files]. destruct j as [|j].
  - injection Hg as ->. rewrite Z.add_0_r. rewrite chunk_files_frame.
    + apply lookup_insert_eq.
    + intros j _ Heq. apply chunk_path_inj in Heq; lia.
  - replace (k + Z.of_nat (S j)) with (k + 1 + Z.of_nat j) by lia.
    apply IH; [lia | exact Hg].
Qed.

(** X14: with chunking enabled, a run of the writer over any lines that
    ends normally leaves, for every [j] with [j * chunk_size] below the
    number of lines, the file [chunk_path] of index [j + 1] holding lines
    [j * chunk_size] up to [(j + 1) * chunk_size] (fewer in the last
    file), each followed by the line terminator; every other path keeps
    the contents it had, or stays absent; the directory of the prefix
    exists and no directory is gone; the writer has counted every line
    and holds no open file. *)
Theorem chunked_run_files (p : Path) (cs pe : Z) (lines : list str) (σ : World)
    (w' : ChunkWriter) (σ' : World) :
  0 < cs ->
  run_writer p cs pe lines σ = (Ok (), (w', σ')) ->
  (forall j : nat,
     (j * Z.to_nat cs < length lines)%nat ->
     files σ' !! chunk_path p (Z.of_nat j + 1) =
       Some (file_of_lines (take (Z.to_nat cs) (drop (j * Z.to_nat cs) lines)))) /\
  (forall q,
     (forall j : nat, (j * Z.to_nat cs < length lines)%nat ->
                      q <> chunk_path p (Z.of_nat j + 1)) ->
     files σ' !! q = files σ !! q) /\
  parent p ∈ dirs σ' /\ dirs σ ⊆ dirs σ' /\
  _count_total w' = Z.of_nat (length lines) /\ _fh w' = None.
Proof.
  intros Hcs. unfold run_writer, ChunkWriter_init.
  rewrite (Z.max_r 0 cs) by lia.
  destruct (write_lines_chunks p cs (Z.max 0 pe) (length lines) Hcs lines 0 0 0 None
              (mkdir (parent p) σ) ltac:(lia) ltac:(left; reflexivity))
    as (w1 & σ1 & -> & Ht & Hd & Hf).
  intros [= <- <-].
  cbn [files mkdir] in Hf. change (0 + 1) with 1 in Hf.
  cbn [dirs mkdir] in Hd.
  assert (Hcs' : (0 < Z.to_nat cs)%nat) by lia.
  split; [|split; [|split; [|split]]].
  - intros j Hj. rewrite Hf.
    replace (Z.of_nat j + 1) with (1 + Z.of_nat j) by lia.
    apply chunk_files_lookup; [lia|].
    apply groups_lookup; [exact Hcs' | lia | exact Hj].
  - intros q Hq. rewrite Hf. apply chunk_files_frame.
    intros j Hj. destruct (lookup_lt_is_Some_2 _ _ Hj) as [g Hg].
    apply (groups_lookup_Some _ Hcs') in Hg.
    replace (1 + Z.of_nat j) with (Z.of_nat j + 1) by lia. apply Hq, Hg.
  - rewrite Hd. apply elem_of_union_l, elem_of_union_l, elem_of_singleton.
    reflexivity.
  - rewrite Hd. apply union_subseteq_r.
  - rewrite close_count_total, close_fh. split; [lia | reflexivity].
Qed.

Lemma chunked_run_files_witness :
  exists w' σ',
    run_writer {| parent := lit "out"; name := lit "cnpjs" |} 2 0
      [lit "a"; lit "b"; lit "c"] {| files := ∅; dirs := ∅; console := [] |} =
      (Ok (), (w', σ')) /\
    files σ' !! chunk_path {| parent := lit "out"; name := lit "cnpjs" |} 2 =
      Some (file_of_lines [lit "c"]).
Proof.
  destruct (run_writer_chunked {| parent := lit "out"; name := lit "cnpjs" |} 2 0
              [lit "a"; lit "b"; lit "c"] {| files := ∅; dirs := ∅; console := [] |}
              ltac:(lia)) as (w' & σ' & Hrun & _).
  exists w', σ'. split; [exact Hrun|].
  destruct (chunked_run_files {| parent := lit "out"; name := lit "cnpjs" |} 2 0
              [lit "a"; lit "b"; lit "c"] {| files := ∅; dirs := ∅; console := [] |}
              w' σ' ltac:(lia) Hrun) as (Hfiles & _).
  apply (Hfiles 1%nat). cbn. lia.
Defined.

(** ** The chunked writer: counters and notices *)

(** One line through the writer, whatever its state: whether a file is
    opened, what is printed, and how the counters move. *)
Lemma write_line_step line w σ w' σ' :
  write_line line w σ = (Ok (), (w', σ')) ->
  base_prefix w' = base_prefix w /\ chunk_size w' = chunk_size w /\
  progress_every w' = progress_every w /\
  _count_total w' = _count_total w + 1 /\
  (if decide (_fh w = None \/ (chunk_size w > 0 /\ _count_chunk w >= chunk_size w))
   then _chunk_idx w' = _chunk_idx w + 1 /\ _count_chunk w' = 1
   else _chunk_idx w' = _chunk_idx w /\ _count_chunk w' = _count_chunk w + 1) /\
  _fh w' <> None /\
  console σ' =
    console σ ++
    (if decide ((_fh w = None \/ _count_chunk w >= chunk_size w) /\ chunk_size w > 0)
     then [ChunkNotice (chunk_path (base_prefix w) (_chunk_idx w + 1))] else []) ++
    (if decide (progress_every w <> 0 /\
                (_count_total w + 1) `mod` progress_every w = 0)
     then [ProgressNotice (_count_total w + 1)] else []).
Proof.
  destruct w as [p cs pe tot cnt idx fh].
  unfold write_line. writer_fields.
  destruct fh as [fh|].
  - destruct (decide (cs > 0 /\ cnt >= cs)) as [Hroll|Hroll].
    + unfold _open_next. writer_fields.
      rewrite !(decide_True (P := cs > 0)) by lia. writer_fields.
      rewrite (decide_True (P := cs > 0 /\ cnt >= cs)) by exact Hroll.
      writer_fields.
      intros [= <- <-]. writer_fields.
      rewrite decide_True by (right; exact Hroll).
      rewrite (decide_True (P := (_ \/ _) /\ _)) by (split; [right|]; lia).
      repeat match goal with |- _ /\ _ => split end;
        try reflexivity; try discriminate.
      case_decide; cbn [console print fh_write open_w];
        rewrite <-?app_assoc; reflexivity.
    + rewrite (decide_False (P := cs > 0 /\ cnt >= cs)) by exact Hroll.
      writer_fields. intros [= <- <-]. writer_fields.
      rewrite decide_False by (intros [H|H]; [discriminate H | exact (Hroll H)]).
      rewrite (decide_False (P := (_ \/ _) /\ _))
        by (intros [[H|H] H']; [discriminate H | apply Hroll; split; assumption]).
      repeat match goal with |- _ /\ _ => split end;
        try reflexivity; try discriminate.
      case_decide; cbn [console print fh_write open_w app];
        rewrite ?app_nil_r; reflexivity.
  - rewrite decide_True by (left; reflexivity).
    unfold _open_next. writer_fields.
    destruct (decide (cs > 0)) as [Hcs|Hcs].
    + writer_fields.
      rewrite (decide_False (P := cs > 0 /\ 0 >= cs)) by lia. writer_fields.
      intros [= <- <-]. writer_fields.
      rewrite (decide_True (P := (_ \/ _) /\ _)) by (split; [left; reflexivity | exact Hcs]).
      repeat match goal with |- _ /\ _ => split end;
        try reflexivity; try discriminate.
      case_decide; cbn [console print fh_write open_w];
        rewrite <-?app_assoc; reflexivity.
    + destruct (with_suffix p txt_suffix) as [q|e|];
        [|intros H; discriminate H..].
      writer_fields.
      rewrite (decide_False (P := cs > 0 /\ 0 >= cs)) by lia. writer_fields.
      intros [= <- <-]. writer_fields.
      rewrite (decide_False (P := (_ \/ _) /\ _)) by (intros [_ H]; exact (Hcs H)).
      repeat match goal with |- _ /\ _ => split end;
        try reflexivity; try discriminate.
      case_decide; cbn [console print fh_write open_w app];
        rewrite ?app_nil_r; reflexivity.
Qed.

(** The multiples of [pe] among [1 .. n], in order. *)
Lemma filter_multiples (pe : Z) (n : nat) :
  0 < pe ->
  filter (fun t => pe <> 0 /\ t `mod` pe = 0) (seqZ 1 (Z.of_nat n)) =
    Z.mul pe <$> seqZ 1 (Z.of_nat n / pe).
Proof.
  intros Hpe. induction n as [|n IH].
  - rewrite Z.div_0_l by lia. reflexivity.
  - rewrite Nat2Z.inj_succ, <-Z.add_1_r, seqZ_app by lia.
    rewrite filter_app, IH.
    change (seqZ (1 + Z.of_nat n) 1) with [1 + Z.of_nat n].
    destruct (decide ((1 + Z.of_nat n) `mod` pe = 0)) as [Hm|Hm].
    + rewrite filter_cons_True by (split; [lia | exact Hm]).
      rewrite filter_nil.
      assert ((Z.of_nat n + 1) / pe = Z.of_nat n / pe + 1 /\
              pe * (Z.of_nat n / pe + 1) = 1 + Z.of_nat n) as [-> Hq].
      { pose proof (Z.div_mod (1 + Z.of_nat n) pe ltac:(lia)) as Hdm.
        rewrite Hm, Z.add_0_r in Hdm.
        replace (Z.of_nat n + 1) with (1 + Z.of_nat n) by lia.
        set (q := (1 + Z.of_nat n) / pe) in *.
        assert (Z.of_nat n / pe = q - 1) as ->.
        { symmetry. apply Z.div_unique with (pe - 1); [lia|].
          rewrite Z.mul_sub_distr_l. lia. }
        split; [lia|]. replace (q - 1 + 1) with q by lia. lia. }
      rewrite seqZ_app by (try apply Z.div_pos; lia).
      rewrite fmap_app. f_equal.
      change (seqZ (1 + Z.of_nat n / pe) 1) with [1 + Z.of_nat n / pe].
      cbn [fmap list_fmap]. rewrite <-Hq. do 2 f_equal. lia.
    + rewrite filter_cons_False by (intros [_ H]; exact (Hm H)).
      rewrite filter_nil, app_nil_r.
      assert ((Z.of_nat n + 1) / pe = Z.of_nat n / pe) as ->.
      { pose proof (Z.div_mod (Z.of_nat n) pe ltac:(lia)) as Hdm.
        pose proof (Z.mod_pos_bound (Z.of_nat n) pe Hpe) as Hr.
        set (k := Z.of_nat n / pe) in *. set (r := Z.of_nat n `mod` pe) in *.
        symmetry. apply Z.div_unique with (r + 1); [|lia].
        left. split; [lia|].
        destruct (decide (r + 1 = pe)) as [Heq|Hne]; [|lia].
        exfalso. apply Hm.
        replace (1 + Z.of_nat n) with ((k + 1) * pe)
          by (rewrite Z.mul_add_distr_r; lia).
        apply Z.mod_mul. lia. }
      reflexivity.
Qed.

(** Any number of lines through the writer: the parameters stay, the
    total grows by the number of lines, the progress notices are those of
    the totals passed that [progress_every] divides, and the chunk
    notices are those of the chunk indices passed. *)
Lemma write_lines_trace lines :
  forall w σ w' σ',
    write_lines lines w σ = (Ok (), (w', σ')) ->
    base_prefix w' = base_prefix w /\ chunk_size w' = chunk_size w /\
    progress_every w' = progress_every w /\
    _count_total w' = _count_total w + Z.of_nat (length lines) /\
    _chunk_idx w <= _chunk_idx w' /\
    progress_totals (console σ') =
      progress_totals (console σ) ++
      filter (fun t => progress_every w <> 0 /\ t `mod` progress_every w = 0)
             (seqZ (_count_total w + 1) (Z.of_nat (length lines))) /\
    chunk_notices (console σ') =
      chunk_notices (console σ) ++
      (if decide (chunk_size w > 0)
       then chunk_path (base_prefix w) <$>
              seqZ (_chunk_idx w + 1) (_chunk_idx w' - _chunk_idx w)
       else []).
Proof.
  induction lines as [|l rest IH]; intros w σ w' σ' Hrun.
  - cbn [write_lines] in Hrun. injection Hrun as <- <-.
    cbn [length]. change (Z.of_nat 0) with 0.
    rewrite Z.sub_diag, Z.add_0_r, !seqZ_nil by lia.
    rewrite filter_nil, fmap_nil.
    repeat match goal with |- _ /\ _ => split end;
      try reflexivity; try lia; rewrite ?app_nil_r; try reflexivity.
    case_decide; rewrite app_nil_r; reflexivity.
  - cbn [write_lines] in Hrun.
    destruct (write_line l w σ) as [[u|e|] [w1 σ1]] eqn:Hstep;
      [|discriminate Hrun..].
    destruct u.
    apply write_line_step in Hstep as (Hp & Hcs & Hpe & Htot & Hidx & _ & Hcon).
    apply IH in Hrun as (Hp' & Hcs' & Hpe' & Htot' & Hidx' & Hprog & Hchunk).
    rewrite Hp, Hcs, Hpe, Htot in *.
    assert (_chunk_idx w <= _chunk_idx w1 /\
            chunk_notices (console σ1) =
              chunk_notices (console σ) ++
              (if decide (chunk_size w > 0)
               then chunk_path (base_prefix w) <$>
                      seqZ (_chunk_idx w + 1) (_chunk_idx w1 - _chunk_idx w)
               else []) /\
            progress_totals (console σ1) =
              progress_totals (console σ) ++
              filter (fun t => progress_every w <> 0 /\
                               t `mod` progress_every w = 0)
                     [_count_total w + 1]) as (Hle & Hc1 & Hp1).
    { rewrite Hcon. unfold chunk_notices, progress_totals.
      rewrite !omap_app.
      destruct (decide (progress_every w <> 0 /\
                        (_count_total w + 1) `mod` progress_every w = 0))
        as [Hd|Hd].
      - rewrite filter_cons_True by exact Hd. rewrite filter_nil.
        cbn [omap list_omap]. rewrite ?app_nil_r.
        destruct (decide (chunk_size w > 0)) as [Hpos|Hpos].
        + destruct (decide (_fh w = None \/ _count_chunk w >= chunk_size w))
            as [Ho|Ho].
          * rewrite decide_True in Hidx by (destruct Ho; [left|right]; tauto).
            rewrite decide_True by tauto. destruct Hidx as [-> _].
            replace (_chunk_idx w + 1 - _chunk_idx w) with 1 by lia.
            cbn [omap list_omap fmap list_fmap]. rewrite ?app_nil_r.
            split; [lia|]. split; reflexivity.
          * rewrite decide_False in Hidx by tauto.
            rewrite decide_False by tauto. destruct Hidx as [-> _].
            rewrite Z.sub_diag. cbn [omap list_omap]. rewrite ?app_nil_r.
            split; [lia|]. split; reflexivity.
        + rewrite decide_False by tauto.
          cbn [omap list_omap]. rewrite ?app_nil_r.
          split; [clear Hcon; case_decide; destruct Hidx; lia|]. split; reflexivity.
      - rewrite filter_cons_False by exact Hd. rewrite filter_nil.
        cbn [omap list_omap]. rewrite ?app_nil_r.
        destruct (decide (chunk_size w > 0)) as [Hpos|Hpos].
        + destruct (decide (_fh w = None \/ _count_chunk w >= chunk_size w))
            as [Ho|Ho].
          * rewrite decide_True in Hidx by (destruct Ho; [left|right]; tauto).
            rewrite decide_True by tauto. destruct Hidx as [-> _].
            replace (_chunk_idx w + 1 - _chunk_idx w) with 1 by lia.
            cbn [omap list_omap fmap list_fmap]. rewrite ?app_nil_r.
            split; [lia|]. split; reflexivity.
          * rewrite decide_False in Hidx by tauto.
            rewrite decide_False by tauto. destruct Hidx as [-> _].
            rewrite Z.sub_diag. cbn [omap list_omap]. rewrite ?app_nil_r.
            split; [lia|]. split; reflexivity.
        + rewrite decide_False by tauto.
          cbn [omap list_omap]. rewrite ?app_nil_r.
          split; [clear Hcon; case_decide; destruct Hidx; lia|]. split; reflexivity. }
    cbn [length]. rewrite Nat2Z.inj_succ, <-Z.add_1_l.
    repeat match goal with |- _ /\ _ => split end;
      try congruence; try lia.
    + rewrite Hprog, Hp1, <-app_assoc. f_equal.
      rewrite (seqZ_app _ 1) by lia. rewrite filter_app. reflexivity.
    + rewrite Hchunk, Hc1, <-app_assoc. f_equal.
      case_decide; [|reflexivity].
      rewrite <-fmap_app. f_equal.
      replace (_chunk_idx w' - _chunk_idx w)
        with ((_chunk_idx w1 - _chunk_idx w) + (_chunk_idx w' - _chunk_idx w1))
        by lia.
      rewrite seqZ_app by lia. do 2 f_equal. lia.
Qed.

(** With chunking enabled the counters of the writer agree after every
    line. *)
Lemma write_line_counters line w σ w' σ' :
  chunk_size w > 0 ->
  counters_agree w ->
  write_line line w σ = (Ok (), (w', σ')) ->
  counters_agree w' /\ _fh w' <> None.
Proof.
  intros Hcs Hinv Hstep.
  apply write_line_step in Hstep as (_ & Hcs' & _ & Htot & Hidx & Hfh & _).
  split; [|exact Hfh]. right. split; [exact Hfh|]. rewrite Hcs', Htot.
  destruct Hinv as [(Hnone & H0 & Hi)|(Hsome & Hcnt & Hsum)].
  - rewrite decide_True in Hidx by (left; exact Hnone).
    destruct Hidx as [-> ->]. lia.
  - destruct (decide (_count_chunk w >= chunk_size w)) as [Hfull|Hroom].
    + rewrite decide_True in Hidx by (right; split; assumption).
      destruct Hidx as [-> ->]. nia.
    + rewrite decide_False in Hidx by tauto.
      destruct Hidx as [-> ->]. lia.
Qed.

Lemma write_lines_counters lines :
  forall w σ w' σ',
    chunk_size w > 0 ->
    counters_agree w ->
    write_lines lines w σ = (Ok (), (w', σ')) ->
    counters_agree w'.
Proof.
  induction lines as [|l rest IH]; intros w σ w' σ' Hcs Hinv Hrun.
  - cbn [write_lines] in Hrun. injection Hrun as <- <-. exact Hinv.
  - cbn [write_lines] in Hrun.
    destruct (write_line l w σ) as [[u|e|] [w1 σ1]] eqn:Hstep;
      [|discriminate Hrun..].
    destruct u.
    pose proof (write_line_step _ _ _ _ _ Hstep) as (_ & Hcs1 & _).
    apply write_line_counters in Hstep as [Hinv1 _]; [|assumption..].
    eapply IH; [|exact Hinv1|exact Hrun]. rewrite Hcs1. exact Hcs.
Qed.

Lemma filter_zero_modulus (l : list Z) :
  filter (fun t => 0 <> 0 /\ t `mod` 0 = 0) l = [].
Proof.
  induction l as [|t l IH]; [reflexivity|].
  rewrite filter_cons_False by (intros [H _]; exact (H eq_refl)). exact IH.
Qed.

(** The index of the open chunk once [n] lines went through a writer
    whose counters agree. *)
Lemma counters_agree_index w n :
  chunk_size w > 0 -> 0 <= n -> counters_agree w -> _count_total w = n ->
  _chunk_idx w = (n + chunk_size w - 1) / chunk_size w.
Proof.
  intros Hcs Hn [(_ & Ht & ->)|(_ & Hcnt & Hsum)] Htot.
  - rewrite <-Htot, Ht. symmetry. apply Z.div_small. lia.
  - apply Z.div_unique with (_count_chunk w - 1); [lia|].
    rewrite <-Htot, Hsum, Z.mul_sub_distr_r. lia.
Qed.

(** X15: what a run of the writer prints.  The progress notices (on the
    error stream) announce exactly the multiples of [progress_every] up
    to the number of lines written, in order, and none when
    [progress_every] is zero or negative; the chunk notices (on the
    output stream) announce exactly the chunk files of indices 1 up to
    the number of lines divided by the chunk size, rounded up, in order,
    and none when chunking is disabled. *)
Theorem writer_notices (p : Path) (cs pe : Z) (lines : list str)
    (σ : World) (w' : ChunkWriter) (σ' : World) :
  run_writer p cs pe lines σ = (Ok (), (w', σ')) ->
  let n := Z.of_nat (length lines) in
  progress_totals (console σ') =
    progress_totals (console σ) ++
    (if decide (0 < pe) then Z.mul pe <$> seqZ 1 (n / pe) else []) /\
  chunk_notices (console σ') =
    chunk_notices (console σ) ++
    (if decide (0 < cs) then chunk_path p <$> seqZ 1 ((n + cs - 1) / cs)
     else []).
Proof.
  unfold run_writer, ChunkWriter_init.
  destruct (write_lines lines _ _) as [r [w1 σ1]] eqn:Hrun.
  cbn beta iota zeta. intros [= -> <- <-].
  pose proof (write_lines_trace _ _ _ _ _ Hrun)
    as (_ & Hcs & _ & Htot & _ & Hprog & Hchunk).
  revert Hcs Htot Hprog Hchunk. writer_fields. cbn [console mkdir].
  intros Hcs Htot Hprog Hchunk. split.
  - rewrite Hprog. f_equal. destruct (decide (0 < pe)) as [Hpe|Hpe].
    + rewrite (Z.max_r 0 pe) by lia. apply filter_multiples. exact Hpe.
    + rewrite (Z.max_l 0 pe) by lia. apply filter_zero_modulus.
  - rewrite Hchunk. f_equal. destruct (decide (0 < cs)) as [Hpos|Hpos].
    + rewrite (Z.max_r 0 cs) in * by lia.
      rewrite decide_True by lia. do 2 f_equal.
      rewrite Z.sub_0_r, <-Hcs.
      apply counters_agree_index; [lia | lia | | exact Htot].
      eapply write_lines_counters; [| |exact Hrun].
      * writer_fields. lia.
      * left. writer_fields. repeat split.
    + rewrite (Z.max_l 0 cs) by lia. rewrite decide_False by lia. reflexivity.
Qed.

Lemma writer_notices_witness :
  exists w' σ',
    run_writer {| parent := lit "out"; name := lit "cnpjs" |} 2 2
      [lit "a"; lit "b"; lit "c"; lit "d"; lit "e"]
      {| files := ∅; dirs := ∅; console := [] |} = (Ok (), (w', σ')) /\
    progress_totals (console σ') = [2; 4] /\
    chunk_notices (console σ') =
      [chunk_path {| parent := lit "out"; name := lit "cnpjs" |} 1;
       chunk_path {| parent := lit "out"; name := lit "cnpjs" |} 2;
       chunk_path {| parent := lit "out"; name := lit "cnpjs" |} 3].
Proof.
  destruct (run_writer_chunked {| parent := lit "out"; name := lit "cnpjs" |} 2 2
              [lit "a"; lit "b"; lit "c"; lit "d"; lit "e"]
              {| files := ∅; dirs := ∅; console := [] |} ltac:(lia))
    as (w' & σ' & Hrun & _).
  exists w', σ'. split; [exact Hrun|].
  exact (writer_notices _ _ _ _ _ _ _ Hrun).
Defined.

(** X16: the counters of the writer.  With chunking enabled, after a run
    that wrote at least one line the chunk index is the number of lines
    divided by the chunk size, rounded up; the last chunk holds between
    one and [chunk_size] lines; and the chunks before it are full: the
    total is [(index - 1) * chunk_size] plus the lines of the last
    chunk. *)
Theorem writer_counters (p : Path) (cs pe : Z) (lines : list str)
    (σ : World) (w' : ChunkWriter) (σ' : World) :
  0 < cs -> lines <> [] ->
  run_writer p cs pe lines σ = (Ok (), (w', σ')) ->
  let n := Z.of_nat (length lines) in
  _chunk_idx w' = (n + cs - 1) / cs /\
  1 <= _count_chunk w' <= cs /\
  n = (_chunk_idx w' - 1) * cs + _count_chunk w'.
Proof.
  intros Hpos Hne. unfold run_writer, ChunkWriter_init.
  destruct (write_lines lines _ _) as [r [w1 σ1]] eqn:Hrun.
  cbn beta iota zeta. intros [= -> <- <-].
  pose proof (write_lines_trace _ _ _ _ _ Hrun) as (_ & Hcs & _ & Htot & _).
  assert (counters_agree w1) as Hinv.
  { eapply write_lines_counters; [| |exact Hrun].
    - writer_fields. lia.
    - left. writer_fields. repeat split. }
  revert Hcs Htot. writer_fields. rewrite (Z.max_r 0 cs) by lia.
  intros Hcs Htot.
  assert (_chunk_idx (close w1) = _chunk_idx w1 /\
          _count_chunk (close w1) = _count_chunk w1) as [-> ->].
  { unfold close. destruct (_fh w1); split; reflexivity. }
  split.
  - rewrite <-Hcs. apply counters_agree_index; [lia | lia | exact Hinv | exact Htot].
  - destruct Hinv as [(_ & Ht & _)|(_ & Hcnt & Hsum)].
    + exfalso. apply Hne. destruct lines; [reflexivity|]. cbn [length] in Htot. lia.
    + rewrite Hcs in *. split; [exact Hcnt|]. lia.
Qed.

Lemma writer_counters_witness :
  exists w' σ',
    run_writer {| parent := lit "out"; name := lit "cnpjs" |} 2 0
      [lit "a"; lit "b"; lit "c"; lit "d"; lit "e"]
      {| files := ∅; dirs := ∅; console := [] |} = (Ok (), (w', σ')) /\
    _chunk_idx w' = 3 /\ 1 <= _count_chunk w' <= 2 /\
    5 = (_chunk_idx w' - 1) * 2 + _count_chunk w'.
Proof.
  destruct (run_writer_chunked {| parent := lit "out"; name := lit "cnpjs" |} 2 0
              [lit "a"; lit "b"; lit "c"; lit "d"; lit "e"]
              {| files := ∅; dirs := ∅; console := [] |} ltac:(lia))
    as (w' & σ' & Hrun & _).
  exists w', σ'. split; [exact Hrun|].
  exact (writer_counters {| parent := lit "out"; name := lit "cnpjs" |} 2 0
           [lit "a"; lit "b"; lit "c"; lit "d"; lit "e"] _ w' σ'
           ltac:(lia) ltac:(discriminate) Hrun).
Defined.

(** ** A branch wider than four digits *)

(** A number of at least [10 ^ w] has more than [w] decimal digits. *)
Lemma decimal_digits_wide n (w : nat) :
  10 ^ Z.of_nat w <= n -> (w < length (decimal_digits n))%nat.
Proof.
  intros Hn.
  assert (0 <= n) as Hpos by (pose proof (Z.pow_pos_nonneg 10 (Z.of_nat w)); lia).
  pose proof (horner_bound _ (decimal_digits_decimal n Hpos)) as Hb.
  rewrite horner_decimal_digits in Hb by exact Hpos.
  destruct (decide (w < length (decimal_digits n))%nat) as [|Hle]; [assumption|].
  exfalso.
  assert (10 ^ Z.of_nat (length (decimal_digits n)) <= 10 ^ Z.of_nat w)
    by (apply Z.pow_le_mono_r; lia).
  lia.
Qed.

Lemma digits_w_wide n (w : nat) :
  10 ^ Z.of_nat w <= n -> digits_w w n = decimal_digits n.
Proof.
  intros Hn. pose proof (decimal_digits_wide n w Hn) as Hlen.
  unfold digits_w. replace (w - length (decimal_digits n))%nat with 0%nat by lia.
  reflexivity.
Qed.

(** The first check digit looks at the first twelve digits only. *)
Lemma calc_dvs_fst_take (L : list Z) :
  (12 <= length L)%nat -> (calc_dvs L).1 = (calc_dvs (take 12 L)).1.
Proof.
  intros Hlen. unfold calc_dvs. cbn [fst]. unfold dv_mod11.
  rewrite (zip_with_take_min Z.mul L PESOS_DV1).
  change (length PESOS_DV1) with 12%nat.
  replace (length L `min` 12)%nat with 12%nat by lia.
  reflexivity.
Qed.

(** X17: a branch above 9999 is not refused.  For a root in 0..99999999
    and a branch of five digits or more, [montar_cnpj] returns a line, and
    never [None] or an error: its digits are the eight of the root, all
    the digits of the branch and two check digits, fifteen or more in
    all; the unmasked line is these digits and the masked line is the
    mask applied to them. *)
Theorem montar_cnpj_wide_branch (raiz8 filial4 : Z) (com_mascara : bool) :
  0 <= raiz8 <= 99999999 -> 10000 <= filial4 ->
  exists ds : list Z,
    Forall is_decimal ds /\ (15 <= length ds)%nat /\
    horner (take 8 ds) = raiz8 /\
    horner (take (length ds - 10) (drop 8 ds)) = filial4 /\
    montar_cnpj raiz8 filial4 com_mascara =
      Ok (Some (if com_mascara then mascarar (digit_chr <$> ds)
                else digit_chr <$> ds)).
Proof.
  intros Hr Hf.
  assert (H8 : length (digits_w 8 raiz8) = 8%nat)
    by (apply digits_w_length; [lia | rewrite pow10_8; lia]).
  assert (Hw : digits_w 4 filial4 = decimal_digits filial4)
    by (apply digits_w_wide; rewrite pow10_4; lia).
  assert (H5 : (4 < length (decimal_digits filial4))%nat)
    by (apply decimal_digits_wide; rewrite pow10_4; lia).
  assert (Hdec : Forall is_decimal (cnpj14_digits raiz8 filial4)).
  { unfold cnpj14_digits.
    destruct (calc_dvs_decimal (digits_w 8 raiz8 ++ digits_w 4 filial4)) as [H1 H2].
    apply Forall_app. split.
    - apply Forall_app. split; apply digits_w_decimal; lia.
    - apply Forall_cons. split; [exact H1|].
      apply Forall_cons. split; [exact H2 | apply Forall_nil_2]. }
  exists (cnpj14_digits raiz8 filial4).
  split; [exact Hdec|].
  assert (Hlen : length (cnpj14_digits raiz8 filial4) =
                 (8 + length (decimal_digits filial4) + 2)%nat).
  { unfold cnpj14_digits. rewrite !length_app, H8, Hw. reflexivity. }
  split; [lia|]. split.
  { unfold cnpj14_digits.
    rewrite <-!app_assoc, (take_app_length' (digits_w 8 raiz8)) by (symmetry; exact H8).
    apply horner_digits_w. lia. }
  split.
  { rewrite Hlen. unfold cnpj14_digits.
    rewrite <-!app_assoc, (drop_app_length' (digits_w 8 raiz8)) by (symmetry; exact H8).
    rewrite Hw, take_app_length' by lia.
    apply horner_decimal_digits. lia. }
  rewrite montar_cnpj_cases by lia. cbv zeta.
  destruct (is_sequencia_invalida (digit_chr <$> cnpj14_digits raiz8 filial4))
    eqn:Hinv; [|reflexivity].
  exfalso. apply is_sequencia_invalida_all_same in Hinv.
  apply all_same_digits in Hinv as (d & Hd & Heq); [|exact Hdec].
  rewrite Hlen in Heq. unfold cnpj14_digits in Heq. rewrite Hw in Heq.
  set (L := digits_w 8 raiz8 ++ decimal_digits filial4) in *.
  assert (HL : length L = (8 + length (decimal_digits filial4))%nat)
    by (unfold L; rewrite length_app, H8; reflexivity).
  rewrite replicate_add in Heq.
  apply app_inj_1 in Heq as [HLd Hdv]; [|rewrite length_replicate; exact HL].
  injection Hdv as Hd1 _.
  change (dv_mod11 L PESOS_DV1) with (calc_dvs L).1 in Hd1.
  rewrite calc_dvs_fst_take in Hd1 by lia.
  rewrite HLd, take_replicate in Hd1.
  replace (12 `min` (8 + length (decimal_digits filial4)))%nat with 12%nat in Hd1
    by lia.
  pose proof (calc_dvs_replicate d Hd Hd1) as ->.
  unfold L in HLd. rewrite replicate_add in HLd.
  apply app_inj_1 in HLd as [_ Hz]; [|rewrite length_replicate; exact H8].
  pose proof (horner_decimal_digits filial4 ltac:(lia)) as Hh.
  rewrite Hz, <-(app_nil_r (replicate _ 0)), horner_zeros in Hh.
  cbn in Hh. lia.
Qed.

Lemma montar_cnpj_wide_branch_witness :
  exists ds : list Z,
    Forall is_decimal ds /\ (15 <= length ds)%nat /\
    horner (take 8 ds) = 1 /\
    horner (take (length ds - 10) (drop 8 ds)) = 12345 /\
    montar_cnpj 1 12345 false = Ok (Some (digit_chr <$> ds)).
Proof.
  apply (montar_cnpj_wide_branch 1 12345 false); lia.
Defined.

(** ** The sequential mode with a step of zero *)

(** With a stride of zero the loop stays on its base: with a target
    quantity it feeds the writer the line of that base again and again. *)
Lemma seq_loop_zero_stride c a fim i alvo line :
  s_quantidade a = Some alvo ->
  s_passo a * s_shards_total a = 0 ->
  0 <= i <= fim ->
  seq_emit (mascara c) (s_nao_pular_seq_invalidas a) i = Some line ->
  forall (fuel : nat) emitidos w σ,
    (Z.to_nat (alvo - emitidos) < fuel)%nat ->
    seq_loop fuel c a fim i emitidos w σ =
      write_lines (replicate (Z.to_nat (alvo - emitidos)) line) w σ.
Proof.
  intros Hq Hs Hi Hline.
  induction fuel as [|fuel IH]; intros emitidos w σ Hfuel; [lia|].
  cbn [seq_loop]. rewrite Hq, Hs, Z.add_0_r.
  rewrite bool_decide_eq_true_2 by lia. cbn [andb].
  destruct (decide (emitidos < alvo)) as [Hlt|Hge].
  - rewrite bool_decide_eq_true_2 by exact Hlt.
    rewrite seq_line_emit, Hline by lia.
    replace (Z.to_nat (alvo - emitidos))
      with (S (Z.to_nat (alvo - (emitidos + 1)))) by lia.
    cbn [replicate write_lines].
    destruct (write_line line w σ) as [[[]|e|] [w' σ']]; [|reflexivity..].
    apply IH. lia.
  - rewrite bool_decide_eq_false_2 by exact Hge.
    replace (Z.to_nat (alvo - emitidos)) with 0%nat by lia. reflexivity.
Qed.

(** With a stride of zero and no way to reach the target, the loop does
    not end normally. *)
Lemma seq_loop_zero_stride_never_ends c a fim i :
  s_passo a * s_shards_total a = 0 ->
  0 <= i <= fim ->
  forall (fuel : nat) emitidos w σ,
    match s_quantidade a with
    | None => True
    | Some alvo =>
        emitidos < alvo /\
        seq_emit (mascara c) (s_nao_pular_seq_invalidas a) i = None
    end ->
    (seq_loop fuel c a fim i emitidos w σ).1 <> Ok ().
Proof.
  intros Hs Hi. induction fuel as [|fuel IH]; intros emitidos w σ Hq;
    [discriminate|].
  cbn [seq_loop]. rewrite Hs, Z.add_0_r.
  rewrite bool_decide_eq_true_2 by lia. cbn [andb].
  rewrite seq_line_emit by lia.
  destruct (s_quantidade a) as [alvo|] eqn:Hqa.
  - destruct Hq as [Hlt Hnone].
    rewrite bool_decide_eq_true_2, Hnone by exact Hlt.
    apply IH. split; assumption.
  - destruct (seq_emit _ _ i) as [line|].
    + destruct (write_line line w σ) as [[[]|e|] [w' σ']]; [|discriminate..].
      apply IH. exact I.
    + apply IH. exact I.
Qed.

Section SeqZeroStep.
Context {RS : RandomSource}.

(** X18: the sequential mode with [--passo 0].  The loop never leaves its
    first base.  With a target quantity and a base that emits a line, the
    run writes that same line [quantidade] times.  Without a target
    quantity, or when the base is the skipped all-zero one and the target
    is positive, the run never ends normally, whatever the fuel. *)
Theorem seq_zero_step (fuel : nat) (c : CommonArgs) (a : SeqArgs) (g : rng) (σ : World) :
  let inicio := default 0 (s_inicio_base12 a) in
  let fim := default 999999999999 (s_fim_base12 a) in
  let start :=
    inicio + (s_shard_index a - inicio `mod` s_shards_total a) `mod` s_shards_total a in
  let emitted := seq_emit (mascara c) (s_nao_pular_seq_invalidas a) start in
  s_passo a = 0 -> 0 <= s_shard_index a < s_shards_total a -> 0 <= start <= fim ->
  (forall alvo line,
     s_quantidade a = Some alvo -> emitted = Some line ->
     (Z.to_nat alvo < fuel)%nat ->
     main fuel c (ModoSeq a) g σ =
       (let '(r, s) :=
          run_writer (output c) (arg_chunk_size c) (arg_progress_every c)
            (replicate (Z.to_nat alvo) line) σ in
        (r, (g, s)))) /\
  (match s_quantidade a with
   | None => True
   | Some alvo => 0 < alvo /\ emitted = None
   end ->
   (main fuel c (ModoSeq a) g σ).1 <> Ok ()).
Proof.
  intros inicio fim start emitted Hp Hk Hi.
  assert (Hs : s_passo a * s_shards_total a = 0) by (rewrite Hp; lia).
  split.
  - intros alvo line Hq Hline Hfuel. unfold main, run_writer.
    destruct (ChunkWriter_init (output c) (arg_chunk_size c) (arg_progress_every c) σ)
      as [w σ0].
    cbn [main_try]. fold inicio fim. rewrite decide_True by exact Hk. fold start.
    rewrite (seq_loop_zero_stride c a fim start alvo line Hq Hs Hi Hline)
      by (rewrite Z.sub_0_r; exact Hfuel).
    rewrite Z.sub_0_r.
    destruct (write_lines _ w σ0) as [r [w' σ']]. reflexivity.
  - intros Hq. unfold main.
    destruct (ChunkWriter_init (output c) (arg_chunk_size c) (arg_progress_every c) σ)
      as [w σ0].
    cbn [main_try]. fold inicio fim. rewrite decide_True by exact Hk. fold start.
    pose proof (seq_loop_zero_stride_never_ends c a fim start Hs Hi fuel 0 w σ0 Hq)
      as Hne.
    destruct (seq_loop fuel c a fim start 0 w σ0) as [r [w' σ']]. exact Hne.
Qed.

End SeqZeroStep.

Lemma seq_zero_step_witness :
  exists line,
    seq_emit false false 5 = Some line /\
    main (RS := lcg_source) 10
      {| output := {| parent := lit "out"; name := lit "cnpjs" |};
         mascara := false; arg_chunk_size := 0; arg_progress_every := 0 |}
      (ModoSeq {| s_quantidade := Some 3; s_inicio_base12 := Some 5;
                  s_fim_base12 := Some 10; s_passo := 0;
                  s_shards_total := 1; s_shard_index := 0;
                  s_nao_pular_seq_invalidas := false |})
      (7 : Z) {| files := ∅; dirs := ∅; console := [] |} =
      (let '(r, s) :=
         run_writer {| parent := lit "out"; name := lit "cnpjs" |} 0 0
           (replicate 3 line) {| files := ∅; dirs := ∅; console := [] |} in
       (r, (7, s))).
Proof.
  destruct (seq_zero_step (RS := lcg_source) 10
      {| output := {| parent := lit "out"; name := lit "cnpjs" |};
         mascara := false; arg_chunk_size := 0; arg_progress_every := 0 |}
      {| s_quantidade := Some 3; s_inicio_base12 := Some 5;
         s_fim_base12 := Some 10; s_passo := 0;
         s_shards_total := 1; s_shard_index := 0;
         s_nao_pular_seq_invalidas := false |}
      (7 : Z) {| files := ∅; dirs := ∅; console := [] |}
      eq_refl ltac:(cbn; lia) ltac:(vm_compute; split; discriminate))
    as [Hrep _].
  eexists. split; [vm_compute; reflexivity|].
  apply (Hrep 3); [reflexivity | vm_compute; reflexivity | cbn; lia].
Defined.

(** ** The checker's retrying download *)

Section CheckerFetch.
Import Checker.
Context {RS : RandomSource}.

Lemma choice_UA_elem (g : rng) : (choice_UA g).1 ∈ UA_LIST.
Proof.
  unfold choice_UA.
  pose proof (randrange_draw_range 0 (Z.of_nat (length UA_LIST)) g) as Hr.
  destruct (randrange_draw 0 (Z.of_nat (length UA_LIST)) g) as [k g'].
  cbn [fst] in *. specialize (Hr ltac:(cbn; lia)).
  apply list_elem_of_lookup_total_2. lia.
Qed.

Lemma outcomes_of_cons (n : Net) rq rqs ms :
  outcomes_of n (rq :: rqs) =
    (session_get rq n).1 :: outcomes_of (sleep ms (session_get rq n).2) rqs.
Proof.
  unfold outcomes_of. rewrite imap_cons. cbn [session_get fst snd sleep answers sent].
  rewrite Nat.add_0_r. f_equal. apply imap_ext. intros j x _. cbn.
  rewrite length_app. cbn [length]. f_equal. lia.
Qed.

Lemma outcomes_of_cons_now (n : Net) rq rqs :
  outcomes_of n (rq :: rqs) =
    (session_get rq n).1 :: outcomes_of (session_get rq n).2 rqs.
Proof.
  unfold outcomes_of. rewrite imap_cons. cbn [session_get fst snd answers sent].
  rewrite Nat.add_0_r. f_equal. apply imap_ext. intros j x _. cbn.
  rewrite length_app. cbn [length]. f_equal. lia.
Qed.

(** The turns of the loop: the requests go to [url] with an agent of the
    list; the loop stops at the first attempt that is not blocked and
    returns its response; it pauses after every blocked attempt, the last
    one included. *)
Lemma fetch_loop_spec (tents : list Z) (url : str) :
  forall (g : rng) (n : Net),
  exists rqs : list Request,
    sent (fetch_loop tents url g n).2.2 = sent n ++ rqs /\
    answers (fetch_loop tents url g n).2.2 = answers n /\
    (length rqs <= length tents)%nat /\
    (tents <> [] -> rqs <> []) /\
    Forall (fun rq => req_url rq = url /\ req_user_agent rq ∈ UA_LIST) rqs /\
    match (fetch_loop tents url g n).1 with
    | Some resp =>
        exists bs,
          outcomes_of n rqs = bs ++ [Answered resp] /\
          Forall blocked bs /\ ~ blocked (Answered resp) /\
          slept (fetch_loop tents url g n).2.2 =
            slept n ++ zip_with pause_after tents bs
    | None =>
        length rqs = length tents /\
        Forall blocked (outcomes_of n rqs) /\
        slept (fetch_loop tents url g n).2.2 =
          slept n ++ zip_with pause_after tents (outcomes_of n rqs)
    end.
Proof.
  induction tents as [|tent rest IH]; intros g n.
  - exists []. cbn. rewrite !app_nil_r.
    repeat split; try reflexivity; try lia; try congruence; constructor.
  - cbn [fetch_loop].
    pose proof (choice_UA_elem g) as Hua.
    destruct (choice_UA g) as [ua g1]. cbn [fst] in Hua.
    set (rq := {| req_url := url; req_user_agent := ua |}).
    assert (Hrq : req_url rq = url /\ req_user_agent rq ∈ UA_LIST)
      by (split; [reflexivity | exact Hua]).
    destruct (session_get rq n) as [o n1] eqn:Hget.
    assert (Hn1 : sent n1 = sent n ++ [rq] /\ answers n1 = answers n /\
                  slept n1 = slept n).
    { unfold session_get in Hget. injection Hget as _ <-. repeat split. }
    destruct Hn1 as (Hsent & Hans & Hslept).
    assert (Ho : outcomes_of n [rq] = [o]).
    { rewrite outcomes_of_cons_now, Hget. reflexivity. }
    assert (Hstop : forall resp, o = Answered resp -> ~ blocked o ->
              exists rqs : list Request,
                sent n1 = sent n ++ rqs /\ answers n1 = answers n /\
                (length rqs <= length (tent :: rest))%nat /\
                (tent :: rest <> [] -> rqs <> []) /\
                Forall (fun rq => req_url rq = url /\ req_user_agent rq ∈ UA_LIST) rqs /\
                exists bs,
                  outcomes_of n rqs = bs ++ [Answered resp] /\
                  Forall blocked bs /\ ~ blocked (Answered resp) /\
                  slept n1 = slept n ++ zip_with pause_after (tent :: rest) bs).
    { intros resp -> Hnb. exists [rq].
      split; [exact Hsent|]. split; [exact Hans|]. split; [cbn; lia|].
      split; [discriminate|].
      split; [apply Forall_cons; split; [exact Hrq | apply Forall_nil_2]|].
      exists []. split; [exact Ho|]. split; [constructor|]. split; [exact Hnb|].
      cbn. rewrite app_nil_r. exact Hslept. }
    assert (Hagain : forall ms, blocked o -> ms = pause_after tent o ->
              exists rqs : list Request,
                sent (fetch_loop rest url g1 (sleep ms n1)).2.2 = sent n ++ rqs /\
                answers (fetch_loop rest url g1 (sleep ms n1)).2.2 = answers n /\
                (length rqs <= length (tent :: rest))%nat /\
                (tent :: rest <> [] -> rqs <> []) /\
                Forall (fun rq => req_url rq = url /\ req_user_agent rq ∈ UA_LIST) rqs /\
                match (fetch_loop rest url g1 (sleep ms n1)).1 with
                | Some resp =>
                    exists bs,
                      outcomes_of n rqs = bs ++ [Answered resp] /\
                      Forall blocked bs /\ ~ blocked (Answered resp) /\
                      slept (fetch_loop rest url g1 (sleep ms n1)).2.2 =
                        slept n ++ zip_with pause_after (tent :: rest) bs
                | None =>
                    length rqs = length (tent :: rest) /\
                    Forall blocked (outcomes_of n rqs) /\
                    slept (fetch_loop rest url g1 (sleep ms n1)).2.2 =
                      slept n ++ zip_with pause_after (tent :: rest) (outcomes_of n rqs)
                end).
    { intros ms Hb ->.
      destruct (IH g1 (sleep (pause_after tent o) n1))
        as (rqs & Hs & Ha & Hlen & _ & Hall & Hres).
      exists (rq :: rqs).
      assert (Hos : outcomes_of n (rq :: rqs) =
                    o :: outcomes_of (sleep (pause_after tent o) n1) rqs).
      { rewrite (outcomes_of_cons n rq rqs (pause_after tent o)), Hget.
        reflexivity. }
      split.
      { rewrite Hs. cbn [sleep sent]. rewrite Hsent, <-app_assoc. reflexivity. }
      split; [rewrite Ha; exact Hans|]. split; [cbn [length]; lia|].
      split; [discriminate|]. split; [constructor; assumption|].
      destruct (fetch_loop rest url g1 (sleep (pause_after tent o) n1)).1
        as [resp|].
      - destruct Hres as (bs & Hbs & Hfb & Hnb & Hsl).
        exists (o :: bs). rewrite Hos, Hbs.
        split; [reflexivity|]. split; [constructor; assumption|].
        split; [exact Hnb|].
        rewrite Hsl. cbn [sleep slept zip_with]. rewrite Hslept, <-app_assoc.
        reflexivity.
      - destruct Hres as (Hl & Hfb & Hsl).
        split; [cbn [length]; lia|]. rewrite Hos.
        split; [constructor; assumption|].
        rewrite Hsl. cbn [sleep slept zip_with]. rewrite Hslept, <-app_assoc.
        reflexivity. }
    destruct o as [resp|].
    + destruct (decide (status_code resp = 200)) as [H200|H200].
      { cbn [fst snd]. apply Hstop; [reflexivity|]. cbn. lia. }
      destruct (decide (status_code resp = 403 \/ status_code resp = 429))
        as [Hb|Hb].
      * apply Hagain; [exact Hb | reflexivity].
      * cbn [fst snd]. apply Hstop; [reflexivity | exact Hb].
    + apply Hagain; [exact I | reflexivity].
Qed.

(** X19: the retries of [fetch].  Whatever the server and the generator,
    [fetch] sends between one and three requests, all to the given URL and
    each with a user agent of the list.  It stops at the first attempt
    that is not blocked (an exception, or status 403 or 429, is blocked)
    and returns that response, whatever its status; it returns [None]
    exactly when all three attempts were blocked.  After every blocked
    attempt, the third one included, it pauses: 1.5 s plus one second per
    earlier attempt after a 403 or 429, 1 s plus half a second per earlier
    attempt after an exception. *)
Theorem fetch_retries (url : str) (g : rng) (n : Net) :
  exists rqs : list Request,
    sent (fetch url g n).2.2 = sent n ++ rqs /\
    (1 <= length rqs <= 3)%nat /\
    Forall (fun rq => req_url rq = url /\ req_user_agent rq ∈ UA_LIST) rqs /\
    match (fetch url g n).1 with
    | Some resp =>
        exists bs,
          outcomes_of n rqs = bs ++ [Answered resp] /\
          Forall blocked bs /\ ~ blocked (Answered resp) /\
          slept (fetch url g n).2.2 =
            slept n ++ zip_with pause_after [0; 1; 2] bs
    | None =>
        length rqs = 3%nat /\
        Forall blocked (outcomes_of n rqs) /\
        slept (fetch url g n).2.2 =
          slept n ++ zip_with pause_after [0; 1; 2] (outcomes_of n rqs)
    end.
Proof.
  unfold fetch. change (seqZ 0 RETRY) with [0; 1; 2].
  destruct (fetch_loop_spec [0; 1; 2] url g n)
    as (rqs & Hs & _ & Hlen & Hne & Hall & Hres).
  exists rqs. split; [exact Hs|]. split.
  { cbn [length] in Hlen. split; [|exact Hlen].
    destruct rqs; [exfalso; apply Hne; [discriminate | reflexivity] | cbn; lia]. }
  split; [exact Hall|].
  destruct (fetch_loop [0; 1; 2] url g n).1 as [resp|]; exact Hres.
Qed.

End CheckerFetch.
